(** * FeraFreshROI: the ROI calculator of [src/pages/index.tsx]

    A shallow embedding of [computeScenario] and of the data it works on.
    JavaScript numbers are IEEE 754 binary64 values; they are modelled by
    the Standard Library's [spec_float] with [prec = 53] and [emax = 1024],
    whose operations round to nearest, ties to even, and have a NaN, two
    infinities and two zeros, as the source's arithmetic does.

    The file has the definitions first (the number type, the data model,
    [computeScenario], the inputs used as examples and the vocabulary of
    the proofs), then elementary facts on the program, then what the
    binary64 operations compute (each rounds the exact result, and the
    rounding is monotone), the properties of [computeScenario], [C1] to
    [C10], and last the page around it: the input handlers, the figures
    of a result one against the other, and what is shown ([X1] to
    [X23]). *)

From Stdlib Require Import ZArith List Bool Lia String Permutation.
From Stdlib Require Import SpecFloat.
Import ListNotations.

Local Open Scope Z_scope.

(** ** The JavaScript [number] type *)

Module Num.

Definition prec : Z := 53.
Definition emax : Z := 1024.

Definition number : Type := spec_float.

Definition NaN : number := S754_nan.
Definition pInf : number := S754_infinity false.
Definition nInf : number := S754_infinity true.
Definition zero : number := S754_zero false.
Definition nzero : number := S754_zero true.

Definition add : number -> number -> number := SFadd prec emax.
Definition sub : number -> number -> number := SFsub prec emax.
Definition mul : number -> number -> number := SFmul prec emax.
Definition div : number -> number -> number := SFdiv prec emax.

(** [x === y], [x < y], [x <= y], [x > y], [x >= y] on numbers. *)
Definition eqb : number -> number -> bool := SFeqb.
Definition ltb : number -> number -> bool := SFltb.
Definition leb : number -> number -> bool := SFleb.
Definition gtb (x y : number) : bool := SFltb y x.
Definition geb (x y : number) : bool := SFleb y x.

(** The number denoted by an integer literal. *)
Definition of_Z (n : Z) : number := binary_normalize prec emax n 0 false.

(** The number denoted by the decimal literal [n / 10^k], written [n/d]:
    the double nearest to the quotient, which the correctly rounded
    division of the two (exactly representable) integers yields. *)
Definition lit (n d : Z) : number := div (of_Z n) (of_Z d).

(** [Number.isNaN], [Number.isFinite]. *)
Definition isNaN (x : number) : bool :=
  match x with S754_nan => true | _ => false end.

Definition isFinite (x : number) : bool :=
  match x with S754_zero _ | S754_finite _ _ _ => true | _ => false end.

Definition is_zero (x : number) : bool :=
  match x with S754_zero _ => true | _ => false end.

(** A well-formed double: the mantissa and exponent of a finite value are
    in canonical form. *)
Definition wf (x : number) : bool := valid_binary prec emax x.

(** [Math.round]: the integer nearest to [x], ties towards +Infinity;
    NaN, the infinities and the zeros are returned as they are; a result
    that is zero keeps the sign of [x]. For a finite [x = +-m * 2^e] with
    [e < 0] the integer is [floor (x + 1/2)]. *)
Definition round (x : number) : number :=
  match x with
  | S754_finite s m e =>
      if 0 <=? e then x
      else binary_normalize prec emax
             ((2 * cond_Zopp s (Zpos m) + 2 ^ (- e)) / 2 ^ (1 - e)) 0 s
  | _ => x
  end.

End Num.

Import Num.

Declare Scope num_scope.
Delimit Scope num_scope with num.
Bind Scope num_scope with number.
Infix "+" := add : num_scope.
Infix "-" := sub : num_scope.
Infix "*" := mul : num_scope.
Infix "/" := div : num_scope.
Infix "===" := eqb (at level 70, no associativity) : num_scope.

(** ** Data model *)

Inductive LayoutMode := desktop | mobile.
Inductive EfficacyScenario := conservative | base | optimistic.

Record HealthEventInput := {
  name : string;
  key : string;
  count : number;
  costPerEvent : number
}.

Record CalculatorState := {
  milkingCows : number;
  freshPerYear : number;
  freshOverride : bool;
  replacementCost : number;
  salvageValue : number;
  milkPrice : number;
  lbMilkPerLbDM : number;
  dmCost : number;
  deathEvents : number;
  soldEvents : number;
  healthEvents : list HealthEventInput
}.

Definition defaultHealthEvents : list HealthEventInput :=
  [ {| name := "Metritis"; key := "metritis";
       count := of_Z 900; costPerEvent := of_Z 400 |};
    {| name := "Mastitis"; key := "mastitis";
       count := of_Z 2500; costPerEvent := of_Z 400 |};
    {| name := "Clinical Hypocalcemia / Milk Fever"; key := "milkFever";
       count := of_Z 150; costPerEvent := of_Z 275 |};
    {| name := "Ketosis"; key := "ketosis";
       count := of_Z 600; costPerEvent := of_Z 200 |};
    {| name := "Retained Placenta"; key := "retainedPlacenta";
       count := of_Z 400; costPerEvent := of_Z 330 |};
    {| name := "Displaced Abomasum"; key := "da";
       count := of_Z 150; costPerEvent := of_Z 640 |};
    {| name := "Respiratory Disorders"; key := "respiratory";
       count := of_Z 300; costPerEvent := of_Z 400 |};
    {| name := "Digestive Disorders"; key := "digestive";
       count := of_Z 400; costPerEvent := of_Z 250 |};
    {| name := "Lameness"; key := "lameness";
       count := of_Z 900; costPerEvent := of_Z 225 |} ].

Definition defaultState : CalculatorState := {|
  milkingCows := of_Z 10000;
  freshPerYear := of_Z 13500;
  freshOverride := false;
  replacementCost := of_Z 3500;
  salvageValue := of_Z 2000;
  milkPrice := of_Z 20;
  lbMilkPerLbDM := lit 18 10;
  dmCost := lit 13 100;
  deathEvents := of_Z 700;
  soldEvents := of_Z 3000;
  healthEvents := defaultHealthEvents
|}.

Record ScenarioResult := {
  scenario : EfficacyScenario;
  label : string;
  savingsAnnual : number;
  investmentAnnual : number;
  netProfitAnnual : number;
  roiRatio : number;
  returnPerCowYear : number;
  returnPerCowMonth : number;
  returnPerCowDay : number;
  monthsToBreakeven : option number;
  daysToBreakeven : option number
}.

(** Base effect parameters. *)
Definition DEATH_REDUCTION_BASE : number := lit 113 1000.
Definition CULLING_VOLUNTARY_REDUCTION_BASE : number := lit 666 10000.
Definition CULLING_SOLD_REDUCTION_BASE : number := lit 113 1000.
Definition HEALTH_EVENT_REDUCTION_BASE : number := lit 549 1000.
Definition PRODUCTION_GAIN_PERCENT_BASE : number := lit 494 100.

Definition SCENARIO_MULTIPLIERS (s : EfficacyScenario) : number :=
  match s with
  | conservative => lit 75 100
  | base => of_Z 1
  | optimistic => lit 125 100
  end.

Definition SCENARIO_LABELS (s : EfficacyScenario) : string :=
  match s with
  | conservative => "Conservative"
  | base => "Base"
  | optimistic => "Optimistic"
  end.

(** ** [computeScenario]

    The local constants of the function body, in the order of the source,
    each as a function of the two arguments. *)

Module Body.
Section Body.

Variable state : CalculatorState.
Variable scenario : EfficacyScenario.

Local Open Scope num_scope.

Definition m : number := milkingCows state.

Definition fresh : number :=
  if freshOverride state
  then freshPerYear state
  else round (milkingCows state * lit 135 100).

Definition mult : number := SCENARIO_MULTIPLIERS scenario.

(* --- Death events --- *)
Definition deathIncidence : number := deathEvents state / m.
Definition deathReduction : number := DEATH_REDUCTION_BASE * mult.
Definition newDeathIncidence : number :=
  deathIncidence * (of_Z 1 - deathReduction).
Definition newDeathEvents : number :=
  if deathIncidence === of_Z 0
  then deathEvents state
  else (deathEvents state * newDeathIncidence) / deathIncidence.
Definition deathEventsAvoided : number := deathEvents state - newDeathEvents.
Definition deathSavings : number := deathEventsAvoided * salvageValue state.

(* --- Culling section --- *)
Definition cullingRate : number :=
  (deathEvents state + soldEvents state) / fresh.
Definition soldRate : number := soldEvents state / fresh.
Definition voluntaryReduction : number :=
  CULLING_VOLUNTARY_REDUCTION_BASE * mult.
Definition soldReduction : number := CULLING_SOLD_REDUCTION_BASE * mult.

Definition newCullingRate : number :=
  cullingRate * (of_Z 1 - voluntaryReduction).
Definition newSoldRate : number := soldRate * (of_Z 1 - soldReduction).
Definition cullingVoluntaryDeltaRate : number := soldRate - newSoldRate.

Definition cullingSavings : number :=
  cullingVoluntaryDeltaRate
  * soldEvents state
  * (replacementCost state - salvageValue state).

(* --- Health events section --- *)
Definition healthSavings : number :=
  fold_left
    (fun acc ev =>
       let reduction := HEALTH_EVENT_REDUCTION_BASE * mult in
       let eventsAvoided := count ev * reduction in
       let savings := eventsAvoided * costPerEvent ev in
       acc + savings)
    (healthEvents state) (of_Z 0).

(* --- Production / IOFC --- *)
Definition gainPercent : number := PRODUCTION_GAIN_PERCENT_BASE * mult.
Definition extraRevenuePerCowDay : number :=
  (gainPercent * milkPrice state) / of_Z 100.
Definition extraDMLbPerCowDay : number := gainPercent / lbMilkPerLbDM state.
Definition extraDMCostPerCowDay : number := extraDMLbPerCowDay * dmCost state.
Definition netIOFCPerCowDay : number :=
  extraRevenuePerCowDay - extraDMCostPerCowDay.
Definition productionSavingsAnnual : number :=
  netIOFCPerCowDay * m * of_Z 210.

(* --- Labor --- *)
Definition wagePerHour : number := of_Z 20.
Definition monthlyHours : number := of_Z 22 * of_Z 30.
Definition laborChangeFraction : number := lit 1 10.
Definition changedHoursPerMonth : number := monthlyHours * laborChangeFraction.
Definition laborCostPerMonth : number := changedHoursPerMonth * wagePerHour.
Definition laborCostAnnual : number := laborCostPerMonth * of_Z 12.

(* --- Investment --- *)
Definition costPerDose : number := lit 45 10.
Definition applicatorCost : number := of_Z 40.
Definition applicatorCount : number := of_Z 3.
Definition applicationsPerYear : number := of_Z 1.

Definition productCostAnnual : number := m * costPerDose * applicationsPerYear.
Definition applicatorInvestment : number := applicatorCost * applicatorCount.

Definition investmentAnnual : number :=
  productCostAnnual + applicatorInvestment + laborCostAnnual.

(* --- Total savings (annual) --- *)
Definition totalSavingsAnnual : number :=
  deathSavings + cullingSavings + healthSavings + productionSavingsAnnual.

Definition netProfitAnnual : number := totalSavingsAnnual - investmentAnnual.
Definition roiRatio : number :=
  if gtb investmentAnnual (of_Z 0)
  then totalSavingsAnnual / investmentAnnual
  else of_Z 0.

Definition returnPerCowYear : number := netProfitAnnual / m.
Definition returnPerCowMonth : number := returnPerCowYear / of_Z 12.
Definition returnPerCowDay : number := returnPerCowMonth / of_Z 30.

Definition breakeven : bool :=
  gtb totalSavingsAnnual (of_Z 0) && gtb investmentAnnual (of_Z 0).

Definition monthsToBreakeven : option number :=
  if breakeven
  then Some ((investmentAnnual / totalSavingsAnnual) * of_Z 12)
  else None.

Definition daysToBreakeven : option number :=
  if breakeven
  then Some ((investmentAnnual / totalSavingsAnnual) * of_Z 365)
  else None.

End Body.
End Body.

Definition computeScenario (state : CalculatorState)
    (scenario : EfficacyScenario) : ScenarioResult := {|
  scenario := scenario;
  label := SCENARIO_LABELS scenario;
  savingsAnnual := Body.totalSavingsAnnual state scenario;
  investmentAnnual := Body.investmentAnnual state;
  netProfitAnnual := Body.netProfitAnnual state scenario;
  roiRatio := Body.roiRatio state scenario;
  returnPerCowYear := Body.returnPerCowYear state scenario;
  returnPerCowMonth := Body.returnPerCowMonth state scenario;
  returnPerCowDay := Body.returnPerCowDay state scenario;
  monthsToBreakeven := Body.monthsToBreakeven state scenario;
  daysToBreakeven := Body.daysToBreakeven state scenario
|}.

(** Functional updates of the state, [{...state, field: v}]. *)
Definition set_milkingCows (st : CalculatorState) (v : number) :=
  {| milkingCows := v; freshPerYear := freshPerYear st;
     freshOverride := freshOverride st;
     replacementCost := replacementCost st; salvageValue := salvageValue st;
     milkPrice := milkPrice st; lbMilkPerLbDM := lbMilkPerLbDM st;
     dmCost := dmCost st; deathEvents := deathEvents st;
     soldEvents := soldEvents st; healthEvents := healthEvents st |}.

Definition set_fresh (st : CalculatorState) (v : number) :=
  {| milkingCows := milkingCows st; freshPerYear := v;
     freshOverride := true;
     replacementCost := replacementCost st; salvageValue := salvageValue st;
     milkPrice := milkPrice st; lbMilkPerLbDM := lbMilkPerLbDM st;
     dmCost := dmCost st; deathEvents := deathEvents st;
     soldEvents := soldEvents st; healthEvents := healthEvents st |}.

Definition set_deathEvents (st : CalculatorState) (v : number) :=
  {| milkingCows := milkingCows st; freshPerYear := freshPerYear st;
     freshOverride := freshOverride st;
     replacementCost := replacementCost st; salvageValue := salvageValue st;
     milkPrice := milkPrice st; lbMilkPerLbDM := lbMilkPerLbDM st;
     dmCost := dmCost st; deathEvents := v;
     soldEvents := soldEvents st; healthEvents := healthEvents st |}.

Definition set_feed (st : CalculatorState) (price cost : number) :=
  {| milkingCows := milkingCows st; freshPerYear := freshPerYear st;
     freshOverride := freshOverride st;
     replacementCost := replacementCost st; salvageValue := salvageValue st;
     milkPrice := price; lbMilkPerLbDM := lbMilkPerLbDM st;
     dmCost := cost; deathEvents := deathEvents st;
     soldEvents := soldEvents st; healthEvents := healthEvents st |}.

Definition set_healthEvents (st : CalculatorState)
    (l : list HealthEventInput) :=
  {| milkingCows := milkingCows st; freshPerYear := freshPerYear st;
     freshOverride := freshOverride st;
     replacementCost := replacementCost st; salvageValue := salvageValue st;
     milkPrice := milkPrice st; lbMilkPerLbDM := lbMilkPerLbDM st;
     dmCost := dmCost st; deathEvents := deathEvents st;
     soldEvents := soldEvents st; healthEvents := l |}.

(** An event that never occurs and costs nothing. *)
Definition idleEvent : HealthEventInput :=
  {| name := EmptyString; key := EmptyString;
     count := of_Z 0; costPerEvent := of_Z 0 |}.

(** ** Predicates on inputs and results *)

Definition finite_event (ev : HealthEventInput) : bool :=
  isFinite (count ev) && isFinite (costPerEvent ev).

(** Every numeric field of the input is a finite number. *)
Definition finite_inputs (st : CalculatorState) : bool :=
  isFinite (milkingCows st) && isFinite (freshPerYear st)
  && isFinite (replacementCost st) && isFinite (salvageValue st)
  && isFinite (milkPrice st) && isFinite (lbMilkPerLbDM st)
  && isFinite (dmCost st) && isFinite (deathEvents st)
  && isFinite (soldEvents st) && forallb finite_event (healthEvents st).

Definition null_or_finite (x : option number) : bool :=
  match x with None => true | Some v => isFinite v end.

(** No numeric field of the result is NaN or an infinity. *)
Definition all_fields_finite (r : ScenarioResult) : bool :=
  isFinite (savingsAnnual r) && isFinite (investmentAnnual r)
  && isFinite (netProfitAnnual r) && isFinite (roiRatio r)
  && isFinite (returnPerCowYear r) && isFinite (returnPerCowMonth r)
  && isFinite (returnPerCowDay r)
  && null_or_finite (monthsToBreakeven r)
  && null_or_finite (daysToBreakeven r).

(** Two numbers that JavaScript cannot tell apart with [===], NaN taken
    equal to itself: they are the same value, or both are zeros. *)
Definition same_number (x y : number) : Prop :=
  x = y \/ (is_zero x = true /\ is_zero y = true).

(** A positive finite number. *)
Definition pos_finite (x : number) : Prop :=
  exists mx ex, x = S754_finite false mx ex.

(** ** Concrete inputs used below *)

(** The reference herd with no milking cows. *)
Definition emptyHerd : CalculatorState := set_milkingCows defaultState (of_Z 0).

(** The reference herd, fresh cows per year overridden to [0]. *)
Definition noFresh : CalculatorState := set_fresh defaultState (of_Z 0).

(** No milking cows and no death events. *)
Definition emptyHerdNoDeath : CalculatorState :=
  set_deathEvents emptyHerd (of_Z 0).

(** The reference herd with no death events. *)
Definition noDeath : CalculatorState := set_deathEvents defaultState (of_Z 0).

(** The reference herd, milk worth nothing and dry matter at 10 per lb:
    the extra feed costs more than the extra milk earns. *)
Definition costlyFeed : CalculatorState :=
  set_feed defaultState (of_Z 0) (of_Z 10).

(** The reference herd, its health events listed in reverse order. *)
Definition reversedEvents : CalculatorState :=
  set_healthEvents defaultState (rev defaultHealthEvents).

(** The reference health events, the first two exchanged. *)
Definition mastitisFirst : list HealthEventInput :=
  nth 1 defaultHealthEvents idleEvent
  :: nth 0 defaultHealthEvents idleEvent
  :: skipn 2 defaultHealthEvents.

(** The reference herd with nothing but health events to save on: no
    deaths, no cows sold, milk and dry matter priced at zero. *)
Definition healthOnly : CalculatorState :=
  {| milkingCows := of_Z 10000; freshPerYear := of_Z 13500;
     freshOverride := false;
     replacementCost := of_Z 3500; salvageValue := of_Z 2000;
     milkPrice := of_Z 0; lbMilkPerLbDM := lit 18 10; dmCost := of_Z 0;
     deathEvents := of_Z 0; soldEvents := of_Z 0;
     healthEvents := defaultHealthEvents |}.

(** ** Auxiliary definitions for the rounding of binary64 operations

    The proofs below read a number through the integer [ord x], its value
    in units of [2 ^ emin] (the smallest positive double), and describe
    each operation as the rounding [R N D] of an exact quotient [N / D] of
    integers in that unit. *)

(** The exponent of the subnormal doubles, [-1074], and the exponent a
    value of magnitude [2 ^ e] is rounded at. *)
Definition emin : Z := SpecFloat.emin prec emax.
Definition fexp (e : Z) : Z := SpecFloat.fexp prec emax e.

(** The position of [N / D] between [floor (N / D)] and its successor,
    from the remainder [r = N mod D]. *)
Definition loc_of (D r : Z) : location :=
  if r =? 0 then loc_Exact else loc_Inexact (2 * r ?= D).

(** The shift record that holds [N / D]: integer part, round bit and
    sticky bit. *)
Definition located (N D : Z) : shr_record :=
  shr_record_of_loc (N / D) (loc_of D (N mod D)).

(** The integer nearest to [N / D], ties to even. *)
Definition rne (N D : Z) : Z :=
  round_nearest_even (N / D) (loc_of D (N mod D)).

(** The place of the infinities in the order: [2 ^ emax] in units of
    [2 ^ emin]. *)
Definition cap : Z := 2 ^ (emax - emin).

(** The value of a number in units of [2 ^ emin]; the infinities sit at
    [+- cap], and NaN is given [0]. *)
Definition ord (x : number) : Z :=
  match x with
  | S754_zero _ => 0
  | S754_infinity s => cond_Zopp s cap
  | S754_nan => 0
  | S754_finite s m e => cond_Zopp s (Zpos m * 2 ^ (e - emin))
  end.

Definition sign_bit (x : number) : bool :=
  match x with
  | S754_zero s | S754_infinity s | S754_finite s _ _ => s
  | S754_nan => false
  end.

(** The last two steps of [binary_round_aux]: renormalise a rounded
    mantissa, then tell zero, finite and overflow apart. *)
Definition classify (s : bool) (m e : Z) : number :=
  match m with
  | Z0 => S754_zero s
  | Zpos p => if e <=? emax - prec then S754_finite s p e else S754_infinity s
  | Zneg _ => S754_nan
  end.

Definition finish (s : bool) (m e : Z) : number :=
  let '(mrs, e') := shr_fexp prec emax m e loc_Exact in
  classify s (shr_m mrs) e'.

(** Rounding in units of [2 ^ emin]: the number of low bits dropped from
    [N / D], the rounded non-negative value, capped at the infinity, and
    its extension to negative numerators. *)
Definition rshift (N D : Z) : Z := Z.max 0 (Zdigits2 (N / D) - prec).

Definition Rpos (N D : Z) : Z :=
  Z.min (rne N (D * 2 ^ rshift N D) * 2 ^ rshift N D) cap.

Definition R (N D : Z) : Z :=
  if N <? 0 then - Rpos (- N) D else Rpos N D.

(** The number 1 in units of [2 ^ emin]. *)
Definition unit_scale : Z := 2 ^ (- emin).

(** ** Predicates on inputs used by the theorems on sums and scenarios *)

Definition wf_event (ev : HealthEventInput) : bool :=
  wf (count ev) && wf (costPerEvent ev).

(** Every numeric field of the input is a well-formed double. *)
Definition wf_inputs (st : CalculatorState) : bool :=
  wf (milkingCows st) && wf (freshPerYear st)
  && wf (replacementCost st) && wf (salvageValue st)
  && wf (milkPrice st) && wf (lbMilkPerLbDM st)
  && wf (dmCost st) && wf (deathEvents st)
  && wf (soldEvents st) && forallb wf_event (healthEvents st).

(** An event that saves nothing: no occurrence at a finite cost, or a
    finite number of occurrences at no cost. *)
Definition neutral_event (ev : HealthEventInput) : bool :=
  (is_zero (count ev) && isFinite (costPerEvent ev))
  || (isFinite (count ev) && is_zero (costPerEvent ev)).

(** The summand of the health-savings [reduce]. *)
Definition eventSavings (sc : EfficacyScenario) (ev : HealthEventInput)
  : number :=
  (count ev * (HEALTH_EVENT_REDUCTION_BASE * Body.mult sc)
   * costPerEvent ev)%num.

Definition nonneg_finite (x : number) : bool :=
  wf x && isFinite x && leb (of_Z 0) x.

Definition is_pos_finite (x : number) : bool :=
  match x with S754_finite false _ _ => true | _ => false end.

Definition nonneg_event (ev : HealthEventInput) : bool :=
  nonneg_finite (count ev) && nonneg_finite (costPerEvent ev).

(** The order of the scenarios by their multiplier. *)
Definition scenario_le (s1 s2 : EfficacyScenario) : bool :=
  leb (SCENARIO_MULTIPLIERS s1) (SCENARIO_MULTIPLIERS s2).

(** Finite non-negative counts and prices, a positive herd and a positive
    effective fresh count, and a replacement cost that is at least the
    salvage value. *)
Definition monotone_inputs (st : CalculatorState) : bool :=
  is_pos_finite (milkingCows st) && is_pos_finite (Body.fresh st)
  && nonneg_finite (deathEvents st) && nonneg_finite (soldEvents st)
  && nonneg_finite (salvageValue st)
  && isFinite (replacementCost st)
  && leb (salvageValue st) (replacementCost st)
  && forallb nonneg_event (healthEvents st).

(** The double [2 ^ k], for [-1022 <= k <= 1023]. *)
Definition two_to (k : Z) : number :=
  S754_finite false 4503599627370496 (k - 52).

(** Feed figures for which the production term follows the scenario:
    [lbMilkPerLbDM] lies between [2 ^ -300] and [2 ^ 300], and either
    the dry matter costs nothing ([dmCost] is zero, [milkPrice] finite and
    not negative), or [milkPrice] lies between [2 ^ -300] and [2 ^ 300],
    [dmCost] is at least [2 ^ -300] and, as real numbers,
    [milkPrice * lbMilkPerLbDM >= 101 * dmCost]: per cow and day, the
    extra milk is worth at least 1 percent more than the extra dry
    matter costs. *)
Definition feed_margin (st : CalculatorState) : bool :=
  leb (two_to (-300)) (lbMilkPerLbDM st)
  && leb (lbMilkPerLbDM st) (two_to 300)
  && ((is_zero (dmCost st) && nonneg_finite (milkPrice st))
      || (leb (two_to (-300)) (milkPrice st)
          && leb (milkPrice st) (two_to 300)
          && leb (two_to (-300)) (dmCost st)
          && (101 * ord (dmCost st) * unit_scale
              <=? ord (milkPrice st) * ord (lbMilkPerLbDM st)))).

(** The reference herd with one more health event, which never occurs and
    costs nothing. *)
Definition withIdleEvent : CalculatorState :=
  set_healthEvents defaultState (defaultHealthEvents ++ [idleEvent]).

(** ** The page [HomePage]: the input handlers

    The page keeps a [CalculatorState] and replaces it on every input
    event.  The text of an input box is turned into a number by the
    built-in [Number], which is taken as a parameter here. *)

(** The keys of the numeric fields of [CalculatorState], the values of the
    [field] argument of [handleNumberChange]. *)
Inductive NumberField :=
  | F_milkingCows | F_freshPerYear | F_replacementCost | F_salvageValue
  | F_milkPrice | F_lbMilkPerLbDM | F_dmCost | F_deathEvents | F_soldEvents.

(** [{...prev, [field]: v}]. *)
Definition set_field (prev : CalculatorState) (field : NumberField)
    (v : number) : CalculatorState :=
  {| milkingCows :=
       match field with F_milkingCows => v | _ => milkingCows prev end;
     freshPerYear :=
       match field with F_freshPerYear => v | _ => freshPerYear prev end;
     freshOverride := freshOverride prev;
     replacementCost :=
       match field with F_replacementCost => v | _ => replacementCost prev end;
     salvageValue :=
       match field with F_salvageValue => v | _ => salvageValue prev end;
     milkPrice :=
       match field with F_milkPrice => v | _ => milkPrice prev end;
     lbMilkPerLbDM :=
       match field with F_lbMilkPerLbDM => v | _ => lbMilkPerLbDM prev end;
     dmCost := match field with F_dmCost => v | _ => dmCost prev end;
     deathEvents :=
       match field with F_deathEvents => v | _ => deathEvents prev end;
     soldEvents :=
       match field with F_soldEvents => v | _ => soldEvents prev end;
     healthEvents := healthEvents prev |}.

Section Handlers.

(** The conversion [Number(raw)] of a text to a number. *)
Variable Number : string -> number.

Definition handleNumberChange (field : NumberField) (raw : string)
    (prev : CalculatorState) : CalculatorState :=
  let value := if String.eqb raw EmptyString then of_Z 0 else Number raw in
  set_field prev field (if isFinite value then value else of_Z 0).

Definition handleFreshChange (raw : string) (prev : CalculatorState)
  : CalculatorState :=
  let value := if String.eqb raw EmptyString then of_Z 0 else Number raw in
  {| milkingCows := milkingCows prev;
     freshPerYear := if isFinite value then value else of_Z 0;
     freshOverride := true;
     replacementCost := replacementCost prev;
     salvageValue := salvageValue prev;
     milkPrice := milkPrice prev; lbMilkPerLbDM := lbMilkPerLbDM prev;
     dmCost := dmCost prev; deathEvents := deathEvents prev;
     soldEvents := soldEvents prev; healthEvents := healthEvents prev |}.

Definition handleHealthChange (k : string) (raw : string)
    (prev : CalculatorState) : CalculatorState :=
  let value := if String.eqb raw EmptyString then of_Z 0 else Number raw in
  {| milkingCows := milkingCows prev; freshPerYear := freshPerYear prev;
     freshOverride := freshOverride prev;
     replacementCost := replacementCost prev;
     salvageValue := salvageValue prev;
     milkPrice := milkPrice prev; lbMilkPerLbDM := lbMilkPerLbDM prev;
     dmCost := dmCost prev; deathEvents := deathEvents prev;
     soldEvents := soldEvents prev;
     healthEvents :=
       map (fun ev =>
              if String.eqb (key ev) k
              then {| name := name ev; key := key ev;
                      count := if isFinite value then value else of_Z 0;
                      costPerEvent := costPerEvent ev |}
              else ev)
           (healthEvents prev) |}.

(** The number the three handlers store for the text [raw]. *)
Definition inputValue (raw : string) : number :=
  let value := if String.eqb raw EmptyString then of_Z 0 else Number raw in
  if isFinite value then value else of_Z 0.

End Handlers.

(** The button "Reset to 135% of milking cows". *)
Definition resetFresh (prev : CalculatorState) : CalculatorState :=
  {| milkingCows := milkingCows prev;
     freshPerYear := round (milkingCows prev * lit 135 100)%num;
     freshOverride := false;
     replacementCost := replacementCost prev;
     salvageValue := salvageValue prev;
     milkPrice := milkPrice prev; lbMilkPerLbDM := lbMilkPerLbDM prev;
     dmCost := dmCost prev; deathEvents := deathEvents prev;
     soldEvents := soldEvents prev; healthEvents := healthEvents prev |}.

(** The input events of the page that change the calculator state, and
    the state after a sequence of them. *)
Inductive Action :=
  | NumberChange (field : NumberField) (raw : string)
  | FreshChange (raw : string)
  | HealthChange (k : string) (raw : string)
  | ResetFresh.

Definition dispatch (Number : string -> number) (a : Action)
    (st : CalculatorState) : CalculatorState :=
  match a with
  | NumberChange field raw => handleNumberChange Number field raw st
  | FreshChange raw => handleFreshChange Number raw st
  | HealthChange k raw => handleHealthChange Number k raw st
  | ResetFresh => resetFresh st
  end.

Definition run (Number : string -> number) (acts : list Action)
    (st : CalculatorState) : CalculatorState :=
  fold_left (fun s a => dispatch Number a s) acts st.

(** The events that leave the stored fresh count and its override flag
    alone. *)
Definition leaves_fresh (a : Action) : bool :=
  match a with
  | NumberChange F_freshPerYear _ | FreshChange _ | ResetFresh => false
  | _ => true
  end.

(** The events other than an entry of the fresh count. *)
Definition not_fresh_entry (a : Action) : bool :=
  match a with
  | FreshChange _ => false
  | _ => true
  end.

(** The count stored for the event of key [k], if there is one. *)
Definition eventCount (k : string) (l : list HealthEventInput)
  : option number :=
  option_map count (find (fun ev => String.eqb (key ev) k) l).

(** What the page never changes in a health event. *)
Definition catalogEntry (ev : HealthEventInput) : string * string * number :=
  (name ev, key ev, costPerEvent ev).

(** Inputs the handlers can produce: every number is finite, but for the
    stored fresh count while it is not in use, which is not NaN. *)
Definition sane_inputs (st : CalculatorState) : bool :=
  isFinite (milkingCows st) && negb (isNaN (freshPerYear st))
  && implb (freshOverride st) (isFinite (freshPerYear st))
  && isFinite (replacementCost st) && isFinite (salvageValue st)
  && isFinite (milkPrice st) && isFinite (lbMilkPerLbDM st)
  && isFinite (dmCost st) && isFinite (deathEvents st)
  && isFinite (soldEvents st) && forallb finite_event (healthEvents st).

(** ** The page [HomePage]: what is shown *)

(** [Math.max] of two numbers and of a list of numbers: NaN if an argument
    is NaN, and [+0] is larger than [-0]; of no argument, [-Infinity]. *)
Definition Math_max2 (x y : number) : number :=
  if isNaN x || isNaN y then NaN
  else if ltb x y then y
  else if ltb y x then x
  else if is_zero x && sign_bit x then y
  else x.

Definition Math_max (l : list number) : number := fold_left Math_max2 l nInf.

Definition not_infinite (x : number) : bool :=
  match x with S754_infinity _ => false | _ => true end.

(** JavaScript's truth value of a [number | null]. *)
Definition truthy (x : option number) : bool :=
  match x with
  | Some v => negb (isNaN v) && negb (is_zero v)
  | None => false
  end.

Module HomePage.

Local Open Scope num_scope.

Definition scenario_eqb (a b : EfficacyScenario) : bool :=
  match a, b with
  | conservative, conservative | base, base | optimistic, optimistic => true
  | _, _ => false
  end.

Definition scenarios (state : CalculatorState) : list ScenarioResult :=
  map (fun s => computeScenario state s) [conservative; base; optimistic].

(** [scenarios.find((s) => s.scenario === selectedScenario)] *)
Definition activeScenario (state : CalculatorState)
    (selectedScenario : EfficacyScenario) : option ScenarioResult :=
  find (fun s => scenario_eqb (scenario s) selectedScenario)
       (scenarios state).

Definition fresh (state : CalculatorState) : number :=
  if freshOverride state
  then freshPerYear state
  else round (milkingCows state * lit 135 100).

(** The incidence column of the health table. *)
Definition incidence (state : CalculatorState) (ev : HealthEventInput)
  : number :=
  if gtb (fresh state) (of_Z 0)
  then (count ev / fresh state) * of_Z 100
  else of_Z 0.

(** The range input: its value, and the scenario its change selects. *)
Definition sliderValue (selectedScenario : EfficacyScenario) : number :=
  if scenario_eqb selectedScenario conservative then of_Z 0
  else if scenario_eqb selectedScenario base then of_Z 1
  else of_Z 2.

Definition sliderChange (v : number) : EfficacyScenario :=
  if v === of_Z 0 then conservative
  else if v === of_Z 1 then base
  else optimistic.

(** The bars of the scenario comparison. *)
Definition maxNet (scs : list ScenarioResult) : number :=
  Math_max (map (fun x => Math_max2 (of_Z 0) (netProfitAnnual x)) scs).

Definition maxRoi (scs : list ScenarioResult) : number :=
  Math_max (map (fun x => Math_max2 (of_Z 0) (roiRatio x)) scs).

Definition netWidth (scs : list ScenarioResult) (s : ScenarioResult)
  : number :=
  if gtb (maxNet scs) (of_Z 0)
  then (Math_max2 (of_Z 0) (netProfitAnnual s) / maxNet scs) * of_Z 100
  else of_Z 0.

Definition roiWidth (scs : list ScenarioResult) (s : ScenarioResult)
  : number :=
  if gtb (maxRoi scs) (of_Z 0)
  then (Math_max2 (of_Z 0) (roiRatio s) / maxRoi scs) * of_Z 100
  else of_Z 0.

End HomePage.

(** The options given to [toLocaleString]: US dollars without decimals,
    or a fixed number of decimals. *)
Inductive LocaleOptions :=
  | CurrencyUSD
  | FractionDigits (digits : Z).

Section Display.

(** [x.toLocaleString(undefined, options)], taken as a parameter. *)
Variable toLocaleString : number -> LocaleOptions -> string.

Definition formatCurrency (x : number) : string :=
  if negb (isFinite x) then "-"%string
  else toLocaleString x CurrencyUSD.

Definition formatNumber (x : number) (digits : Z) : string :=
  if negb (isFinite x) then "-"%string
  else toLocaleString x (FractionDigits digits).

(** The six figures of the summary, with their labels. *)
Definition summaryMetrics (activeScenario : ScenarioResult)
  : list (string * string) :=
  [ ("Annual net profit"%string,
     formatCurrency (netProfitAnnual activeScenario));
    ("Annual ROI (benefit : cost)"%string,
     (formatNumber (roiRatio activeScenario) 2 ++ " : 1")%string);
    ("Return / cow / year"%string,
     formatCurrency (returnPerCowYear activeScenario));
    ("Return / cow / day"%string,
     formatCurrency (returnPerCowDay activeScenario));
    ("Months to breakeven"%string,
     match monthsToBreakeven activeScenario with
     | Some v => if truthy (Some v) then formatNumber v 1 else "-"%string
     | None => "-"%string
     end);
    ("Days to breakeven"%string,
     match daysToBreakeven activeScenario with
     | Some v => if truthy (Some v) then formatNumber v 0 else "-"%string
     | None => "-"%string
     end) ].

End Display.
(** * Facts on the program *)

(** ** The model at work

    Decimal literals denote the nearest double, [Math.round] rounds ties
    upwards, and the reference inputs give the figures the calculator
    shows for them. *)

Section ModelChecks.

Local Open Scope num_scope.

(* 0.113 is 0x1.ced916872b021p-4 *)
Example literal_0_113 :
  DEATH_REDUCTION_BASE = S754_finite false 8142508126285857 (-56).
Proof. reflexivity. Qed.

(* 1.35 is 0x1.599999999999ap+0 *)
Example literal_1_35 : lit 135 100 = S754_finite false 6079859496950170 (-52).
Proof. reflexivity. Qed.

Example labor_hours : of_Z 660 * lit 1 10 = of_Z 66.
Proof. reflexivity. Qed.

Example round_half : round (lit 5 10) = of_Z 1.
Proof. reflexivity. Qed.

Example round_minus_half : round (lit (-5) 10) = nzero.
Proof. reflexivity. Qed.

Example round_five_halves : round (lit 25 10) = of_Z 3.
Proof. reflexivity. Qed.

Example round_minus_five_halves : round (lit (-25) 10) = of_Z (-2).
Proof. reflexivity. Qed.

(* 2789057.416666667, that is 5989455195624790 * 2^-31 *)
Example reference_savings_base :
  savingsAnnual (computeScenario defaultState base)
  = S754_finite false 5989455195624790 (-31).
Proof. vm_compute. reflexivity. Qed.

Example reference_net_profit_base :
  netProfitAnnual (computeScenario defaultState base)
  = savingsAnnual (computeScenario defaultState base) - of_Z 60960.
Proof. vm_compute. reflexivity. Qed.

End ModelChecks.

(** ** Elementary facts on numbers *)

Section NumFacts.

Local Open Scope num_scope.

Lemma add_NaN_l x : NaN + x = NaN.
Proof. reflexivity. Qed.

Lemma add_NaN_r x : x + NaN = NaN.
Proof. now destruct x. Qed.

Lemma sub_NaN_l x : NaN - x = NaN.
Proof. reflexivity. Qed.

Lemma sub_NaN_r x : x - NaN = NaN.
Proof. now destruct x. Qed.

Lemma mul_NaN_l x : NaN * x = NaN.
Proof. reflexivity. Qed.

Lemma mul_NaN_r x : x * NaN = NaN.
Proof. now destruct x. Qed.

Lemma div_NaN_l x : NaN / x = NaN.
Proof. reflexivity. Qed.

Lemma div_NaN_r x : x / NaN = NaN.
Proof. now destruct x. Qed.

Lemma isNaN_eq x : isNaN x = true <-> x = NaN.
Proof. destruct x; simpl; split; intros H; try discriminate; reflexivity. Qed.

(** [x > 0] fails exactly when [x <= 0] or [x] is NaN. *)
Lemma gtb_zero_false x :
  gtb x (of_Z 0) = false <-> leb x (of_Z 0) || isNaN x = true.
Proof.
  destruct x as [s|s| |s mx ex]; try destruct s; cbn; intuition congruence.
Qed.

Lemma breakeven_test s i :
  gtb s (of_Z 0) && gtb i (of_Z 0)
  = negb (leb s (of_Z 0) || isNaN s || (leb i (of_Z 0) || isNaN i)).
Proof.
  destruct s as [ss|ss| |ss ms es]; try destruct ss;
    destruct i as [si|si| |si mi ei]; try destruct si; reflexivity.
Qed.

Lemma leb_zero_not_NaN x : leb x (of_Z 0) = true -> isNaN x = false.
Proof. now destruct x. Qed.

End NumFacts.

Create Rewrite HintDb nan.
#[local] Hint Rewrite add_NaN_l add_NaN_r sub_NaN_l sub_NaN_r
  mul_NaN_l mul_NaN_r div_NaN_l div_NaN_r : nan.

(** ** The scenario constants *)

Section Constants.

Local Open Scope num_scope.

(** The complement [1 - base * mult] of a reduction is, in each scenario, a
    positive finite number. *)
Lemma death_complement_pos sc :
  pos_finite (of_Z 1 - Body.deathReduction sc).
Proof. destruct sc; vm_compute; eauto. Qed.

Lemma sold_complement_pos sc :
  pos_finite (of_Z 1 - Body.soldReduction sc).
Proof. destruct sc; vm_compute; eauto. Qed.

Lemma laborCostAnnual_value : Body.laborCostAnnual = of_Z 15840.
Proof. vm_compute. reflexivity. Qed.

Lemma applicatorInvestment_value : Body.applicatorInvestment = of_Z 120.
Proof. vm_compute. reflexivity. Qed.

End Constants.

(** ** Division by a zero herd or a zero fresh count *)

Section ZeroDenominator.

Local Open Scope num_scope.

(** A quotient by zero is NaN or an infinity. *)
Lemma div_zero_shape x y :
  is_zero y = true ->
  x / y = NaN \/ exists s, x / y = S754_infinity s.
Proof.
  destruct y; try discriminate. intros _.
  destruct x; cbn; eauto.
Qed.

(** The death-event chain of the source, on an incidence that is NaN or
    infinite: the guard [=== 0] fails and the ratio is NaN. *)
Lemma death_chain_poisoned d di c :
  pos_finite c ->
  (di = NaN \/ exists s, di = S754_infinity s) ->
  (if di === of_Z 0 then d else (d * (di * c)) / di) = NaN.
Proof.
  intros (mc & ec & ->) [-> | [s ->]].
  - cbn. now destruct d.
  - destruct d as [sd|sd| |sd md ed]; destruct s; reflexivity.
Qed.

Lemma deathSavings_no_cows st sc :
  is_zero (milkingCows st) = true -> Body.deathSavings st sc = NaN.
Proof.
  intros Hm.
  unfold Body.deathSavings, Body.deathEventsAvoided, Body.newDeathEvents,
    Body.newDeathIncidence, Body.deathIncidence, Body.m.
  rewrite death_chain_poisoned.
  - now autorewrite with nan.
  - apply death_complement_pos.
  - now apply div_zero_shape.
Qed.

(** The culling chain of the source, on a rate that is NaN or infinite. *)
Lemma culling_chain_poisoned r c :
  pos_finite c ->
  (r = NaN \/ exists s, r = S754_infinity s) ->
  r - r * c = NaN.
Proof.
  intros (mc & ec & ->) [-> | [s ->]]; [reflexivity|].
  now destruct s.
Qed.

Lemma cullingSavings_no_fresh st sc :
  is_zero (Body.fresh st) = true -> Body.cullingSavings st sc = NaN.
Proof.
  intros Hf.
  unfold Body.cullingSavings, Body.cullingVoluntaryDeltaRate,
    Body.newSoldRate, Body.soldRate.
  rewrite culling_chain_poisoned.
  - now autorewrite with nan.
  - apply sold_complement_pos.
  - now apply div_zero_shape.
Qed.

Lemma investment_no_cows st :
  is_zero (milkingCows st) = true -> Body.investmentAnnual st = of_Z 15960.
Proof.
  unfold Body.investmentAnnual, Body.productCostAnnual, Body.m.
  destruct (milkingCows st) as [s| | |]; try discriminate.
  intros _. now destruct s.
Qed.

End ZeroDenominator.

(** ** How a NaN term spreads through the aggregation *)

Section Aggregation.

Local Open Scope num_scope.

Lemma total_poisoned_by_death st sc :
  Body.deathSavings st sc = NaN -> Body.totalSavingsAnnual st sc = NaN.
Proof.
  intros H. unfold Body.totalSavingsAnnual. rewrite H.
  now autorewrite with nan.
Qed.

Lemma total_poisoned_by_culling st sc :
  Body.cullingSavings st sc = NaN -> Body.totalSavingsAnnual st sc = NaN.
Proof.
  intros H. unfold Body.totalSavingsAnnual. rewrite H.
  now autorewrite with nan.
Qed.

Lemma netProfit_poisoned st sc :
  Body.totalSavingsAnnual st sc = NaN -> Body.netProfitAnnual st sc = NaN.
Proof.
  intros H. unfold Body.netProfitAnnual. rewrite H.
  now autorewrite with nan.
Qed.

Lemma roiRatio_poisoned st sc :
  Body.totalSavingsAnnual st sc = NaN ->
  gtb (Body.investmentAnnual st) (of_Z 0) = true ->
  Body.roiRatio st sc = NaN.
Proof.
  intros H Hi. unfold Body.roiRatio. rewrite Hi, H.
  now autorewrite with nan.
Qed.

Lemma returnPerCow_poisoned st sc :
  Body.netProfitAnnual st sc = NaN ->
  Body.returnPerCowYear st sc = NaN
  /\ Body.returnPerCowMonth st sc = NaN
  /\ Body.returnPerCowDay st sc = NaN.
Proof.
  intros H.
  unfold Body.returnPerCowDay, Body.returnPerCowMonth, Body.returnPerCowYear.
  rewrite H. now autorewrite with nan.
Qed.

Lemma breakeven_poisoned st sc :
  Body.totalSavingsAnnual st sc = NaN -> Body.breakeven st sc = false.
Proof. intros H. unfold Body.breakeven. now rewrite H. Qed.

End Aggregation.

(** ** The zero guard of the death events *)

Section NoDeath.

Local Open Scope num_scope.

Lemma zero_div_is_zero d x :
  is_zero d = true -> is_zero x = false -> isNaN x = false ->
  is_zero (d / x) = true.
Proof. destruct d, x; cbn; intros; try discriminate; reflexivity. Qed.

Lemma is_zero_eqb x : is_zero x = true -> (x === of_Z 0) = true.
Proof. now destruct x. Qed.

Lemma zero_sub_self d : is_zero d = true -> d - d = zero.
Proof. destruct d as [[|]| | |]; try discriminate; reflexivity. Qed.

Lemma zero_mul_finite z x :
  is_zero z = true -> isFinite x = true -> is_zero (z * x) = true.
Proof. destruct z, x; cbn; intros; try discriminate; reflexivity. Qed.

Lemma same_number_zero_add z x : is_zero z = true -> same_number (z + x) x.
Proof.
  destruct z as [sz| | |]; try discriminate. intros _.
  destruct x as [sx| | |]; [right|left..]; try reflexivity.
  now destruct sz, sx.
Qed.

Lemma same_number_add_r x x' y :
  same_number x x' -> same_number (x + y) (x' + y).
Proof.
  intros [-> | [Hz Hz']]; [now left|].
  destruct x as [sx| | |]; try discriminate.
  destruct x' as [sx'| | |]; try discriminate.
  destruct y as [sy| | |]; [right|left..]; try reflexivity.
  now destruct sx, sx', sy.
Qed.

Lemma guard_taken st :
  is_zero (deathEvents st) = true ->
  is_zero (milkingCows st) = false ->
  isNaN (milkingCows st) = false ->
  (Body.deathIncidence st === of_Z 0) = true.
Proof.
  intros Hd Hm Hn. apply is_zero_eqb. now apply zero_div_is_zero.
Qed.

End NoDeath.

(** ** The health-savings sum *)

Section HealthOrder.

Local Open Scope num_scope.

(** The savings of one health event, the summand of the [reduce]. *)
Lemma healthSavings_fold st sc :
  Body.healthSavings st sc
  = fold_left
      (fun acc ev =>
         acc + count ev * (HEALTH_EVENT_REDUCTION_BASE * Body.mult sc)
               * costPerEvent ev)
      (healthEvents st) (of_Z 0).
Proof. reflexivity. Qed.

Lemma add_comm x y : x + y = y + x.
Proof.
  destruct x as [sx|sx| |sx mx ex], y as [sy|sy| |sy my ey];
    try reflexivity; try (now destruct sx, sy).
  unfold add, SFadd. now rewrite Z.min_comm, Z.add_comm.
Qed.

Lemma add_zero_l x : is_zero x = false -> of_Z 0 + x = x.
Proof. now destruct x. Qed.

Lemma add_zero_r x z : is_zero x = false -> is_zero z = true -> x + z = x.
Proof. destruct z; try discriminate. now destruct x. Qed.

(** The first two summands of a sum that starts from [0] commute. *)
Lemma add_first_two a b : of_Z 0 + a + b = of_Z 0 + b + a.
Proof.
  destruct (is_zero a) eqn:Ha, (is_zero b) eqn:Hb.
  - destruct a as [[|]| | |], b as [[|]| | |]; try discriminate;
      reflexivity.
  - rewrite (add_zero_l b), (add_zero_r b a) by trivial.
    destruct a as [sa| | |]; try discriminate.
    replace (of_Z 0 + S754_zero sa) with (of_Z 0) by now destruct sa.
    now apply add_zero_l.
  - rewrite (add_zero_l a), (add_zero_r a b) by trivial.
    destruct b as [sb| | |]; try discriminate.
    replace (of_Z 0 + S754_zero sb) with (of_Z 0) by now destruct sb.
    symmetry. now apply add_zero_l.
  - rewrite !add_zero_l by trivial. apply add_comm.
Qed.

(** [computeScenario] reads the health events through [healthSavings]
    only. *)
Lemma computeScenario_healthEvents st l sc :
  Body.healthSavings (set_healthEvents st l) sc = Body.healthSavings st sc ->
  computeScenario (set_healthEvents st l) sc = computeScenario st sc.
Proof.
  intros H.
  assert (Ht : Body.totalSavingsAnnual (set_healthEvents st l) sc
               = Body.totalSavingsAnnual st sc).
  { unfold Body.totalSavingsAnnual. now rewrite H. }
  unfold computeScenario, Body.monthsToBreakeven, Body.daysToBreakeven,
    Body.breakeven, Body.returnPerCowDay, Body.returnPerCowMonth,
    Body.returnPerCowYear, Body.roiRatio, Body.netProfitAnnual.
  now rewrite Ht.
Qed.

End HealthOrder.

(** * Rounding of the binary64 operations *)

(** ** Powers of two and binary digits *)

Section Digits.

(* ---------- powers of two ---------- *)
Lemma pow2_pos k : 0 <= k -> 0 < 2 ^ k.
Proof. intros. apply Z.pow_pos_nonneg; lia. Qed.

Lemma pow2_le a b : a <= b -> 0 <= a -> 2 ^ a <= 2 ^ b.
Proof. intros. apply Z.pow_le_mono_r; lia. Qed.

Lemma pow2_lt a b : a < b -> 0 <= a -> 2 ^ a < 2 ^ b.
Proof. intros. apply Z.pow_lt_mono_r; lia. Qed.

Lemma pow2_split a b : 0 <= a -> 0 <= b -> 2 ^ (a + b) = 2 ^ a * 2 ^ b.
Proof. intros. apply Z.pow_add_r; lia. Qed.

(* ---------- digits ---------- *)
Lemma Zdigits2_pos_bounds p :
  2 ^ (Zpos (digits2_pos p) - 1) <= Zpos p < 2 ^ Zpos (digits2_pos p).
Proof.
  induction p as [p IH|p IH|]; cbn [digits2_pos].
  - rewrite Pos2Z.inj_succ.
    replace (Z.succ (Zpos (digits2_pos p)) - 1) with (Z.succ (Zpos (digits2_pos p) - 1)) by lia.
    rewrite !Z.pow_succ_r by lia. lia.
  - rewrite Pos2Z.inj_succ.
    replace (Z.succ (Zpos (digits2_pos p)) - 1) with (Z.succ (Zpos (digits2_pos p) - 1)) by lia.
    rewrite !Z.pow_succ_r by lia. lia.
  - cbn. lia.
Qed.

Lemma Zdigits2_nonneg m : 0 <= Zdigits2 m.
Proof. destruct m; cbn; lia. Qed.

Lemma Zdigits2_bounds m :
  0 < m -> 2 ^ (Zdigits2 m - 1) <= m < 2 ^ Zdigits2 m.
Proof. destruct m; try lia. intros _. apply Zdigits2_pos_bounds. Qed.

Lemma Zdigits2_unique m d :
  2 ^ (d - 1) <= m < 2 ^ d -> 0 < m -> Zdigits2 m = d.
Proof.
  intros [Hl Hu] Hm. destruct (Zdigits2_bounds m Hm) as [Hl' Hu'].
  assert (Hd : 0 < Zdigits2 m) by (destruct m; cbn; lia).
  assert (0 < d).
  { destruct (Z_lt_le_dec 0 d); trivial.
    assert (2 ^ d <= 2 ^ 0) by (destruct (Z.eq_dec d 0) as [->|]; [lia|rewrite Z.pow_neg_r; cbn; lia]).
    cbn in *; lia. }
  destruct (Z_lt_le_dec (Zdigits2 m) d).
  - assert (2 ^ Zdigits2 m <= 2 ^ (d - 1)) by (apply pow2_le; lia). lia.
  - destruct (Z_lt_le_dec d (Zdigits2 m)); [|lia].
    assert (2 ^ d <= 2 ^ (Zdigits2 m - 1)) by (apply pow2_le; lia). lia.
Qed.

Lemma Zdigits2_mono a b : 0 <= a <= b -> Zdigits2 a <= Zdigits2 b.
Proof.
  intros [Ha Hab]. destruct (Z.eq_dec a 0) as [->|Hn].
  - apply Zdigits2_nonneg.
  - destruct (Zdigits2_bounds a) as [La Ua]; [lia|].
    destruct (Zdigits2_bounds b) as [Lb Ub]; [lia|].
    destruct (Z_lt_le_dec (Zdigits2 b) (Zdigits2 a)); [|lia].
    assert (2 ^ Zdigits2 b <= 2 ^ (Zdigits2 a - 1)).
    { apply pow2_le; [lia|apply Zdigits2_nonneg]. }
    lia.
Qed.

Lemma Zdigits2_shl m k :
  0 < m -> 0 <= k -> Zdigits2 (m * 2 ^ k) = Zdigits2 m + k.
Proof.
  intros Hm Hk. destruct (Zdigits2_bounds m Hm) as [L U].
  assert (Hd : 0 < Zdigits2 m) by (destruct m; cbn; lia).
  assert (P := pow2_pos k Hk).
  apply Zdigits2_unique; [|nia].
  replace (Zdigits2 m + k - 1) with ((Zdigits2 m - 1) + k) by lia.
  rewrite !pow2_split by lia. nia.
Qed.

(* floor of a bracketed quantity keeps the digits *)
Lemma Zdigits2_between m x k :
  0 < m -> 0 <= k -> m * 2 ^ k <= x < (m + 1) * 2 ^ k ->
  Zdigits2 x = Zdigits2 m + k.
Proof.
  intros Hm Hk [L U]. destruct (Zdigits2_bounds m Hm) as [Lm Um].
  assert (Hd : 0 < Zdigits2 m) by (destruct m; cbn; lia).
  assert (P := pow2_pos k Hk).
  apply Zdigits2_unique; [|nia].
  replace (Zdigits2 m + k - 1) with ((Zdigits2 m - 1) + k) by lia.
  rewrite !pow2_split by lia. nia.
Qed.

Lemma Zdigits2_shr m k :
  0 <= k -> 2 ^ k <= m -> Zdigits2 (m / 2 ^ k) = Zdigits2 m - k.
Proof.
  intros Hk Hm. assert (P := pow2_pos k Hk).
  assert (Hq : 0 < m / 2 ^ k) by (apply Z.div_str_pos; lia).
  assert (E := Z.div_mod m (2 ^ k) ltac:(lia)).
  assert (B := Z.mod_pos_bound m (2 ^ k) P).
  assert (Zdigits2 m = Zdigits2 (m / 2 ^ k) + k); [|lia].
  apply Zdigits2_between; trivial. nia.
Qed.

Lemma div_small_pow m k : 0 <= m -> m < 2 ^ k -> m / 2 ^ k = 0.
Proof. intros. apply Z.div_small. lia. Qed.

End Digits.

(** ** Right shifts with round and sticky bits *)

Section Shifts.

(* ---------- locations and shift records ---------- *)
Lemma shr_m_of_loc m l : shr_m (shr_record_of_loc m l) = m.
Proof. now destruct l as [|[]]. Qed.

Lemma loc_of_record_of_loc m l :
  loc_of_shr_record (shr_record_of_loc m l) = l.
Proof. now destruct l as [|[]]. Qed.

Lemma shr_1_nonneg m r s :
  0 <= m ->
  shr_1 (Build_shr_record m r s)
  = Build_shr_record (m / 2) (Z.odd m) (r || s).
Proof.
  intros Hm. destruct m as [|p|p]; [reflexivity| |lia].
  destruct p as [p|p|]; cbn [shr_1 Z.odd].
  - f_equal. apply Z.div_unique with 1; lia.
  - f_equal. apply Z.div_unique with 0; lia.
  - reflexivity.
Qed.

Lemma loc_of_bits D r :
  0 <= r < D ->
  shr_record_of_loc 0 (loc_of D r)
  = Build_shr_record 0 (negb (r =? 0) && (D <=? 2 * r))
                       (negb (r =? 0) && negb (2 * r =? D)).
Proof.
  intros H. unfold loc_of.
  destruct (Z.eqb_spec r 0); [reflexivity|].
  destruct (Z.compare_spec (2 * r) D), (Z.leb_spec D (2 * r)),
    (Z.eqb_spec (2 * r) D); try lia; reflexivity.
Qed.

Lemma record_of_loc_bits m D r :
  0 <= r < D ->
  shr_record_of_loc m (loc_of D r)
  = Build_shr_record m (negb (r =? 0) && (D <=? 2 * r))
                       (negb (r =? 0) && negb (2 * r =? D)).
Proof.
  intros H. unfold loc_of.
  destruct (Z.eqb_spec r 0); [reflexivity|].
  destruct (Z.compare_spec (2 * r) D), (Z.leb_spec D (2 * r)),
    (Z.eqb_spec (2 * r) D); try lia; reflexivity.
Qed.

Lemma shr_1_located N D :
  0 <= N -> 0 < D -> shr_1 (located N D) = located N (2 * D).
Proof.
  intros HN HD. unfold located.
  assert (Hq : 0 <= N / D) by (apply Z.div_pos; lia).
  assert (Hr := Z.mod_pos_bound N D HD).
  assert (Hr2 := Z.mod_pos_bound N (2 * D) ltac:(lia)).
  rewrite !record_of_loc_bits by trivial.
  rewrite shr_1_nonneg by trivial.
  assert (Ediv : N / (2 * D) = N / D / 2).
  { rewrite (Z.mul_comm 2 D), Z.div_div by lia. reflexivity. }
  assert (Emod : N mod (2 * D) = N mod D + D * (if Z.odd (N / D) then 1 else 0)).
  { rewrite (Z.mul_comm 2 D), Z.rem_mul_r by lia.
    rewrite Zmod_odd. reflexivity. }
  rewrite Ediv. f_equal.
  - rewrite Emod. destruct (Z.odd (N / D)).
    + destruct (Z.eqb_spec (N mod D + D * 1) 0); [lia|].
      destruct (Z.leb_spec (2 * D) (2 * (N mod D + D * 1))); [reflexivity|lia].
    + destruct (Z.eqb_spec (N mod D + D * 0) 0);
        destruct (Z.leb_spec (2 * D) (2 * (N mod D + D * 0)));
        try reflexivity; lia.
  - rewrite Emod. destruct (Z.odd (N / D)).
    + destruct (Z.eqb_spec (N mod D + D * 1) 0); [lia|].
      destruct (Z.eqb_spec (N mod D) 0),
        (Z.eqb_spec (2 * (N mod D + D * 1)) (2 * D)),
        (Z.leb_spec D (2 * (N mod D))), (Z.eqb_spec (2 * (N mod D)) D);
        try reflexivity; lia.
    + destruct (Z.eqb_spec (N mod D + D * 0) 0),
        (Z.eqb_spec (N mod D) 0),
        (Z.eqb_spec (2 * (N mod D + D * 0)) (2 * D)),
        (Z.leb_spec D (2 * (N mod D))), (Z.eqb_spec (2 * (N mod D)) D);
        try reflexivity; lia.
Qed.

Lemma iter_pos_located p : forall N D,
  0 <= N -> 0 < D ->
  iter_pos shr_1 p (located N D) = located N (D * 2 ^ Zpos p).
Proof.
  induction p as [p IH|p IH|]; intros N D HN HD; cbn [iter_pos].
  - assert (P := pow2_pos (Zpos p) ltac:(lia)).
    rewrite shr_1_located by trivial.
    rewrite IH by (trivial; lia).
    rewrite IH by (trivial; nia).
    f_equal.
    replace (Zpos p~1) with (1 + Zpos p + Zpos p) by lia.
    rewrite !pow2_split by lia. change (2 ^ 1) with 2. ring.
  - assert (P := pow2_pos (Zpos p) ltac:(lia)).
    rewrite IH by (trivial; lia).
    rewrite IH by (trivial; nia).
    f_equal.
    replace (Zpos p~0) with (Zpos p + Zpos p) by lia.
    rewrite !pow2_split by lia. ring.
  - rewrite shr_1_located by trivial. f_equal. change (2 ^ 1) with 2. ring.
Qed.

Lemma shr_located N D e n :
  0 <= N -> 0 < D ->
  shr (located N D) e n
  = (located N (D * 2 ^ Z.max 0 n), e + Z.max 0 n).
Proof.
  intros HN HD. destruct n as [|p|p]; cbn [shr].
  - cbn. now rewrite Z.mul_1_r, Z.add_0_r.
  - rewrite iter_pos_located by trivial.
    now replace (Z.max 0 (Zpos p)) with (Zpos p) by lia.
  - replace (Z.max 0 (Zneg p)) with 0 by lia.
    cbn. now rewrite Z.mul_1_r, Z.add_0_r.
Qed.

Lemma located_exact m : located m 1 = shr_record_of_loc m loc_Exact.
Proof.
  unfold located. rewrite Z.div_1_r, Z.mod_1_r. reflexivity.
Qed.

(* ---------- round to nearest, ties to even ---------- *)
Lemma rne_lower N D : N / D <= rne N D.
Proof.
  unfold rne, round_nearest_even.
  destruct (loc_of D (N mod D)) as [|[]]; try lia.
  destruct (Z.even (N / D)); lia.
Qed.

Lemma rne_upper N D : rne N D <= N / D + 1.
Proof.
  unfold rne, round_nearest_even.
  destruct (loc_of D (N mod D)) as [|[]]; try lia.
  destruct (Z.even (N / D)); lia.
Qed.

Lemma rne_exact N D : N mod D = 0 -> rne N D = N / D.
Proof. intros H. unfold rne, loc_of. now rewrite H. Qed.

Lemma rne_mul a D : 0 < D -> rne (a * D) D = a.
Proof.
  intros HD. rewrite rne_exact.
  - apply Z.div_mul; lia.
  - apply Z.mod_mul; lia.
Qed.

Lemma rne_mono N1 N2 D : 0 < D -> N1 <= N2 -> rne N1 D <= rne N2 D.
Proof.
  intros HD HN.
  assert (Hq : N1 / D <= N2 / D) by (apply Z.div_le_mono; lia).
  destruct (Z.eq_dec (N1 / D) (N2 / D)) as [E|NE].
  - assert (Hr : N1 mod D <= N2 mod D).
    { rewrite !Z.mod_eq by lia. rewrite E. lia. }
    assert (B1 := Z.mod_pos_bound N1 D HD).
    assert (B2 := Z.mod_pos_bound N2 D HD).
    unfold rne, round_nearest_even, loc_of. rewrite E.
    destruct (Z.eqb_spec (N1 mod D) 0), (Z.eqb_spec (N2 mod D) 0);
      try lia;
      try destruct (Z.compare_spec (2 * (N1 mod D)) D);
      try destruct (Z.compare_spec (2 * (N2 mod D)) D);
      try destruct (Z.even (N2 / D)); lia.
  - assert (U := rne_upper N1 D). assert (L := rne_lower N2 D). lia.
Qed.

Lemma rne_scale N D c : 0 < D -> 0 < c -> rne (N * c) (D * c) = rne N D.
Proof.
  intros HD Hc. unfold rne, loc_of.
  rewrite Z.div_mul_cancel_r, Z.mul_mod_distr_r by lia.
  destruct (Z.eqb_spec (N mod D * c) 0), (Z.eqb_spec (N mod D) 0);
    try nia; trivial.
  f_equal.
  destruct (Z.compare_spec (2 * (N mod D * c)) (D * c)),
    (Z.compare_spec (2 * (N mod D)) D); trivial; nia.
Qed.

Lemma rne_nonneg N D : 0 <= N -> 0 < D -> 0 <= rne N D.
Proof.
  intros. assert (L := rne_lower N D).
  assert (0 <= N / D) by (apply Z.div_pos; lia). lia.
Qed.

End Shifts.

(** ** The last step of a rounding *)

Section Finish.

Lemma emin_eq : emin = -1074.
Proof. reflexivity. Qed.

Lemma fexp_eq e : fexp e = Z.max (e - prec) emin.
Proof. reflexivity. Qed.

Lemma fexp_ge_emin e : emin <= fexp e.
Proof. rewrite fexp_eq. lia. Qed.

Lemma fexp_mono a b : a <= b -> fexp a <= fexp b.
Proof. rewrite !fexp_eq. lia. Qed.

Lemma cap_pos : 0 < cap.
Proof. unfold cap. apply pow2_pos. rewrite emin_eq. unfold emax. lia. Qed.

Lemma binary_round_aux_finish s mx ex lx :
  binary_round_aux prec emax s mx ex lx
  = finish s
      (round_nearest_even
         (shr_m (fst (shr_fexp prec emax mx ex lx)))
         (loc_of_shr_record (fst (shr_fexp prec emax mx ex lx))))
      (snd (shr_fexp prec emax mx ex lx)).
Proof.
  unfold binary_round_aux, finish.
  destruct (shr_fexp prec emax mx ex lx) as [mrs' e']. cbn [fst snd].
  destruct (shr_fexp prec emax _ e' loc_Exact) as [mrs'' e''].
  reflexivity.
Qed.

Lemma shr_fexp_located N D e :
  0 <= N -> 0 < D ->
  shr_fexp prec emax (N / D) e (loc_of D (N mod D))
  = (located N (D * 2 ^ Z.max 0 (fexp (Zdigits2 (N / D) + e) - e)),
     e + Z.max 0 (fexp (Zdigits2 (N / D) + e) - e)).
Proof.
  intros HN HD. unfold shr_fexp.
  change (shr_record_of_loc (N / D) (loc_of D (N mod D))) with (located N D).
  now rewrite shr_located.
Qed.

Lemma shr_fexp_exact m e :
  0 <= m ->
  shr_fexp prec emax m e loc_Exact
  = (located m (2 ^ Z.max 0 (fexp (Zdigits2 m + e) - e)),
     e + Z.max 0 (fexp (Zdigits2 m + e) - e)).
Proof.
  intros Hm. unfold shr_fexp. rewrite <- located_exact.
  rewrite shr_located by lia. now rewrite Z.mul_1_l.
Qed.

Lemma located_m N D : shr_m (located N D) = N / D.
Proof. unfold located. apply shr_m_of_loc. Qed.

(* the last step of a rounding: renormalise and classify *)
Lemma finish_spec s m t :
  0 <= m <= 2 ^ prec -> emin <= t -> (t = emin \/ 2 ^ (prec - 1) <= m) ->
  wf (finish s m t) = true
  /\ isNaN (finish s m t) = false
  /\ sign_bit (finish s m t) = s
  /\ ord (finish s m t) = cond_Zopp s (Z.min (m * 2 ^ (t - emin)) cap).
Proof.
  intros [Hm0 Hm] Ht Hn.
  assert (Hcap := cap_pos).
  unfold finish. rewrite shr_fexp_exact by trivial.
  rewrite located_m.
  destruct (Z.eq_dec m 0) as [->|Hnz].
  { (* zero *)
    rewrite Z.div_0_l by (assert (P := pow2_pos (Z.max 0 (fexp (Zdigits2 0 + t) - t)) ltac:(lia)); lia).
    cbn [classify wf valid_binary isNaN sign_bit ord].
    repeat split. rewrite Z.mul_0_l, Z.min_l by lia. now destruct s. }
  destruct (Z.eq_dec m (2 ^ prec)) as [->|Hlt].
  { (* carry into the next binade *)
    assert (Hd : Zdigits2 (2 ^ prec) = prec + 1) by reflexivity.
    rewrite Hd, fexp_eq.
    replace (Z.max 0 (Z.max (prec + 1 + t - prec) emin - t)) with 1 by lia.
    change (2 ^ prec / 2 ^ 1) with (Zpos (Z.to_pos (2 ^ (prec - 1)))).
    cbn [classify].
    destruct (Z.leb_spec (t + 1) (emax - prec)) as [Hb|Hb].
    - cbn [wf valid_binary isNaN sign_bit ord]. repeat split.
      + unfold bounded, canonical_mantissa.
        change (Zpos (digits2_pos (Z.to_pos (2 ^ (prec - 1))))) with prec.
        apply andb_true_iff. split; [|now apply Z.leb_le].
        apply Z.eqb_eq. change (SpecFloat.fexp prec emax) with fexp.
        rewrite fexp_eq. lia.
      + f_equal. change (Zpos (Z.to_pos (2 ^ (prec - 1)))) with (2 ^ (prec - 1)).
        replace (t + 1 - emin) with (1 + (t - emin)) by lia.
        rewrite pow2_split by lia.
        assert (P := pow2_pos (t - emin) ltac:(lia)).
        assert (2 ^ prec * 2 ^ (t - emin) < cap).
        { unfold cap. rewrite <- pow2_split by (unfold prec; lia).
          apply pow2_lt; unfold prec, emax in *; lia. }
        rewrite Z.min_l by lia.
        change (2 ^ prec) with (2 ^ (prec - 1) * 2 ^ 1). ring.
    - cbn [wf valid_binary isNaN sign_bit ord]. repeat split.
      f_equal. rewrite Z.min_r; trivial.
      unfold cap. rewrite <- pow2_split by (unfold prec; lia).
      apply pow2_le; unfold prec, emax in *; rewrite ?emin_eq in *; lia. }
  (* no carry *)
  assert (Hd1 : 0 < Zdigits2 m) by (destruct m; cbn; lia).
  assert (Hd := Zdigits2_bounds m ltac:(lia)).
  assert (Hd53 : Zdigits2 m <= prec).
  { destruct (Z_lt_le_dec prec (Zdigits2 m)); [|lia].
    assert (2 ^ prec <= 2 ^ (Zdigits2 m - 1)) by (apply pow2_le; unfold prec in *; lia).
    lia. }
  assert (Hcanon : fexp (Zdigits2 m + t) = t).
  { rewrite fexp_eq. destruct Hn as [->|Hn]; [lia|].
    assert (prec <= Zdigits2 m); [|lia].
    destruct (Z_lt_le_dec (Zdigits2 m) prec); [|lia].
    assert (2 ^ Zdigits2 m <= 2 ^ (prec - 1)) by (apply pow2_le; lia).
    lia. }
  rewrite Hcanon. replace (Z.max 0 (t - t)) with 0 by lia.
  rewrite Z.pow_0_r, Z.div_1_r, Z.add_0_r.
  destruct m as [|p|p]; try lia. cbn [classify].
  assert (P := pow2_pos (t - emin) ltac:(lia)).
  destruct (Z.leb_spec t (emax - prec)) as [Hb|Hb].
  - cbn [wf valid_binary isNaN sign_bit ord]. repeat split.
    + unfold bounded, canonical_mantissa.
      apply andb_true_iff. split; [|now apply Z.leb_le].
      apply Z.eqb_eq. exact Hcanon.
    + f_equal. rewrite Z.min_l; trivial.
      assert (Zpos p * 2 ^ (t - emin) < 2 ^ prec * 2 ^ (t - emin)) by nia.
      assert (2 ^ prec * 2 ^ (t - emin) <= cap); [|lia].
      unfold cap. rewrite <- pow2_split by (unfold prec; lia).
      apply pow2_le; unfold prec, emax in *; lia.
  - cbn [wf valid_binary isNaN sign_bit ord]. repeat split.
    f_equal. rewrite Z.min_r; trivial.
    destruct Hn as [->|Hn]; [rewrite emin_eq in Hb; unfold emax, prec in Hb; lia|].
    assert (2 ^ (prec - 1) * 2 ^ (t - emin) <= Zpos p * 2 ^ (t - emin)) by nia.
    assert (cap <= 2 ^ (prec - 1) * 2 ^ (t - emin)); [|lia].
    unfold cap. rewrite <- pow2_split by (unfold prec; lia).
    apply pow2_le; unfold prec, emax in *; rewrite ?emin_eq in *; lia.
Qed.

End Finish.

(** ** What [binary_round_aux] computes *)

Section RoundAux.

Lemma rne_located N D :
  round_nearest_even (shr_m (located N D)) (loc_of_shr_record (located N D))
  = rne N D.
Proof.
  unfold located. now rewrite shr_m_of_loc, loc_of_record_of_loc.
Qed.

Lemma bra_spec s N D ex :
  0 <= N -> 0 < D ->
  ex <= fexp (Zdigits2 (N / D) + ex) ->
  let t := fexp (Zdigits2 (N / D) + ex) in
  let r := binary_round_aux prec emax s (N / D) ex (loc_of D (N mod D)) in
  wf r = true /\ isNaN r = false /\ sign_bit r = s
  /\ ord r = cond_Zopp s (Z.min (rne N (D * 2 ^ (t - ex)) * 2 ^ (t - emin)) cap).
Proof.
  intros HN HD Hpre t r. subst r.
  rewrite binary_round_aux_finish, shr_fexp_located by trivial.
  cbn [fst snd]. fold t.
  replace (Z.max 0 (t - ex)) with (t - ex) by lia.
  replace (ex + (t - ex)) with t by lia.
  rewrite rne_located.
  assert (P := pow2_pos (t - ex) ltac:(lia)).
  assert (HD' : 0 < D * 2 ^ (t - ex)) by nia.
  assert (Ht := fexp_ge_emin (Zdigits2 (N / D) + ex)). fold t in Ht.
  assert (Hq : 0 <= N / D) by (apply Z.div_pos; lia).
  assert (Hm1 : N / (D * 2 ^ (t - ex)) = N / D / 2 ^ (t - ex))
    by (rewrite Z.div_div by lia; reflexivity).
  assert (L := rne_lower N (D * 2 ^ (t - ex))).
  assert (U := rne_upper N (D * 2 ^ (t - ex))).
  rewrite Hm1 in L, U.
  apply finish_spec; trivial.
  - split; [now apply rne_nonneg|].
    destruct (Z.eq_dec (N / D) 0) as [E0|Hnz].
    { rewrite E0, Z.div_0_l in U by lia. unfold prec. lia. }
    assert (B := Zdigits2_bounds (N / D) ltac:(lia)).
    assert (Hd : Zdigits2 (N / D) <= prec + (t - ex)).
    { unfold t at 1. rewrite fexp_eq. unfold t in Hpre. rewrite fexp_eq in Hpre.
      destruct (Z.max_spec (Zdigits2 (N / D) + ex - prec) emin) as [[? E]|[? E]];
        rewrite E in *; lia. }
    assert (N / D / 2 ^ (t - ex) < 2 ^ prec); [|lia].
    apply Z.div_lt_upper_bound; [lia|].
    rewrite <- pow2_split by (unfold prec; lia).
    assert (2 ^ Zdigits2 (N / D) <= 2 ^ (t - ex + prec)); [|lia].
    apply pow2_le; [lia|apply Zdigits2_nonneg].
  - destruct (Z.eq_dec t emin) as [E|NE]; [now left|right].
    assert (Et : t = Zdigits2 (N / D) + ex - prec).
    { unfold t in *. rewrite fexp_eq in *. lia. }
    assert (Hnz : 0 < N / D).
    { destruct (Z.eq_dec (N / D) 0) as [E0|]; [|lia].
      rewrite E0 in Et. cbn in Et. unfold prec in *. lia. }
    assert (B := Zdigits2_bounds (N / D) Hnz).
    assert (2 ^ (prec - 1) <= N / D / 2 ^ (t - ex)); [|lia].
    apply Z.div_le_lower_bound; [lia|].
    rewrite <- pow2_split by (unfold prec; lia).
    replace (t - ex + (prec - 1)) with (Zdigits2 (N / D) - 1) by lia. lia.
Qed.

Lemma rshift_nonneg N D : 0 <= rshift N D.
Proof. unfold rshift. lia. Qed.

Lemma Rpos_scale N D c :
  0 < D -> 0 < c -> Rpos (N * c) (D * c) = Rpos N D.
Proof.
  intros HD Hc. unfold Rpos, rshift.
  rewrite Z.div_mul_cancel_r by lia.
  set (n := Z.max 0 (Zdigits2 (N / D) - prec)).
  assert (P := pow2_pos n ltac:(lia)).
  replace (D * c * 2 ^ n) with (D * 2 ^ n * c) by ring.
  rewrite rne_scale by nia. reflexivity.
Qed.

Lemma Rpos_pow2_ratio A B n1 d1 n2 d2 :
  0 < B -> 0 <= n1 -> 0 <= d1 -> 0 <= n2 -> 0 <= d2 ->
  n1 + d2 = n2 + d1 ->
  Rpos (A * 2 ^ n1) (B * 2 ^ d1) = Rpos (A * 2 ^ n2) (B * 2 ^ d2).
Proof.
  intros HB H1 H2 H3 H4 E.
  assert (P1 := pow2_pos d1 H2). assert (P2 := pow2_pos d2 H4).
  rewrite <- (Rpos_scale (A * 2 ^ n1) (B * 2 ^ d1) (2 ^ d2)) by nia.
  rewrite <- (Rpos_scale (A * 2 ^ n2) (B * 2 ^ d2) (2 ^ d1)) by nia.
  rewrite <- !Z.mul_assoc, <- !pow2_split by lia.
  rewrite E. now rewrite (Z.add_comm d1 d2).
Qed.

Lemma Rpos_0 D : 0 < D -> Rpos 0 D = 0.
Proof.
  intros HD. unfold Rpos, rshift. rewrite Z.div_0_l by lia. cbn [Zdigits2].
  replace (Z.max 0 (0 - prec)) with 0 by (unfold prec; lia).
  rewrite Z.pow_0_r, !Z.mul_1_r. unfold rne. rewrite Z.div_0_l, Z.mod_0_l by lia.
  cbn. assert (H := cap_pos). lia.
Qed.

Lemma Rpos_nonneg N D : 0 <= N -> 0 < D -> 0 <= Rpos N D.
Proof.
  intros HN HD. unfold Rpos.
  assert (P := pow2_pos (rshift N D) (rshift_nonneg N D)).
  assert (0 <= rne N (D * 2 ^ rshift N D)) by (apply rne_nonneg; nia).
  assert (H' := cap_pos). apply Z.min_glb; nia.
Qed.

(* the rounded value in terms of the value scaled by 2^-emin *)
Lemma bra_ord s N D ex :
  0 <= N -> 0 < D ->
  ex <= fexp (Zdigits2 (N / D) + ex) ->
  let r := binary_round_aux prec emax s (N / D) ex (loc_of D (N mod D)) in
  wf r = true /\ isNaN r = false /\ sign_bit r = s
  /\ ord r = cond_Zopp s (Rpos (N * 2 ^ Z.max 0 (ex - emin))
                               (D * 2 ^ Z.max 0 (emin - ex))).
Proof.
  intros HN HD Hpre r.
  destruct (bra_spec s N D ex HN HD Hpre) as (Hwf & Hnan & Hs & Ho).
  fold r in Hwf, Hnan, Hs, Ho. repeat split; trivial.
  rewrite Ho. f_equal. clear Ho Hwf Hnan Hs r.
  remember (fexp (Zdigits2 (N / D) + ex)) as t eqn:Et.
  rewrite fexp_eq in Et.
  remember (Z.max 0 (ex - emin)) as a eqn:Ea.
  remember (Z.max 0 (emin - ex)) as b eqn:Eb.
  assert (Ht : emin <= t) by lia.
  assert (Pa := pow2_pos a ltac:(lia)). assert (Pb := pow2_pos b ltac:(lia)).
  assert (Hq : 0 <= N / D) by (apply Z.div_pos; lia).
  assert (Hsh : rshift (N * 2 ^ a) (D * 2 ^ b) = t - emin).
  { unfold rshift.
    destruct (Z_le_gt_dec emin ex) as [Hle|Hgt].
    - (* the value is scaled up *)
      replace b with 0 by lia. rewrite Z.pow_0_r, Z.mul_1_r.
      destruct (Z.eq_dec (N / D) 0) as [E0|Hnz].
      + rewrite E0 in *. cbn [Zdigits2] in *. unfold prec in *.
        replace a with 0 by lia. rewrite Z.pow_0_r, Z.mul_1_r, E0.
        cbn [Zdigits2]. lia.
      + assert (E := Z.div_mod N D ltac:(lia)).
        assert (Bm := Z.mod_pos_bound N D HD).
        rewrite (Zdigits2_between (N / D) _ a); try lia.
        split.
        * apply Z.div_le_lower_bound; nia.
        * apply Z.div_lt_upper_bound; nia.
    - (* the value is scaled down *)
      replace a with 0 by lia. rewrite Z.pow_0_r, Z.mul_1_r.
      rewrite <- Z.div_div by lia.
      destruct (Z_lt_le_dec (N / D) (2 ^ b)) as [Hsm|Hbig].
      + rewrite Z.div_small by lia. cbn [Zdigits2].
        assert (Zdigits2 (N / D) <= b).
        { destruct (Z.eq_dec (N / D) 0) as [E0|]; [rewrite E0; cbn; lia|].
          assert (B := Zdigits2_bounds (N / D) ltac:(lia)).
          destruct (Z_lt_le_dec b (Zdigits2 (N / D))); [|lia].
          assert (2 ^ b <= 2 ^ (Zdigits2 (N / D) - 1)) by (apply pow2_le; lia).
          lia. }
        unfold prec in *. lia.
      + rewrite Zdigits2_shr by lia. lia. }
  unfold Rpos. rewrite Hsh. f_equal. f_equal.
  destruct (Z_le_gt_dec emin ex) as [Hle|Hgt].
  - replace b with 0 by lia. rewrite Z.pow_0_r, Z.mul_1_r.
    replace (t - emin) with ((t - ex) + a) by lia.
    rewrite pow2_split, Z.mul_assoc by lia.
    assert (P := pow2_pos (t - ex) ltac:(lia)).
    rewrite rne_scale by nia. reflexivity.
  - replace a with 0 by lia. rewrite Z.pow_0_r, Z.mul_1_r.
    rewrite <- Z.mul_assoc, <- pow2_split by lia.
    now replace (b + (t - emin)) with (t - ex) by lia.
Qed.

End RoundAux.

(** ** Rounding an exact mantissa; multiplication *)

Section ExactInputs.

Lemma unit_scale_pos : 0 < unit_scale.
Proof. apply pow2_pos. rewrite emin_eq. lia. Qed.

(* ---------- well-formed finite numbers ---------- *)
Lemma wf_finite_inv s m e :
  wf (S754_finite s m e) = true ->
  fexp (Zdigits2 (Zpos m) + e) = e /\ e <= emax - prec.
Proof.
  unfold wf, valid_binary, bounded, canonical_mantissa.
  intros H. apply andb_true_iff in H. destruct H as [H1 H2].
  apply Z.eqb_eq in H1. apply Z.leb_le in H2. now split.
Qed.

Lemma wf_finite_bounds s m e :
  wf (S754_finite s m e) = true ->
  emin <= e <= emax - prec
  /\ Zdigits2 (Zpos m) <= prec
  /\ (emin < e -> Zdigits2 (Zpos m) = prec).
Proof.
  intros H. destruct (wf_finite_inv _ _ _ H) as [Hc Hb].
  rewrite fexp_eq in Hc. lia.
Qed.

Lemma ord_finite_pos m e : emin <= e -> 0 < Zpos m * 2 ^ (e - emin).
Proof. intros. assert (P := pow2_pos (e - emin) ltac:(lia)). nia. Qed.

Lemma ord_finite_lt_cap s m e :
  wf (S754_finite s m e) = true -> Zpos m * 2 ^ (e - emin) < cap.
Proof.
  intros H. destruct (wf_finite_bounds _ _ _ H) as (He & Hd & _).
  assert (B := Zdigits2_bounds (Zpos m) ltac:(lia)).
  assert (P := pow2_pos (e - emin) ltac:(lia)).
  assert (2 ^ Zdigits2 (Zpos m) <= 2 ^ prec)
    by (apply pow2_le; [lia|apply Zdigits2_nonneg]).
  assert (2 ^ prec * 2 ^ (e - emin) <= cap).
  { unfold cap. rewrite <- pow2_split by (unfold prec; lia).
    apply pow2_le; unfold prec in *; lia. }
  nia.
Qed.

(* ---------- alignment ---------- *)
Lemma iter_xO m d : Zpos (Pos.iter xO m d) = Zpos m * 2 ^ Zpos d.
Proof.
  induction d as [|d IH] using Pos.peano_ind.
  - cbn. lia.
  - rewrite Pos.iter_succ, Pos2Z.inj_xO, IH, Pos2Z.inj_succ.
    rewrite Z.pow_succ_r by lia. ring.
Qed.

Lemma shl_align_spec m e e' :
  snd (shl_align m e e') = Z.min e e'
  /\ Zpos (fst (shl_align m e e')) = Zpos m * 2 ^ (e - Z.min e e').
Proof.
  unfold shl_align. destruct (e' - e) as [|d|d] eqn:E; cbn [fst snd].
  - replace (Z.min e e') with e by lia. rewrite Z.sub_diag. cbn. lia.
  - replace (Z.min e e') with e by lia. rewrite Z.sub_diag. cbn. lia.
  - replace (Z.min e e') with e' by lia. rewrite iter_xO.
    now replace (e - e') with (Zpos d) by lia.
Qed.

(* ---------- exact inputs ---------- *)
Lemma bra_ord_exact s N ex :
  0 <= N -> ex <= fexp (Zdigits2 N + ex) ->
  let r := binary_round_aux prec emax s N ex loc_Exact in
  wf r = true /\ isNaN r = false /\ sign_bit r = s
  /\ ord r = cond_Zopp s (Rpos (N * 2 ^ Z.max 0 (ex - emin))
                               (2 ^ Z.max 0 (emin - ex))).
Proof.
  intros HN Hpre.
  assert (H := bra_ord s N 1 ex HN ltac:(lia)).
  rewrite Z.div_1_r, Z.mod_1_r, Z.mul_1_l in H.
  now apply H.
Qed.

Lemma binary_round_spec s m e :
  let r := binary_round prec emax s m e in
  wf r = true /\ isNaN r = false /\ sign_bit r = s
  /\ ord r = cond_Zopp s (Rpos (Zpos m * 2 ^ Z.max 0 (e - emin))
                               (2 ^ Z.max 0 (emin - e))).
Proof.
  unfold binary_round.
  change (SpecFloat.fexp prec emax) with fexp.
  change (Zpos (digits2_pos m)) with (Zdigits2 (Zpos m)).
  remember (fexp (Zdigits2 (Zpos m) + e)) as t eqn:Et.
  destruct (shl_align_spec m e t) as [He Hm].
  destruct (shl_align m e t) as [mz ez]. cbn [fst snd] in He, Hm.
  assert (Ht : emin <= t) by (subst t; apply fexp_ge_emin).
  assert (Hd : Zdigits2 (Zpos mz) + ez = Zdigits2 (Zpos m) + e).
  { rewrite Hm, Zdigits2_shl by lia. lia. }
  destruct (bra_ord_exact s (Zpos mz) ez) as (Hwf & Hnan & Hs & Ho);
    [lia|rewrite Hd, <- Et; lia|].
  cbn zeta. repeat split; trivial.
  rewrite Ho. f_equal. rewrite Hm, <- Z.mul_assoc, <- pow2_split by lia.
  rewrite <- (Z.mul_1_l (2 ^ Z.max 0 (emin - ez))).
  rewrite <- (Z.mul_1_l (2 ^ Z.max 0 (emin - e))).
  apply Rpos_pow2_ratio; lia.
Qed.

(* ---------- signed rounding ---------- *)
Lemma R_cond_Zopp s K D :
  0 <= K -> 0 < D -> R (cond_Zopp s K) D = cond_Zopp s (Rpos K D).
Proof.
  intros HK HD. unfold R.
  destruct (Z.eq_dec K 0) as [->|Hnz].
  - rewrite Rpos_0 by trivial. destruct s; cbn; now rewrite ?Rpos_0.
  - destruct s; cbn [cond_Zopp].
    + destruct (Z.ltb_spec (- K) 0); [|lia]. now rewrite Z.opp_involutive.
    + destruct (Z.ltb_spec K 0); [lia|reflexivity].
Qed.

Lemma cond_Zopp_mul s1 s2 a b :
  cond_Zopp s1 a * cond_Zopp s2 b = cond_Zopp (xorb s1 s2) (a * b).
Proof. destruct s1, s2; cbn; ring. Qed.

(* ---------- multiplication ---------- *)
Lemma mul_finite_ord sx mx ex sy my ey :
  wf (S754_finite sx mx ex) = true -> wf (S754_finite sy my ey) = true ->
  let r := mul (S754_finite sx mx ex) (S754_finite sy my ey) in
  wf r = true /\ isNaN r = false /\ sign_bit r = xorb sx sy
  /\ ord r = R (ord (S754_finite sx mx ex) * ord (S754_finite sy my ey))
               unit_scale.
Proof.
  intros Hx Hy.
  destruct (wf_finite_bounds _ _ _ Hx) as (Hex & Hdx & Hnx).
  destruct (wf_finite_bounds _ _ _ Hy) as (Hey & Hdy & Hny).
  assert (Bx := Zdigits2_bounds (Zpos mx) ltac:(lia)).
  assert (By := Zdigits2_bounds (Zpos my) ltac:(lia)).
  assert (Hdx1 : 0 < Zdigits2 (Zpos mx)) by (cbn; lia).
  assert (Hdy1 : 0 < Zdigits2 (Zpos my)) by (cbn; lia).
  assert (Hd : Zdigits2 (Zpos mx) + Zdigits2 (Zpos my) - 1
               <= Zdigits2 (Zpos (mx * my))).
  { destruct (Z_lt_le_dec (Zdigits2 (Zpos (mx * my)))
                (Zdigits2 (Zpos mx) + Zdigits2 (Zpos my) - 1)); [|lia].
    assert (B := Zdigits2_bounds (Zpos (mx * my)) ltac:(lia)).
    assert (2 ^ Zdigits2 (Zpos (mx * my))
            <= 2 ^ ((Zdigits2 (Zpos mx) - 1) + (Zdigits2 (Zpos my) - 1))).
    { apply pow2_le; [lia|apply Zdigits2_nonneg]. }
    rewrite pow2_split in H by lia.
    assert (E := Pos2Z.inj_mul mx my).
    assert (P1 := pow2_pos (Zdigits2 (Zpos mx) - 1) ltac:(lia)).
    assert (P2 := pow2_pos (Zdigits2 (Zpos my) - 1) ltac:(lia)).
    assert (2 ^ (Zdigits2 (Zpos mx) - 1) * 2 ^ (Zdigits2 (Zpos my) - 1)
            <= Zpos mx * Zpos my) by (apply Z.mul_le_mono_nonneg; lia).
    lia. }
  destruct (bra_ord_exact (xorb sx sy) (Zpos (mx * my)) (ex + ey))
    as (Hwf & Hnan & Hs & Ho); [lia| |].
  { rewrite fexp_eq. assert (E := emin_eq). unfold prec in *. lia. }
  cbn zeta. unfold mul, SFmul. repeat split; trivial.
  rewrite Ho. cbn [ord]. rewrite cond_Zopp_mul.
  assert (Px := ord_finite_pos mx ex ltac:(lia)).
  assert (Py := ord_finite_pos my ey ltac:(lia)).
  rewrite R_cond_Zopp by (try apply unit_scale_pos; nia).
  f_equal. unfold unit_scale.
  replace (Zpos mx * 2 ^ (ex - emin) * (Zpos my * 2 ^ (ey - emin)))
    with (Zpos (mx * my) * 2 ^ ((ex - emin) + (ey - emin)))
    by (rewrite pow2_split, Pos2Z.inj_mul by lia; ring).
  rewrite <- (Z.mul_1_l (2 ^ Z.max 0 (emin - (ex + ey)))).
  rewrite <- (Z.mul_1_l (2 ^ (- emin))).
  apply Rpos_pow2_ratio; rewrite ?emin_eq in *; lia.
Qed.

End ExactInputs.

(** ** The rounding is monotone; the order of numbers *)

Section RoundOrder.

(* ---------- properties of the rounding function ---------- *)
Lemma Rpos_pos N D : 0 < D -> D <= N -> 0 < Rpos N D.
Proof.
  intros HD HN. unfold Rpos.
  assert (Hq : 0 < N / D) by (apply Z.div_str_pos; lia).
  remember (rshift N D) as n eqn:En. unfold rshift in En.
  assert (P := pow2_pos n ltac:(lia)).
  assert (L := rne_lower N (D * 2 ^ n)).
  rewrite <- Z.div_div in L by lia.
  assert (0 < N / D / 2 ^ n).
  { apply Z.div_str_pos. split; [lia|].
    destruct (Z_le_gt_dec (Zdigits2 (N / D)) prec).
    - replace n with 0 by lia. cbn. lia.
    - assert (B := Zdigits2_bounds (N / D) Hq).
      assert (2 ^ n <= 2 ^ (Zdigits2 (N / D) - 1)); [|lia].
      apply pow2_le; unfold prec in *; lia. }
  assert (Hc := cap_pos). apply Z.min_glb_lt; nia.
Qed.

Lemma Rpos_mono N1 N2 D :
  0 < D -> 0 <= N1 <= N2 -> Rpos N1 D <= Rpos N2 D.
Proof.
  intros HD [H1 H12]. unfold Rpos.
  apply Z.min_le_compat_r.
  assert (Hq1 : 0 <= N1 / D) by (apply Z.div_pos; lia).
  assert (Hq : N1 / D <= N2 / D) by (apply Z.div_le_mono; lia).
  assert (Hdg := Zdigits2_mono (N1 / D) (N2 / D) ltac:(lia)).
  remember (rshift N1 D) as n1 eqn:E1. remember (rshift N2 D) as n2 eqn:E2.
  unfold rshift in E1, E2.
  assert (P1 := pow2_pos n1 ltac:(lia)). assert (P2 := pow2_pos n2 ltac:(lia)).
  destruct (Z.eq_dec n1 n2) as [<-|NE].
  - apply Z.mul_le_mono_nonneg_r; [lia|]. apply rne_mono; nia.
  - assert (Hlt : n1 < n2) by lia.
    assert (Hq2 : 0 < N2 / D).
    { destruct (Z.eq_dec (N2 / D) 0) as [E0|]; [|lia].
      rewrite E0 in E2. cbn in E2. unfold prec in *. lia. }
    assert (B2 := Zdigits2_bounds (N2 / D) Hq2).
    (* the larger value is at least 2^(prec-1+n2) *)
    assert (L2 := rne_lower N2 (D * 2 ^ n2)).
    rewrite <- Z.div_div in L2 by lia.
    assert (2 ^ (prec - 1) <= N2 / D / 2 ^ n2).
    { apply Z.div_le_lower_bound; [lia|].
      rewrite <- pow2_split by (unfold prec; lia).
      replace (n2 + (prec - 1)) with (Zdigits2 (N2 / D) - 1) by lia. lia. }
    (* the smaller value is at most 2^(prec+n1) *)
    assert (U1 := rne_upper N1 (D * 2 ^ n1)).
    rewrite <- Z.div_div in U1 by lia.
    assert (N1 / D / 2 ^ n1 < 2 ^ prec).
    { apply Z.div_lt_upper_bound; [lia|].
      rewrite <- pow2_split by (unfold prec; lia).
      destruct (Z.eq_dec (N1 / D) 0) as [E0|].
      - rewrite E0. apply pow2_pos. unfold prec. lia.
      - assert (B1 := Zdigits2_bounds (N1 / D) ltac:(lia)).
        assert (2 ^ Zdigits2 (N1 / D) <= 2 ^ (n1 + prec)); [|lia].
        apply pow2_le; [lia|apply Zdigits2_nonneg]. }
    assert (2 ^ prec * 2 ^ n1 <= 2 ^ (prec - 1) * 2 ^ n2).
    { rewrite <- !pow2_split by (unfold prec; lia).
      apply pow2_le; unfold prec; lia. }
    nia.
Qed.

Lemma R_mono N1 N2 D : 0 < D -> N1 <= N2 -> R N1 D <= R N2 D.
Proof.
  intros HD H. unfold R.
  destruct (Z.ltb_spec N1 0), (Z.ltb_spec N2 0); try lia.
  - assert (Rpos (- N2) D <= Rpos (- N1) D) by (apply Rpos_mono; lia). lia.
  - assert (0 <= Rpos (- N1) D) by (apply Rpos_nonneg; lia).
    assert (0 <= Rpos N2 D) by (apply Rpos_nonneg; lia). lia.
  - apply Rpos_mono; lia.
Qed.

Lemma R_0 D : 0 < D -> R 0 D = 0.
Proof. intros. unfold R. rewrite Z.ltb_irrefl. now apply Rpos_0. Qed.

Lemma R_nonneg N D : 0 <= N -> 0 < D -> 0 <= R N D.
Proof.
  intros HN HD. assert (H := R_mono 0 N D HD HN).
  now rewrite R_0 in H.
Qed.

Lemma R_opp N D : 0 < D -> R (- N) D = - R N D.
Proof.
  intros HD. unfold R.
  destruct (Z.ltb_spec (- N) 0), (Z.ltb_spec N 0); try lia.
  - now rewrite Z.opp_involutive.
  - replace N with 0 by lia. change (- 0) with 0.
    rewrite Rpos_0 by trivial. reflexivity.
Qed.

(* a representable value is left alone *)
Lemma Rpos_exact s m e D :
  wf (S754_finite s m e) = true -> 0 < D ->
  Rpos (Zpos m * 2 ^ (e - emin) * D) D = Zpos m * 2 ^ (e - emin).
Proof.
  intros Hwf HD.
  destruct (wf_finite_bounds _ _ _ Hwf) as (He & Hd & Hn).
  assert (Hlt := ord_finite_lt_cap _ _ _ Hwf).
  assert (P := pow2_pos (e - emin) ltac:(lia)).
  unfold Rpos, rshift. rewrite Z.div_mul by lia.
  rewrite Zdigits2_shl by lia.
  assert (Hd1 : 0 < Zdigits2 (Zpos m)) by (cbn; lia).
  replace (Z.max 0 (Zdigits2 (Zpos m) + (e - emin) - prec)) with (e - emin)
    by lia.
  replace (Zpos m * 2 ^ (e - emin) * D) with (Zpos m * (D * 2 ^ (e - emin)))
    by ring.
  rewrite rne_mul by nia. lia.
Qed.

Lemma R_exact x D :
  wf x = true -> 0 < D -> R (ord x * D) D = ord x.
Proof.
  intros Hwf HD. destruct x as [s|s| |s m e]; cbn [ord].
  - now rewrite R_0.
  - (* an infinity sits at the cap *)
    replace (cond_Zopp s cap * D) with (cond_Zopp s (cap * D))
      by (destruct s; cbn [cond_Zopp]; ring).
    assert (Hc := cap_pos).
    rewrite R_cond_Zopp by nia. f_equal.
    unfold Rpos. apply Z.min_r.
    remember (rshift (cap * D) D) as n. unfold rshift in Heqn.
    rewrite Z.div_mul in Heqn by lia.
    assert (P := pow2_pos n ltac:(lia)).
    assert (L := rne_lower (cap * D) (D * 2 ^ n)).
    rewrite <- Z.div_div, Z.div_mul in L by lia.
    assert (E := Z.div_mod cap (2 ^ n) ltac:(lia)).
    assert (B := Z.mod_pos_bound cap (2 ^ n) P).
    assert (Hmod : cap mod 2 ^ n = 0).
    { unfold cap in *. 
      assert (Hdg : Zdigits2 (2 ^ (emax - emin)) = emax - emin + 1).
      { apply Zdigits2_unique; [|lia].
        replace (emax - emin + 1 - 1) with (emax - emin) by lia.
        split; [lia|]. apply pow2_lt; rewrite emin_eq; unfold emax; lia. }
      rewrite Hdg in Heqn.
      replace (emax - emin) with ((emax - emin - n) + n)
        by lia.
      rewrite pow2_split by (rewrite emin_eq in *; unfold emax, prec in *; lia).
      apply Z.mod_mul. lia. }
    nia.
  - now rewrite R_0.
  - replace (cond_Zopp s (Zpos m * 2 ^ (e - emin)) * D)
      with (cond_Zopp s (Zpos m * 2 ^ (e - emin) * D))
      by (destruct s; cbn [cond_Zopp]; ring).
    destruct (wf_finite_bounds _ _ _ Hwf) as (He & _).
    assert (Px := ord_finite_pos m e ltac:(lia)).
    rewrite R_cond_Zopp by nia. f_equal. now apply Rpos_exact with s.
Qed.

(* ---------- comparison ---------- *)
Lemma cmp_canonical s1 m1 e1 s2 m2 e2 :
  wf (S754_finite s1 m1 e1) = true -> wf (S754_finite s2 m2 e2) = true ->
  match e1 ?= e2 with
  | Lt => Lt
  | Gt => Gt
  | Eq => Pos.compare_cont Eq m1 m2
  end
  = (Zpos m1 * 2 ^ (e1 - emin) ?= Zpos m2 * 2 ^ (e2 - emin)).
Proof.
  intros H1 H2.
  destruct (wf_finite_bounds _ _ _ H1) as (He1 & Hd1 & Hn1).
  destruct (wf_finite_bounds _ _ _ H2) as (He2 & Hd2 & Hn2).
  assert (B1 := Zdigits2_bounds (Zpos m1) ltac:(lia)).
  assert (B2 := Zdigits2_bounds (Zpos m2) ltac:(lia)).
  assert (P1 := pow2_pos (e1 - emin) ltac:(lia)).
  assert (P2 := pow2_pos (e2 - emin) ltac:(lia)).
  assert (U1 : 2 ^ Zdigits2 (Zpos m1) <= 2 ^ prec)
    by (apply pow2_le; [lia|apply Zdigits2_nonneg]).
  assert (U2 : 2 ^ Zdigits2 (Zpos m2) <= 2 ^ prec)
    by (apply pow2_le; [lia|apply Zdigits2_nonneg]).
  symmetry. destruct (Z.compare_spec e1 e2) as [->|Hlt|Hgt].
  - change (Pos.compare_cont Eq m1 m2) with (Zpos m1 ?= Zpos m2).
    destruct (Z.compare_spec (Zpos m1) (Zpos m2)) as [E|L|G].
    + rewrite E. apply Z.compare_refl.
    + apply Z.compare_lt_iff. nia.
    + apply Z.compare_gt_iff. nia.
  - apply Z.compare_lt_iff.
    rewrite (Hn2 ltac:(lia)) in B2.
    assert (2 ^ prec * 2 ^ (e1 - emin) <= 2 ^ (prec - 1) * 2 ^ (e2 - emin)).
    { rewrite <- !pow2_split by (unfold prec; lia).
      apply pow2_le; unfold prec; lia. }
    nia.
  - apply Z.compare_gt_iff.
    rewrite (Hn1 ltac:(lia)) in B1.
    assert (2 ^ prec * 2 ^ (e2 - emin) <= 2 ^ (prec - 1) * 2 ^ (e1 - emin)).
    { rewrite <- !pow2_split by (unfold prec; lia).
      apply pow2_le; unfold prec; lia. }
    nia.
Qed.

Ltac cmp_solve :=
  cbn [cond_Zopp]; f_equal; symmetry;
  first [ apply Z.compare_eq_iff; lia
        | apply Z.compare_lt_iff; lia
        | apply Z.compare_gt_iff; lia ].

Lemma compare_ord x y :
  wf x = true -> wf y = true -> isNaN x = false -> isNaN y = false ->
  SFcompare x y = Some (ord x ?= ord y).
Proof.
  intros Hx Hy Nx Ny. assert (Hc := cap_pos).
  destruct x as [sx|sx| |sx mx ex]; try discriminate;
    destruct y as [sy|sy| |sy my ey]; try discriminate;
    cbn [SFcompare ord].
  - reflexivity.
  - destruct sy; cmp_solve.
  - destruct (wf_finite_bounds _ _ _ Hy) as (He & _).
    assert (P := ord_finite_pos my ey ltac:(lia)).
    destruct sy; cmp_solve.
  - destruct sx; cmp_solve.
  - destruct sx, sy; cmp_solve.
  - assert (L := ord_finite_lt_cap _ _ _ Hy).
    destruct (wf_finite_bounds _ _ _ Hy) as (He & _).
    assert (P := ord_finite_pos my ey ltac:(lia)).
    destruct sx, sy; cmp_solve.
  - destruct (wf_finite_bounds _ _ _ Hx) as (He & _).
    assert (P := ord_finite_pos mx ex ltac:(lia)).
    destruct sx; cmp_solve.
  - assert (L := ord_finite_lt_cap _ _ _ Hx).
    destruct (wf_finite_bounds _ _ _ Hx) as (He & _).
    assert (P := ord_finite_pos mx ex ltac:(lia)).
    destruct sx, sy; cmp_solve.
  - destruct (wf_finite_bounds _ _ _ Hx) as (Hex & _).
    destruct (wf_finite_bounds _ _ _ Hy) as (Hey & _).
    assert (Px := ord_finite_pos mx ex ltac:(lia)).
    assert (Py := ord_finite_pos my ey ltac:(lia)).
    destruct sx, sy; cbn [cond_Zopp]; f_equal.
    + rewrite Z.compare_opp.
      rewrite <- (cmp_canonical true my ey true mx ex Hy Hx).
      rewrite (Z.compare_antisym ey ex).
      destruct (ey ?= ex); cbn [CompOpp]; trivial.
      now rewrite Pos.compare_cont_antisym.
    + symmetry. apply Z.compare_lt_iff. lia.
    + symmetry. apply Z.compare_gt_iff. lia.
    + now apply cmp_canonical with false false.
Qed.

Lemma leb_ord x y :
  wf x = true -> wf y = true -> isNaN x = false -> isNaN y = false ->
  leb x y = true <-> ord x <= ord y.
Proof.
  intros Hx Hy Nx Ny. unfold leb, SFleb.
  rewrite compare_ord by trivial.
  destruct (Z.compare_spec (ord x) (ord y)); split; intros; try lia;
    try reflexivity; discriminate.
Qed.

Lemma ltb_ord x y :
  wf x = true -> wf y = true -> isNaN x = false -> isNaN y = false ->
  ltb x y = true <-> ord x < ord y.
Proof.
  intros Hx Hy Nx Ny. unfold ltb, SFltb.
  rewrite compare_ord by trivial.
  destruct (Z.compare_spec (ord x) (ord y)); split; intros; try lia;
    try reflexivity; discriminate.
Qed.

Lemma leb_not_NaN x y : leb x y = true -> isNaN x = false /\ isNaN y = false.
Proof. destruct x, y; cbn; intros; try discriminate; now split. Qed.

End RoundOrder.

(** ** Addition and subtraction *)

Section AddSub.

Lemma ord_zero_iff x :
  wf x = true -> isNaN x = false -> (ord x = 0 <-> is_zero x = true).
Proof.
  intros Hwf Hn. assert (Hc := cap_pos).
  destruct x as [s|s| |s m e]; cbn [ord is_zero]; try discriminate.
  - tauto.
  - split; [|discriminate]. destruct s; cbn [cond_Zopp]; lia.
  - destruct (wf_finite_bounds _ _ _ Hwf) as (He & _).
    assert (P := ord_finite_pos m e ltac:(lia)).
    split; [|discriminate]. destruct s; cbn [cond_Zopp]; lia.
Qed.

(* ---------- normalisation of an exact integer mantissa ---------- *)
Lemma binary_normalize_spec M e szero :
  emin <= e ->
  let r := binary_normalize prec emax M e szero in
  wf r = true /\ isNaN r = false
  /\ ord r = R (M * 2 ^ (e - emin)) 1
  /\ (M = 0 -> r = S754_zero szero)
  /\ (M <> 0 -> is_zero r = false /\ sign_bit r = (M <? 0)).
Proof.
  intros He. assert (P := pow2_pos (e - emin) ltac:(lia)).
  destruct M as [|p|p]; cbn [binary_normalize]; cbn zeta.
  - split; [|split; [|split; [|split]]]; trivial.
    intros H. congruence.
  - destruct (binary_round_spec false p e) as (Hwf & Hn & Hs & Ho).
    replace (Z.max 0 (e - emin)) with (e - emin) in Ho by lia.
    replace (Z.max 0 (emin - e)) with 0 in Ho by lia.
    rewrite Z.pow_0_r in Ho. cbn [cond_Zopp] in Ho.
    assert (HR : R (Zpos p * 2 ^ (e - emin)) 1
                 = Rpos (Zpos p * 2 ^ (e - emin)) 1).
    { unfold R. destruct (Z.ltb_spec (Zpos p * 2 ^ (e - emin)) 0); [nia|easy]. }
    split; [|split; [|split; [|split]]]; trivial.
    + now rewrite HR.
    + intros H. discriminate.
    + intros _. split; [|exact Hs].
      assert (Hp := Rpos_pos (Zpos p * 2 ^ (e - emin)) 1 ltac:(lia) ltac:(nia)).
      destruct (is_zero _) eqn:Ez; trivial.
      apply ord_zero_iff in Ez; trivial. lia.
  - destruct (binary_round_spec true p e) as (Hwf & Hn & Hs & Ho).
    replace (Z.max 0 (e - emin)) with (e - emin) in Ho by lia.
    replace (Z.max 0 (emin - e)) with 0 in Ho by lia.
    rewrite Z.pow_0_r in Ho. cbn [cond_Zopp] in Ho.
    assert (HR : R (Zneg p * 2 ^ (e - emin)) 1
                 = - Rpos (Zpos p * 2 ^ (e - emin)) 1).
    { unfold R. destruct (Z.ltb_spec (Zneg p * 2 ^ (e - emin)) 0); [|nia].
      f_equal. f_equal. change (Zneg p) with (- Zpos p). ring. }
    split; [|split; [|split; [|split]]]; trivial.
    + now rewrite HR.
    + intros H. discriminate.
    + intros _. split; [|exact Hs].
      assert (Hp := Rpos_pos (Zpos p * 2 ^ (e - emin)) 1 ltac:(lia) ltac:(nia)).
      destruct (is_zero _) eqn:Ez; trivial.
      apply ord_zero_iff in Ez; trivial. lia.
Qed.

(* ---------- addition and subtraction ---------- *)
Lemma aligned_ord s m e ez :
  emin <= ez <= e ->
  cond_Zopp s (Zpos (fst (shl_align m e ez))) * 2 ^ (ez - emin)
  = ord (S754_finite s m e).
Proof.
  intros H. destruct (shl_align_spec m e ez) as [_ Hm].
  rewrite Hm. replace (Z.min e ez) with ez by lia.
  cbn [ord]. replace (e - emin) with ((e - ez) + (ez - emin)) by lia.
  rewrite pow2_split by lia. destruct s; cbn [cond_Zopp]; ring.
Qed.

Lemma add_finite_ord sx mx ex sy my ey :
  wf (S754_finite sx mx ex) = true -> wf (S754_finite sy my ey) = true ->
  let r := add (S754_finite sx mx ex) (S754_finite sy my ey) in
  wf r = true /\ isNaN r = false
  /\ ord r = R (ord (S754_finite sx mx ex) + ord (S754_finite sy my ey)) 1
  /\ (is_zero r = true -> r = zero).
Proof.
  intros Hx Hy.
  destruct (wf_finite_bounds _ _ _ Hx) as (Hex & _).
  destruct (wf_finite_bounds _ _ _ Hy) as (Hey & _).
  unfold add, SFadd. cbn zeta.
  remember (Z.min ex ey) as ez eqn:Ez.
  remember (cond_Zopp sx (Zpos (fst (shl_align mx ex ez)))
            + cond_Zopp sy (Zpos (fst (shl_align my ey ez)))) as M eqn:EM.
  destruct (binary_normalize_spec M ez false ltac:(lia))
    as (Hwf & Hn & Ho & Hz & Hnz).
  repeat split; trivial.
  - rewrite Ho. f_equal. rewrite EM, Z.mul_add_distr_r.
    now rewrite !aligned_ord by lia.
  - intros Hzero. destruct (Z.eq_dec M 0) as [E|NE]; [now apply Hz|].
    destruct (Hnz NE). congruence.
Qed.

Lemma sub_finite_ord sx mx ex sy my ey :
  wf (S754_finite sx mx ex) = true -> wf (S754_finite sy my ey) = true ->
  let r := sub (S754_finite sx mx ex) (S754_finite sy my ey) in
  wf r = true /\ isNaN r = false
  /\ ord r = R (ord (S754_finite sx mx ex) - ord (S754_finite sy my ey)) 1
  /\ (is_zero r = true -> r = zero).
Proof.
  intros Hx Hy.
  destruct (wf_finite_bounds _ _ _ Hx) as (Hex & _).
  destruct (wf_finite_bounds _ _ _ Hy) as (Hey & _).
  unfold sub, SFsub. cbn zeta.
  remember (Z.min ex ey) as ez eqn:Ez.
  remember (cond_Zopp sx (Zpos (fst (shl_align mx ex ez)))
            - cond_Zopp sy (Zpos (fst (shl_align my ey ez)))) as M eqn:EM.
  destruct (binary_normalize_spec M ez false ltac:(lia))
    as (Hwf & Hn & Ho & Hz & Hnz).
  repeat split; trivial.
  - rewrite Ho. f_equal. rewrite EM, Z.mul_sub_distr_r.
    now rewrite !aligned_ord by lia.
  - intros Hzero. destruct (Z.eq_dec M 0) as [E|NE]; [now apply Hz|].
    destruct (Hnz NE). congruence.
Qed.

Lemma R_exact_1 x : wf x = true -> R (ord x) 1 = ord x.
Proof.
  intros H. rewrite <- (Z.mul_1_r (ord x)) at 1. now apply R_exact.
Qed.

Lemma wf_opp_finite s m e :
  wf (S754_finite s m e) = true -> wf (S754_finite (negb s) m e) = true.
Proof. trivial. Qed.

(** Addition of finite numbers rounds the exact sum. *)
Lemma add_ord x y :
  wf x = true -> wf y = true -> isFinite x = true -> isFinite y = true ->
  wf (add x y) = true /\ isNaN (add x y) = false
  /\ ord (add x y) = R (ord x + ord y) 1.
Proof.
  intros Hx Hy Fx Fy.
  destruct x as [sx| | |sx mx ex]; try discriminate;
    destruct y as [sy| | |sy my ey]; try discriminate.
  - repeat split; now destruct sx, sy.
  - cbn [add SFadd]. repeat split; trivial.
    change (ord (S754_zero sx)) with 0.
    now rewrite Z.add_0_l, R_exact_1.
  - cbn [add SFadd]. repeat split; trivial.
    change (ord (S754_zero sy)) with 0.
    now rewrite Z.add_0_r, R_exact_1.
  - destruct (add_finite_ord sx mx ex sy my ey Hx Hy) as (H1 & H2 & H3 & _).
    now repeat split.
Qed.

(** Subtraction of finite numbers rounds the exact difference. *)
Lemma sub_ord x y :
  wf x = true -> wf y = true -> isFinite x = true -> isFinite y = true ->
  wf (sub x y) = true /\ isNaN (sub x y) = false
  /\ ord (sub x y) = R (ord x - ord y) 1.
Proof.
  intros Hx Hy Fx Fy.
  destruct x as [sx| | |sx mx ex]; try discriminate;
    destruct y as [sy| | |sy my ey]; try discriminate.
  - repeat split; now destruct sx, sy.
  - cbn [sub SFsub]. repeat split; trivial.
    rewrite <- (R_exact_1 (S754_finite (negb sy) my ey)) by trivial.
    f_equal. cbn [ord]. destruct sy; cbn [negb cond_Zopp]; lia.
  - cbn [sub SFsub]. repeat split; trivial.
    change (ord (S754_zero sy)) with 0.
    now rewrite Z.sub_0_r, R_exact_1.
  - destruct (sub_finite_ord sx mx ex sy my ey Hx Hy) as (H1 & H2 & H3 & _).
    now repeat split.
Qed.

(** Multiplication of finite numbers rounds the exact product. *)
Lemma mul_ord x y :
  wf x = true -> wf y = true -> isFinite x = true -> isFinite y = true ->
  wf (mul x y) = true /\ isNaN (mul x y) = false
  /\ sign_bit (mul x y) = xorb (sign_bit x) (sign_bit y)
  /\ ord (mul x y) = R (ord x * ord y) unit_scale.
Proof.
  intros Hx Hy Fx Fy. assert (Hu := unit_scale_pos).
  destruct x as [sx| | |sx mx ex]; try discriminate;
    destruct y as [sy| | |sy my ey]; try discriminate;
    try (cbn [mul SFmul ord sign_bit]; repeat split; trivial;
         rewrite ?Z.mul_0_l, ?Z.mul_0_r; now rewrite R_0).
  now apply mul_finite_ord.
Qed.

End AddSub.

(** ** Division; well-formed results *)

Section Division.

(* ---------- division ---------- *)
Lemma new_location_loc_of D r :
  0 < D -> 0 <= r < D -> new_location D r = loc_of D r.
Proof.
  intros HD Hr. unfold new_location, new_location_even, new_location_odd, loc_of.
  destruct (Z.even D) eqn:Ev; [reflexivity|].
  destruct (Z.eqb_spec r 0); [reflexivity|]. f_equal.
  assert (Ho : Z.odd D = true) by (rewrite <- Z.negb_even, Ev; reflexivity).
  apply Z.odd_spec in Ho. destruct Ho as [j Hj].
  destruct (Z.compare_spec (2 * r + 1) D), (Z.compare_spec (2 * r) D);
    trivial; lia.
Qed.

Lemma Zdigits2_pow2 k : 0 <= k -> Zdigits2 (2 ^ k) = k + 1.
Proof.
  intros Hk. assert (P := pow2_pos k Hk).
  apply Zdigits2_unique; [|lia].
  replace (k + 1 - 1) with k by lia. split; [lia|]. apply pow2_lt; lia.
Qed.

Lemma div_core_spec mx ex my ey :
  exists N e',
    SFdiv_core_binary prec emax (Zpos mx) ex (Zpos my) ey
    = (N / Zpos my, e', loc_of (Zpos my) (N mod Zpos my))
    /\ 0 <= ex - ey - e'
    /\ N = Zpos mx * 2 ^ (ex - ey - e')
    /\ e' <= fexp (Zdigits2 (N / Zpos my) + e').
Proof.
  unfold SFdiv_core_binary.
  change (SpecFloat.fexp prec emax) with fexp.
  remember (Z.min
              (fexp (Zdigits2 (Zpos mx) + ex - (Zdigits2 (Zpos my) + ey)))
              (ex - ey)) as e' eqn:Ee.
  remember (ex - ey - e') as s eqn:Es.
  assert (Hs : 0 <= s) by lia.
  exists (Zpos mx * 2 ^ s), e'.
  assert (Hm' : match s with
                | 0 => Zpos mx
                | Zpos _ => Z.shiftl (Zpos mx) s
                | Zneg _ => 0
                end = Zpos mx * 2 ^ s).
  { destruct s as [|p|p]; [cbn; lia| |lia].
    apply Z.shiftl_mul_pow2. lia. }
  cbv zeta. rewrite Hm'.
  set (N := Zpos mx * 2 ^ s).
  assert (P := pow2_pos s Hs).
  assert (HN : 0 < N) by (subst N; nia).
  assert (Hdiv : Z.div_eucl N (Zpos my) = (N / Zpos my, N mod Zpos my)).
  { unfold Z.div, Z.modulo. now destruct (Z.div_eucl N (Zpos my)). }
  rewrite Hdiv.
  assert (Hr := Z.mod_pos_bound N (Zpos my) ltac:(lia)).
  rewrite new_location_loc_of by (trivial; lia).
  split; [reflexivity|]. split; [lia|]. split; [subst N; now rewrite Es|].
  (* enough digits in the quotient *)
  assert (Hq : 0 <= N / Zpos my) by (apply Z.div_pos; lia).
  assert (Hd : Zdigits2 (Zpos mx) + s - Zdigits2 (Zpos my)
               <= Zdigits2 (N / Zpos my)).
  { destruct (Z_le_gt_dec (Zdigits2 (Zpos mx) + s - Zdigits2 (Zpos my)) 0)
      as [Hk|Hk].
    - assert (H0 := Zdigits2_nonneg (N / Zpos my)). lia.
    - remember (Zdigits2 (Zpos mx) + s - Zdigits2 (Zpos my)) as k eqn:Ek.
      assert (Bx := Zdigits2_bounds (Zpos mx) ltac:(lia)).
      assert (By := Zdigits2_bounds (Zpos my) ltac:(lia)).
      assert (Hdx : 0 < Zdigits2 (Zpos mx)) by (cbn; lia).
      assert (Hdy : 0 < Zdigits2 (Zpos my)) by (cbn; lia).
      assert (Pk := pow2_pos (k - 1) ltac:(lia)).
      assert (Hlow : 2 ^ (k - 1) <= N / Zpos my).
      { apply Z.div_le_lower_bound; [lia|].
        assert (2 ^ (k - 1) * 2 ^ Zdigits2 (Zpos my)
                = 2 ^ (Zdigits2 (Zpos mx) - 1) * 2 ^ s).
        { rewrite <- !pow2_split by lia. f_equal. lia. }
        subst N. nia. }
      assert (M := Zdigits2_mono (2 ^ (k - 1)) (N / Zpos my) ltac:(lia)).
      rewrite Zdigits2_pow2 in M by lia. lia. }
  assert (F := fexp_mono
                 (Zdigits2 (Zpos mx) + ex - (Zdigits2 (Zpos my) + ey))
                 (Zdigits2 (N / Zpos my) + e') ltac:(lia)).
  lia.
Qed.

Lemma div_finite_ord sx mx ex sy my ey :
  wf (S754_finite sx mx ex) = true -> wf (S754_finite sy my ey) = true ->
  let r := div (S754_finite sx mx ex) (S754_finite sy my ey) in
  wf r = true /\ isNaN r = false /\ sign_bit r = xorb sx sy
  /\ ord r = cond_Zopp (xorb sx sy)
               (Rpos (Zpos mx * 2 ^ (ex - emin) * unit_scale)
                     (Zpos my * 2 ^ (ey - emin))).
Proof.
  intros Hx Hy.
  destruct (wf_finite_bounds _ _ _ Hx) as (Hex & _).
  destruct (wf_finite_bounds _ _ _ Hy) as (Hey & _).
  destruct (div_core_spec mx ex my ey) as (N & e' & Hcore & Hs & HN & Hpre).
  unfold div, SFdiv. cbn zeta. rewrite Hcore.
  assert (P := pow2_pos (ex - ey - e') Hs).
  destruct (bra_ord (xorb sx sy) N (Zpos my) e') as (Hwf & Hn & Hsg & Ho);
    [nia|lia|trivial|].
  repeat split; trivial.
  rewrite Ho. f_equal. rewrite HN. unfold unit_scale.
  rewrite <- !Z.mul_assoc, <- !pow2_split by (rewrite ?emin_eq in *; lia).
  apply Rpos_pow2_ratio; rewrite ?emin_eq in *; lia.
Qed.

(** Division of a finite number by a positive finite number rounds the
    exact quotient. *)
Lemma div_ord_pos x my ey :
  wf x = true -> wf (S754_finite false my ey) = true -> isFinite x = true ->
  let y := S754_finite false my ey in
  wf (div x y) = true /\ isNaN (div x y) = false
  /\ ord (div x y) = R (ord x * unit_scale) (ord y).
Proof.
  intros Hx Hy Fx y.
  destruct (wf_finite_bounds _ _ _ Hy) as (Hey & _).
  assert (Py := ord_finite_pos my ey ltac:(lia)).
  destruct x as [sx| | |sx mx ex]; try discriminate.
  - cbn [div SFdiv wf valid_binary isNaN].
    split; [reflexivity|]. split; [reflexivity|].
    change (ord (S754_zero sx)) with 0.
    rewrite Z.mul_0_l, R_0; trivial.
  - destruct (div_finite_ord sx mx ex false my ey Hx Hy)
      as (Hwf & Hn & _ & Ho).
    repeat split; trivial. fold y in Ho. rewrite Ho.
    destruct (wf_finite_bounds _ _ _ Hx) as (Hex & _).
    assert (Px := ord_finite_pos mx ex ltac:(lia)).
    assert (Hu := unit_scale_pos).
    rewrite xorb_false_r. unfold y. cbn [ord cond_Zopp].
    rewrite <- R_cond_Zopp by nia.
    f_equal. destruct sx; cbn [cond_Zopp]; ring.
Qed.

(* ---------- injectivity of [ord] ---------- *)
Lemma ord_inj x y :
  wf x = true -> wf y = true -> isNaN x = false -> isNaN y = false ->
  sign_bit x = sign_bit y -> ord x = ord y -> x = y.
Proof.
  intros Hx Hy Nx Ny Hs Ho.
  assert (Hc := compare_ord x y Hx Hy Nx Ny).
  rewrite Ho, Z.compare_refl in Hc.
  destruct x as [sx|sx| |sx mx ex]; try discriminate;
    destruct y as [sy|sy| |sy my ey]; try discriminate;
    cbn [sign_bit] in Hs; subst; trivial;
    cbn [SFcompare] in Hc;
    try (destruct sy; discriminate).
  assert (E : match ex ?= ey with
              | Eq => Pos.compare_cont Eq mx my
              | Lt => Lt | Gt => Gt end = Eq \/
              match ex ?= ey with
              | Eq => CompOpp (Pos.compare_cont Eq mx my)
              | Lt => Gt | Gt => Lt end = Eq).
  { destruct sy; injection Hc as Hc; [right|left]; exact Hc. }
  destruct (Z.compare_spec ex ey) as [->|?|?];
    try (destruct E; discriminate).
  assert (Pos.compare_cont Eq mx my = Eq).
  { destruct E as [E|E]; trivial.
    destruct (Pos.compare_cont Eq mx my); trivial; discriminate. }
  apply Pos.compare_eq in H. now subst.
Qed.

(* ---------- closure of well-formedness ---------- *)
Lemma add_wf x y : wf x = true -> wf y = true -> wf (add x y) = true.
Proof.
  intros Hx Hy.
  destruct x as [sx|sx| |sx mx ex], y as [sy|sy| |sy my ey];
    try reflexivity; trivial; try (now destruct sx, sy).
  now apply add_finite_ord.
Qed.

Lemma sub_wf x y : wf x = true -> wf y = true -> wf (sub x y) = true.
Proof.
  intros Hx Hy.
  destruct x as [sx|sx| |sx mx ex], y as [sy|sy| |sy my ey];
    try reflexivity; trivial; try (now destruct sx, sy).
  now apply sub_finite_ord.
Qed.

Lemma mul_wf x y : wf x = true -> wf y = true -> wf (mul x y) = true.
Proof.
  intros Hx Hy.
  destruct x as [sx|sx| |sx mx ex], y as [sy|sy| |sy my ey];
    try reflexivity.
  now apply mul_finite_ord.
Qed.

Lemma div_wf x y : wf x = true -> wf y = true -> wf (div x y) = true.
Proof.
  intros Hx Hy.
  destruct x as [sx|sx| |sx mx ex], y as [sy|sy| |sy my ey];
    try reflexivity.
  now apply div_finite_ord.
Qed.

End Division.

(** ** Order facts and monotone addition *)

Section OrderFacts.

(* ---------- the order on numbers ---------- *)
Lemma leb_pInf z : isNaN z = false -> leb z pInf = true.
Proof. destruct z as [s|s| |s m e]; try destruct s; easy. Qed.

Lemma leb_nInf z : isNaN z = false -> leb nInf z = true.
Proof. destruct z as [s|s| |s m e]; try destruct s; easy. Qed.

Lemma leb_pInf_l z : leb pInf z = true -> z = pInf.
Proof. destruct z as [s|s| |s m e]; try destruct s; easy. Qed.

Lemma leb_nInf_r z : leb z nInf = true -> z = nInf.
Proof. destruct z as [s|s| |s m e]; try destruct s; easy. Qed.

Lemma leb_zero_sign r :
  isNaN r = false -> sign_bit r = false -> leb (of_Z 0) r = true.
Proof. destruct r as [s|s| |s m e]; cbn; intros; subst; easy. Qed.

Lemma ge0_sign r :
  leb (of_Z 0) r = true -> is_zero r = true \/ sign_bit r = false.
Proof. destruct r as [s|s| |s m e]; try destruct s; cbn; intros; auto; easy. Qed.

Lemma leb_refl x : isNaN x = false -> leb x x = true.
Proof.
  destruct x as [s|s| |s m e]; try destruct s; try easy; intros _;
    unfold leb, SFleb; cbn [SFcompare]; rewrite Z.compare_refl;
    cbn [CompOpp]; now rewrite Pos.compare_cont_refl.
Qed.

Lemma leb_trans x y z :
  wf x = true -> wf y = true -> wf z = true ->
  leb x y = true -> leb y z = true -> leb x z = true.
Proof.
  intros Hx Hy Hz H1 H2.
  destruct (leb_not_NaN _ _ H1) as [Nx Ny].
  destruct (leb_not_NaN _ _ H2) as [_ Nz].
  apply leb_ord in H1; trivial. apply leb_ord in H2; trivial.
  apply leb_ord; trivial. lia.
Qed.

Lemma not_finite_cases x :
  isNaN x = false -> isFinite x = false -> x = pInf \/ x = nInf.
Proof. destruct x as [s|[|]| |s m e]; cbn; intros; auto; easy. Qed.

(* ---------- monotonicity of the operations ---------- *)
Lemma add_inf_l s y : isNaN (add (S754_infinity s) y) = false ->
  add (S754_infinity s) y = S754_infinity s.
Proof. destruct y as [sy|sy| |sy my ey]; try easy. now destruct s, sy. Qed.

Lemma add_inf_r s x : isNaN (add x (S754_infinity s)) = false ->
  add x (S754_infinity s) = S754_infinity s.
Proof. destruct x as [sx|sx| |sx mx ex]; try easy. now destruct s, sx. Qed.

Lemma add_mono x x' y y' :
  wf x = true -> wf x' = true -> wf y = true -> wf y' = true ->
  leb x x' = true -> leb y y' = true ->
  isNaN (add x y) = false -> isNaN (add x' y') = false ->
  leb (add x y) (add x' y') = true.
Proof.
  intros Wx Wx' Wy Wy' Hx Hy N1 N2.
  destruct (leb_not_NaN _ _ Hx) as [Nx Nx'].
  destruct (leb_not_NaN _ _ Hy) as [Ny Ny'].
  destruct (isFinite x) eqn:Fx; cycle 1.
  { destruct (not_finite_cases x Nx Fx) as [->| ->].
    - apply leb_pInf_l in Hx. subst x'. unfold pInf in *.
      now rewrite (add_inf_l _ y N1), (add_inf_l _ y' N2).
    - unfold nInf in *. rewrite add_inf_l by trivial. now apply leb_nInf. }
  destruct (isFinite y) eqn:Fy; cycle 1.
  { destruct (not_finite_cases y Ny Fy) as [->| ->].
    - apply leb_pInf_l in Hy. subst y'. unfold pInf in *.
      now rewrite (add_inf_r _ x N1), (add_inf_r _ x' N2).
    - unfold nInf in *. rewrite add_inf_r by trivial. now apply leb_nInf. }
  destruct (isFinite x') eqn:Fx'; cycle 1.
  { destruct (not_finite_cases x' Nx' Fx') as [->| ->].
    - unfold pInf in *. rewrite (add_inf_l _ y') by trivial.
      now apply leb_pInf.
    - apply leb_nInf_r in Hx. subst x. discriminate. }
  destruct (isFinite y') eqn:Fy'; cycle 1.
  { destruct (not_finite_cases y' Ny' Fy') as [->| ->].
    - unfold pInf in *. rewrite (add_inf_r _ x') by trivial.
      now apply leb_pInf.
    - apply leb_nInf_r in Hy. subst y. discriminate. }
  destruct (add_ord x y) as (W1 & _ & O1); trivial.
  destruct (add_ord x' y') as (W2 & _ & O2); trivial.
  apply leb_ord in Hx; trivial. apply leb_ord in Hy; trivial.
  apply leb_ord; trivial. rewrite O1, O2. apply R_mono; lia.
Qed.

Lemma add_finite_not_NaN x y :
  wf x = true -> wf y = true ->
  isNaN x = false -> isFinite y = true -> isNaN (add x y) = false.
Proof.
  intros Wx Wy Nx Fy. destruct (isFinite x) eqn:Fx.
  - now apply add_ord.
  - destruct (not_finite_cases x Nx Fx) as [->| ->];
      destruct y; try discriminate; reflexivity.
Qed.

(* ---------- multiplication: commutativity and unit ---------- *)
Lemma mul_comm x y : mul x y = mul y x.
Proof.
  destruct x as [sx|sx| |sx mx ex], y as [sy|sy| |sy my ey];
    try reflexivity; cbn [mul SFmul]; try (now rewrite xorb_comm).
  now rewrite xorb_comm, Pos.mul_comm, Z.add_comm.
Qed.

Lemma ord_one : ord (of_Z 1) = unit_scale.
Proof. reflexivity. Qed.

Lemma mul_one_r x : wf x = true -> mul x (of_Z 1) = x.
Proof.
  intros Wx. destruct x as [s|s| |s m e]; try reflexivity.
  - cbn. now rewrite xorb_false_r.
  - cbn. now rewrite xorb_false_r.
  - assert (W1 : wf (of_Z 1) = true) by reflexivity.
    destruct (mul_ord (S754_finite s m e) (of_Z 1)) as (W & N & S & O);
      trivial.
    apply ord_inj; trivial.
    + rewrite S. cbn. now rewrite xorb_false_r.
    + rewrite O, ord_one. apply R_exact; trivial. apply unit_scale_pos.
Qed.

Lemma mul_ge0 x y :
  wf x = true -> wf y = true ->
  leb (of_Z 0) x = true -> pos_finite y ->
  leb (of_Z 0) (mul x y) = true.
Proof.
  intros Wx Wy Hx (my & ey & ->).
  destruct x as [s|s| |s m e]; try easy.
  - now destruct s.
  - destruct s; [easy|].
    destruct (mul_finite_ord false m e false my ey) as (_ & N & S & _);
      trivial.
    now apply leb_zero_sign.
Qed.

End OrderFacts.

(** ** Monotone subtraction, multiplication and division *)

Section Monotonicity.

(* ---------- a result that is not NaN has no NaN operand ---------- *)
Lemma add_not_NaN x y :
  isNaN (add x y) = false -> isNaN x = false /\ isNaN y = false.
Proof.
  intros H. split.
  - now destruct x.
  - destruct y; trivial. now rewrite add_NaN_r in H.
Qed.

Lemma sub_not_NaN x y :
  isNaN (sub x y) = false -> isNaN x = false /\ isNaN y = false.
Proof.
  intros H. split.
  - now destruct x.
  - destruct y; trivial. now rewrite sub_NaN_r in H.
Qed.

Lemma mul_not_NaN x y :
  isNaN (mul x y) = false -> isNaN x = false /\ isNaN y = false.
Proof.
  intros H. split.
  - now destruct x.
  - destruct y; trivial. now rewrite mul_NaN_r in H.
Qed.

Lemma div_not_NaN x y :
  isNaN (div x y) = false -> isNaN x = false /\ isNaN y = false.
Proof.
  intros H. split.
  - now destruct x.
  - destruct y; trivial. now rewrite div_NaN_r in H.
Qed.

Lemma ge0_ord x : wf x = true -> leb (of_Z 0) x = true -> 0 <= ord x.
Proof.
  intros W H. destruct (leb_not_NaN _ _ H) as [_ N].
  apply leb_ord in H; trivial.
Qed.

Lemma ord_ge0 x :
  wf x = true -> isNaN x = false -> 0 <= ord x -> leb (of_Z 0) x = true.
Proof. intros W N H. apply leb_ord; trivial. Qed.

(* ---------- subtraction ---------- *)
Lemma sub_inf_l s y : isNaN (sub (S754_infinity s) y) = false ->
  sub (S754_infinity s) y = S754_infinity s.
Proof. destruct y as [sy|sy| |sy my ey]; try easy. now destruct s, sy. Qed.

Lemma sub_inf_r s x : isNaN (sub x (S754_infinity s)) = false ->
  sub x (S754_infinity s) = S754_infinity (negb s).
Proof. destruct x as [sx|sx| |sx mx ex]; try easy. now destruct s, sx. Qed.

Lemma sub_mono x x' y y' :
  wf x = true -> wf x' = true -> wf y = true -> wf y' = true ->
  leb x x' = true -> leb y' y = true ->
  isNaN (sub x y) = false -> isNaN (sub x' y') = false ->
  leb (sub x y) (sub x' y') = true.
Proof.
  intros Wx Wx' Wy Wy' Hx Hy N1 N2.
  destruct (leb_not_NaN _ _ Hx) as [Nx Nx'].
  destruct (leb_not_NaN _ _ Hy) as [Ny' Ny].
  destruct (isFinite x) eqn:Fx; cycle 1.
  { destruct (not_finite_cases x Nx Fx) as [->| ->].
    - apply leb_pInf_l in Hx. subst x'. unfold pInf in *.
      now rewrite (sub_inf_l _ y N1), (sub_inf_l _ y' N2).
    - unfold nInf in *. rewrite sub_inf_l by trivial. now apply leb_nInf. }
  destruct (isFinite y) eqn:Fy; cycle 1.
  { destruct (not_finite_cases y Ny Fy) as [->| ->].
    - unfold pInf in *. rewrite sub_inf_r by trivial. now apply leb_nInf.
    - apply leb_nInf_r in Hy. subst y'. unfold nInf in *.
      now rewrite (sub_inf_r _ x N1), (sub_inf_r _ x' N2). }
  destruct (isFinite x') eqn:Fx'; cycle 1.
  { destruct (not_finite_cases x' Nx' Fx') as [->| ->].
    - unfold pInf in *. rewrite (sub_inf_l _ y') by trivial.
      now apply leb_pInf.
    - apply leb_nInf_r in Hx. subst x. discriminate. }
  destruct (isFinite y') eqn:Fy'; cycle 1.
  { destruct (not_finite_cases y' Ny' Fy') as [->| ->].
    - apply leb_pInf_l in Hy. subst y. discriminate.
    - unfold nInf in *. rewrite (sub_inf_r _ x') by trivial.
      now apply leb_pInf. }
  destruct (sub_ord x y) as (W1 & _ & O1); trivial.
  destruct (sub_ord x' y') as (W2 & _ & O2); trivial.
  apply leb_ord in Hx; trivial. apply leb_ord in Hy; trivial.
  apply leb_ord; trivial. rewrite O1, O2. apply R_mono; lia.
Qed.

(* ---------- multiplication by a non-negative number ---------- *)
Lemma mul_mono_l x x' y :
  wf x = true -> wf x' = true -> wf y = true ->
  leb x x' = true -> leb (of_Z 0) y = true ->
  isNaN (mul x y) = false -> isNaN (mul x' y) = false ->
  leb (mul x y) (mul x' y) = true.
Proof.
  intros Wx Wx' Wy Hx Hy N1 N2.
  destruct (leb_not_NaN _ _ Hx) as [Nx Nx'].
  destruct (leb_not_NaN _ _ Hy) as [_ Ny].
  destruct (isFinite y) eqn:Fy; cycle 1.
  { destruct (not_finite_cases y Ny Fy) as [->| ->]; [|discriminate].
    clear Wx Wx' Wy Hy Ny Fy Nx Nx'.
    destruct x as [sx|sx| |sx mx ex]; try discriminate;
      destruct x' as [sx'|sx'| |sx' mx' ex']; try discriminate;
      destruct sx, sx'; try discriminate; reflexivity. }
  destruct (isFinite x) eqn:Fx; cycle 1.
  { destruct (not_finite_cases x Nx Fx) as [->| ->].
    - apply leb_pInf_l in Hx. subst x'. now apply leb_refl.
    - assert (E : mul nInf y = nInf).
      { destruct y as [sy|sy| |sy my ey]; try discriminate.
        now destruct sy. }
      rewrite E. now apply leb_nInf. }
  destruct (isFinite x') eqn:Fx'; cycle 1.
  { destruct (not_finite_cases x' Nx' Fx') as [->| ->].
    - assert (E : mul pInf y = pInf).
      { destruct y as [sy|sy| |sy my ey]; try discriminate.
        now destruct sy. }
      rewrite E. now apply leb_pInf.
    - apply leb_nInf_r in Hx. subst x. discriminate. }
  destruct (mul_ord x y) as (W1 & _ & _ & O1); trivial.
  destruct (mul_ord x' y) as (W2 & _ & _ & O2); trivial.
  assert (Hy0 := ge0_ord y Wy Hy).
  apply leb_ord in Hx; trivial.
  apply leb_ord; trivial. rewrite O1, O2.
  apply R_mono; [apply unit_scale_pos|nia].
Qed.

Lemma mul_mono_r x y y' :
  wf x = true -> wf y = true -> wf y' = true ->
  leb y y' = true -> leb (of_Z 0) x = true ->
  isNaN (mul x y) = false -> isNaN (mul x y') = false ->
  leb (mul x y) (mul x y') = true.
Proof.
  intros. rewrite (mul_comm x y), (mul_comm x y').
  apply mul_mono_l; trivial; now rewrite mul_comm.
Qed.

(* ---------- division by a positive finite number ---------- *)
Lemma div_mono_l x x' y :
  wf x = true -> wf x' = true -> wf y = true ->
  leb x x' = true -> pos_finite y ->
  leb (div x y) (div x' y) = true.
Proof.
  intros Wx Wx' Wy Hx (my & ey & ->).
  destruct (leb_not_NaN _ _ Hx) as [Nx Nx'].
  destruct (isFinite x) eqn:Fx; cycle 1.
  { destruct (not_finite_cases x Nx Fx) as [->| ->].
    - apply leb_pInf_l in Hx. subst x'. reflexivity.
    - change (div nInf (S754_finite false my ey)) with nInf.
      apply leb_nInf.
      destruct x' as [sx'|sx'| |sx' mx' ex']; try discriminate;
        try reflexivity.
      now apply div_finite_ord. }
  destruct (isFinite x') eqn:Fx'; cycle 1.
  { destruct (not_finite_cases x' Nx' Fx') as [->| ->].
    - change (div pInf (S754_finite false my ey)) with pInf.
      apply leb_pInf. now apply div_ord_pos.
    - apply leb_nInf_r in Hx. subst x. discriminate. }
  destruct (div_ord_pos x my ey) as (W1 & N1 & O1); trivial.
  destruct (div_ord_pos x' my ey) as (W2 & N2 & O2); trivial.
  destruct (wf_finite_bounds _ _ _ Wy) as (He & _).
  assert (Py := ord_finite_pos my ey ltac:(lia)).
  assert (Hu := unit_scale_pos).
  apply leb_ord in Hx; trivial.
  apply leb_ord; trivial. rewrite O1, O2.
  apply R_mono; [exact Py|nia].
Qed.

Lemma div_ge0 x y :
  wf x = true -> wf y = true -> isFinite x = true ->
  leb (of_Z 0) x = true -> pos_finite y ->
  wf (div x y) = true /\ leb (of_Z 0) (div x y) = true.
Proof.
  intros Wx Wy Fx Hx (my & ey & ->).
  destruct (div_ord_pos x my ey) as (W & N & O); trivial.
  split; trivial. apply ord_ge0; trivial. rewrite O.
  destruct (wf_finite_bounds _ _ _ Wy) as (He & _).
  assert (Py := ord_finite_pos my ey ltac:(lia)).
  assert (Hu := unit_scale_pos).
  assert (H0 := ge0_ord x Wx Hx).
  apply R_nonneg; [nia|exact Py].
Qed.

Lemma sub_ge0 x y :
  wf x = true -> wf y = true -> isFinite x = true -> isFinite y = true ->
  leb y x = true -> leb (of_Z 0) (sub x y) = true.
Proof.
  intros Wx Wy Fx Fy H.
  destruct (leb_not_NaN _ _ H) as [Ny Nx].
  destruct (sub_ord x y) as (W & N & O); trivial.
  apply leb_ord in H; trivial.
  apply ord_ge0; trivial. rewrite O. apply R_nonneg; lia.
Qed.

End Monotonicity.

(** * The program under rounding *)

(** ** The investment *)

(* ---------- C9 ---------- *)
Section Investment.
Local Open Scope num_scope.

Lemma investment_formula st :
  wf (milkingCows st) = true ->
  Body.investmentAnnual st
  = lit 45 10 * milkingCows st + of_Z 120 + of_Z 15840.
Proof.
  intros Wm.
  unfold Body.investmentAnnual, Body.productCostAnnual, Body.m,
    Body.applicationsPerYear, Body.costPerDose.
  rewrite mul_one_r by (apply mul_wf; trivial).
  now rewrite (mul_comm (milkingCows st)), applicatorInvestment_value,
    laborCostAnnual_value.
Qed.

Lemma investment_lower_bound st :
  wf (milkingCows st) = true ->
  geb (milkingCows st) (of_Z 0) = true ->
  wf (Body.investmentAnnual st) = true
  /\ geb (Body.investmentAnnual st) (of_Z 15960) = true.
Proof.
  intros Wm Hm. rewrite investment_formula by trivial.
  rewrite (mul_comm (lit 45 10)).
  set (p := milkingCows st * lit 45 10).
  assert (Wp : wf p = true) by (apply mul_wf; trivial).
  assert (Hp : leb (of_Z 0) p = true).
  { apply mul_ge0; trivial. vm_compute. eauto. }
  destruct (leb_not_NaN _ _ Hp) as [_ Np].
  assert (Nq : isNaN (p + of_Z 120) = false)
    by now apply add_finite_not_NaN.
  assert (Wq : wf (p + of_Z 120) = true) by now apply add_wf.
  assert (Hq : leb (of_Z 120) (p + of_Z 120) = true).
  { change (of_Z 120) with (of_Z 0 + of_Z 120) at 1.
    apply add_mono; trivial. }
  split; [now apply add_wf|].
  unfold geb. fold (leb (of_Z 15960) (p + of_Z 120 + of_Z 15840)).
  change (of_Z 15960) with (of_Z 120 + of_Z 15840).
  apply add_mono; trivial.
  now apply add_finite_not_NaN.
Qed.

Lemma investment_positive st :
  wf (milkingCows st) = true ->
  geb (milkingCows st) (of_Z 0) = true ->
  gtb (Body.investmentAnnual st) (of_Z 0) = true.
Proof.
  intros Wm Hm. destruct (investment_lower_bound st Wm Hm) as [Wi Hi].
  unfold geb in Hi. fold (leb (of_Z 15960) (Body.investmentAnnual st)) in Hi.
  destruct (leb_not_NaN _ _ Hi) as [_ Ni].
  apply leb_ord in Hi; trivial.
  unfold gtb. fold (ltb (of_Z 0) (Body.investmentAnnual st)).
  apply ltb_ord; trivial.
  assert (0 < ord (of_Z 15960)) by (vm_compute; reflexivity).
  change (ord (of_Z 0)) with 0. lia.
Qed.

End Investment.

(** ** Events that save nothing *)

Section NeutralEvent.
Local Open Scope num_scope.

Lemma healthSavings_eventSavings st sc :
  Body.healthSavings st sc
  = fold_left (fun acc ev => acc + eventSavings sc ev)
      (healthEvents st) (of_Z 0).
Proof. reflexivity. Qed.

Lemma health_reduction_shape sc :
  wf (HEALTH_EVENT_REDUCTION_BASE * Body.mult sc) = true
  /\ pos_finite (HEALTH_EVENT_REDUCTION_BASE * Body.mult sc)
  /\ (0 <= ord (HEALTH_EVENT_REDUCTION_BASE * Body.mult sc) <= unit_scale)%Z.
Proof.
  destruct sc; (split; [reflexivity|split; [vm_compute; eauto|]]);
    vm_compute; split; discriminate.
Qed.

(** A finite number times a factor between 0 and 1 stays finite. *)
Lemma mul_shrink_finite x y :
  wf x = true -> wf y = true -> isFinite x = true -> isFinite y = true ->
  (0 <= ord y <= unit_scale)%Z ->
  isFinite (x * y) = true.
Proof.
  intros Wx Wy Fx Fy Hy.
  destruct (mul_ord x y Wx Wy Fx Fy) as (W & N & _ & O).
  assert (Hu := unit_scale_pos). assert (Hc := cap_pos).
  assert (Bx : (- cap < ord x < cap)%Z).
  { destruct x as [s| | |s m e]; try discriminate; cbn [ord]; [lia|].
    assert (L := ord_finite_lt_cap _ _ _ Wx).
    destruct (wf_finite_bounds _ _ _ Wx) as (He & _).
    assert (P := ord_finite_pos m e ltac:(lia)).
    destruct s; cbn [cond_Zopp]; lia. }
  assert (Hb : (- cap < ord (x * y) < cap)%Z).
  { rewrite O.
    assert (E := R_exact x unit_scale Wx Hu).
    assert (E' : R (- ord x * unit_scale) unit_scale = (- ord x)%Z).
    { rewrite Z.mul_opp_l, R_opp, E; trivial. }
    destruct (Z_le_gt_dec 0 (ord x)).
    - assert (R (ord x * ord y) unit_scale <= R (ord x * unit_scale) unit_scale)%Z
        by (apply R_mono; nia).
      assert (0 <= R (ord x * ord y) unit_scale)%Z by (apply R_nonneg; nia).
      lia.
    - assert (R (ord x * unit_scale) unit_scale <= R (ord x * ord y) unit_scale)%Z
        by (apply R_mono; nia).
      assert (R (ord x * ord y) unit_scale <= R 0 unit_scale)%Z
        by (apply R_mono; nia).
      rewrite R_0 in * by trivial. lia. }
  clear - Hb Hc N. destruct (x * y) as [s|s| |s m e]; try reflexivity.
  - cbn [ord] in Hb. destruct s; cbn [cond_Zopp] in Hb; lia.
  - discriminate.
Qed.

Lemma eventSavings_wf sc ev :
  wf_event ev = true -> wf (eventSavings sc ev) = true.
Proof.
  unfold wf_event. intros H. apply andb_true_iff in H. destruct H.
  unfold eventSavings. destruct (health_reduction_shape sc) as (W & _).
  apply mul_wf; [apply mul_wf|]; trivial.
Qed.

Lemma zero_mul_pos_finite z r :
  is_zero z = true -> pos_finite r -> is_zero (z * r) = true.
Proof. intros Hz (m & e & ->). now destruct z. Qed.

Lemma zero_mul_finite_l x k :
  isFinite x = true -> is_zero k = true -> is_zero (x * k) = true.
Proof. intros Hx Hk. destruct k; try discriminate. now destruct x. Qed.

Lemma eventSavings_neutral sc ev :
  wf_event ev = true -> neutral_event ev = true ->
  is_zero (eventSavings sc ev) = true.
Proof.
  unfold wf_event, neutral_event. intros W H.
  apply andb_true_iff in W. destruct W as [Wc Wk].
  destruct (health_reduction_shape sc) as (Wr & Pr & Br).
  unfold eventSavings.
  apply orb_true_iff in H. destruct H as [H|H];
    apply andb_true_iff in H; destruct H as [H1 H2].
  - apply zero_mul_finite; trivial. now apply zero_mul_pos_finite.
  - apply zero_mul_finite_l; trivial.
    apply mul_shrink_finite; trivial.
    destruct Pr as (m & e & ->). reflexivity.
Qed.

(** A sum is the negative zero only when both summands are. *)
Lemma add_neg_zero x y :
  wf x = true -> wf y = true ->
  x + y = nzero -> x = nzero /\ y = nzero.
Proof.
  intros Wx Wy H.
  destruct x as [sx|sx| |sx mx ex], y as [sy|sy| |sy my ey];
    try discriminate.
  - now destruct sx, sy.
  - now destruct sx, sy.
  - destruct (add_finite_ord sx mx ex sy my ey Wx Wy) as (_ & _ & _ & Hz).
    rewrite H in Hz. discriminate Hz. reflexivity.
Qed.

Lemma add_neutral acc z :
  acc <> nzero -> is_zero z = true -> acc + z = acc.
Proof.
  intros Ha Hz. destruct z as [sz| | |]; try discriminate.
  destruct acc as [[|]| | |]; try reflexivity.
  - now elim Ha.
  - now destruct sz.
Qed.

Lemma fold_never_neg_zero sc l : forall acc,
  wf acc = true -> acc <> nzero -> forallb wf_event l = true ->
  let r := fold_left (fun acc ev => acc + eventSavings sc ev) l acc in
  wf r = true /\ r <> nzero.
Proof.
  induction l as [|ev l IH]; intros acc Wa Na Hl; cbn [fold_left].
  - now split.
  - cbn [forallb] in Hl. apply andb_true_iff in Hl. destruct Hl as [Hev Hl'].
    assert (We := eventSavings_wf sc ev Hev).
    apply IH; trivial.
    + now apply add_wf.
    + intros E. apply add_neg_zero in E; trivial. now destruct E.
Qed.

Lemma healthSavings_insert_neutral sc z l1 l2 :
  forallb wf_event l1 = true ->
  wf_event z = true -> neutral_event z = true ->
  fold_left (fun acc ev => acc + eventSavings sc ev) (l1 ++ z :: l2) (of_Z 0)
  = fold_left (fun acc ev => acc + eventSavings sc ev) (l1 ++ l2) (of_Z 0).
Proof.
  intros Hl Wz Nz. rewrite !fold_left_app. cbn [fold_left].
  destruct (fold_never_neg_zero sc l1 (of_Z 0)) as [_ Hn]; trivial;
    try easy.
  rewrite add_neutral; trivial. now apply eventSavings_neutral.
Qed.

End NeutralEvent.

(** ** The savings terms across scenarios *)

Section Monotone.
Local Open Scope num_scope.

Lemma nonneg_finite_inv x :
  nonneg_finite x = true ->
  wf x = true /\ isFinite x = true /\ leb (of_Z 0) x = true.
Proof.
  unfold nonneg_finite. intros H.
  apply andb_true_iff in H. destruct H as [H H3].
  apply andb_true_iff in H. now destruct H.
Qed.

Lemma is_pos_finite_inv x : is_pos_finite x = true -> pos_finite x.
Proof.
  destruct x as [| | |[|] m e]; try discriminate. intros _.
  now exists m, e.
Qed.

Lemma pos_finite_facts x :
  pos_finite x -> isFinite x = true /\ isNaN x = false
                  /\ leb (of_Z 0) x = true.
Proof. intros (m & e & ->). now repeat split. Qed.

(* the three scenario-dependent factors *)
Lemma death_complement_facts s1 s2 :
  scenario_le s1 s2 = true ->
  wf (of_Z 1 - Body.deathReduction s1) = true
  /\ wf (of_Z 1 - Body.deathReduction s2) = true
  /\ leb (of_Z 1 - Body.deathReduction s2) (of_Z 1 - Body.deathReduction s1)
     = true.
Proof.
  destruct s1, s2; intros H; vm_compute in H; try discriminate H;
    now vm_compute.
Qed.

Lemma sold_complement_facts s1 s2 :
  scenario_le s1 s2 = true ->
  wf (of_Z 1 - Body.soldReduction s1) = true
  /\ wf (of_Z 1 - Body.soldReduction s2) = true
  /\ leb (of_Z 1 - Body.soldReduction s2) (of_Z 1 - Body.soldReduction s1)
     = true.
Proof.
  destruct s1, s2; intros H; vm_compute in H; try discriminate H;
    now vm_compute.
Qed.

Lemma health_reduction_facts s1 s2 :
  scenario_le s1 s2 = true ->
  leb (HEALTH_EVENT_REDUCTION_BASE * Body.mult s1)
      (HEALTH_EVENT_REDUCTION_BASE * Body.mult s2) = true.
Proof.
  destruct s1, s2; intros H; vm_compute in H; try discriminate H;
    now vm_compute.
Qed.

(* ---------- death events ---------- *)
Lemma death_chain_mono d x sv c1 c2 :
  nonneg_finite d = true -> wf x = true -> pos_finite x ->
  nonneg_finite sv = true ->
  wf c1 = true -> wf c2 = true -> pos_finite c1 -> pos_finite c2 ->
  leb c2 c1 = true ->
  let F c := (d - (if d / x === of_Z 0 then d
                   else (d * (d / x * c)) / (d / x))) * sv in
  wf (F c1) = true /\ wf (F c2) = true
  /\ (isNaN (F c1) = false -> isNaN (F c2) = false ->
      leb (F c1) (F c2) = true).
Proof.
  intros Hd Wx Px Hsv W1 W2 P1 P2 Hc F.
  destruct (nonneg_finite_inv _ Hd) as (Wd & Fd & Gd).
  destruct (nonneg_finite_inv _ Hsv) as (Wsv & Fsv & Gsv).
  destruct (div_ge0 d x Wd Wx Fd Gd Px) as (Wdi & Gdi).
  assert (Wt : forall c, wf c = true ->
             wf (if d / x === of_Z 0 then d else (d * (d / x * c)) / (d / x))
             = true).
  { intros c Wc. destruct (_ === _); trivial.
    apply div_wf; trivial. apply mul_wf; trivial. now apply mul_wf. }
  assert (WF : forall c, wf c = true -> wf (F c) = true).
  { intros c Wc. unfold F. apply mul_wf; trivial. apply sub_wf; auto. }
  split; [auto|]. split; [auto|]. intros N1 N2.
  (* the incidence is zero or a positive finite number *)
  assert (Pdi : (d / x === of_Z 0) = false -> pos_finite (d / x)).
  { intros G. unfold F in N1.
    destruct (d / x) as [s|s| |s m e] eqn:E; try discriminate.
    - exfalso. rewrite (death_chain_poisoned d (S754_infinity s) c1) in N1.
      + rewrite sub_NaN_r, mul_NaN_l in N1. discriminate.
      + trivial.
      + right. now exists s.
    - destruct s; [discriminate|]. now exists m, e. }
  unfold F in *.
  destruct (d / x === of_Z 0) eqn:G.
  { apply leb_refl; trivial. }
  specialize (Pdi eq_refl).
  destruct (mul_not_NaN _ _ N1) as [N1a _].
  destruct (mul_not_NaN _ _ N2) as [N2a _].
  destruct (sub_not_NaN _ _ N1a) as [Nd N1b].
  destruct (sub_not_NaN _ _ N2a) as [_ N2b].
  destruct (div_not_NaN _ _ N1b) as [N1c _].
  destruct (div_not_NaN _ _ N2b) as [N2c _].
  destruct (mul_not_NaN _ _ N1c) as [_ N1d].
  destruct (mul_not_NaN _ _ N2c) as [_ N2d].
  assert (S1 : leb (d / x * c2) (d / x * c1) = true)
    by (apply mul_mono_r; trivial).
  assert (S2 : leb (d * (d / x * c2)) (d * (d / x * c1)) = true)
    by (apply mul_mono_r; trivial; now apply mul_wf).
  assert (S3 : leb ((d * (d / x * c2)) / (d / x))
                   ((d * (d / x * c1)) / (d / x)) = true).
  { apply div_mono_l; trivial; apply mul_wf; trivial; now apply mul_wf. }
  apply mul_mono_l; trivial.
  - apply sub_wf; trivial. apply div_wf; trivial.
    apply mul_wf; trivial. now apply mul_wf.
  - apply sub_wf; trivial. apply div_wf; trivial.
    apply mul_wf; trivial. now apply mul_wf.
  - apply sub_mono; trivial.
    + apply div_wf; trivial. apply mul_wf; trivial. now apply mul_wf.
    + apply div_wf; trivial. apply mul_wf; trivial. now apply mul_wf.
    + now apply leb_refl.
Qed.

(* ---------- culling ---------- *)
Lemma culling_chain_mono s f rc sv c1 c2 :
  nonneg_finite s = true -> wf f = true -> pos_finite f ->
  nonneg_finite sv = true -> wf rc = true -> isFinite rc = true ->
  leb sv rc = true ->
  wf c1 = true -> wf c2 = true -> leb c2 c1 = true ->
  let G c := (s / f - s / f * c) * s * (rc - sv) in
  wf (G c1) = true /\ wf (G c2) = true
  /\ (isNaN (G c1) = false -> isNaN (G c2) = false ->
      leb (G c1) (G c2) = true).
Proof.
  intros Hs Wf Pf Hsv Wrc Frc Hrc W1 W2 Hc G.
  destruct (nonneg_finite_inv _ Hs) as (Ws & Fs & Gs).
  destruct (nonneg_finite_inv _ Hsv) as (Wsv & Fsv & Gsv).
  destruct (div_ge0 s f Ws Wf Fs Gs Pf) as (Wsr & Gsr).
  assert (Wm : wf (rc - sv) = true) by now apply sub_wf.
  assert (Gm : leb (of_Z 0) (rc - sv) = true) by now apply sub_ge0.
  assert (Wd : forall c, wf c = true -> wf (s / f - s / f * c) = true).
  { intros c Wc. apply sub_wf; trivial. now apply mul_wf. }
  assert (WG : forall c, wf c = true -> wf (G c) = true).
  { intros c Wc. unfold G. apply mul_wf; trivial. apply mul_wf; auto. }
  split; [auto|]. split; [auto|]. intros N1 N2. unfold G in *.
  destruct (mul_not_NaN _ _ N1) as [N1a _].
  destruct (mul_not_NaN _ _ N2) as [N2a _].
  destruct (mul_not_NaN _ _ N1a) as [N1b _].
  destruct (mul_not_NaN _ _ N2a) as [N2b _].
  destruct (sub_not_NaN _ _ N1b) as [Nsr N1c].
  destruct (sub_not_NaN _ _ N2b) as [_ N2c].
  apply mul_mono_l; trivial; try (apply mul_wf; auto).
  apply mul_mono_l; auto.
  apply sub_mono; trivial; try (now apply mul_wf).
  - now apply leb_refl.
  - now apply mul_mono_r.
Qed.

(* ---------- health events ---------- *)
Lemma eventSavings_mono s1 s2 ev :
  scenario_le s1 s2 = true -> nonneg_event ev = true ->
  wf (eventSavings s1 ev) = true /\ wf (eventSavings s2 ev) = true
  /\ (isNaN (eventSavings s1 ev) = false ->
      isNaN (eventSavings s2 ev) = false ->
      leb (eventSavings s1 ev) (eventSavings s2 ev) = true).
Proof.
  intros Hs Hev. unfold nonneg_event in Hev.
  apply andb_true_iff in Hev. destruct Hev as [Hc Hk].
  destruct (nonneg_finite_inv _ Hc) as (Wc & Fc & Gc).
  destruct (nonneg_finite_inv _ Hk) as (Wk & Fk & Gk).
  destruct (health_reduction_shape s1) as (Wr1 & _).
  destruct (health_reduction_shape s2) as (Wr2 & _).
  assert (Hr := health_reduction_facts s1 s2 Hs).
  unfold eventSavings.
  split; [apply mul_wf; trivial; now apply mul_wf|].
  split; [apply mul_wf; trivial; now apply mul_wf|].
  intros N1 N2.
  destruct (mul_not_NaN _ _ N1) as [N1a _].
  destruct (mul_not_NaN _ _ N2) as [N2a _].
  apply mul_mono_l; trivial; try (now apply mul_wf).
  now apply mul_mono_r.
Qed.

Lemma fold_NaN sc l :
  fold_left (fun acc ev => acc + eventSavings sc ev) l NaN = NaN.
Proof. induction l as [|ev l IH]; cbn [fold_left]; trivial. Qed.

Lemma fold_not_NaN sc l acc :
  isNaN (fold_left (fun acc ev => acc + eventSavings sc ev) l acc) = false ->
  isNaN acc = false.
Proof.
  intros H. destruct acc; trivial. now rewrite fold_NaN in H.
Qed.

Lemma health_fold_wf sc l : forall a,
  wf a = true -> forallb nonneg_event l = true ->
  wf (fold_left (fun acc ev => acc + eventSavings sc ev) l a) = true.
Proof.
  induction l as [|ev l IH]; intros a Wa Hl; cbn [fold_left]; trivial.
  cbn [forallb] in Hl. apply andb_true_iff in Hl. destruct Hl as [Hev Hl].
  apply IH; trivial. apply add_wf; trivial.
  assert (Hs : scenario_le sc sc = true) by now destruct sc.
  now destruct (eventSavings_mono sc sc ev Hs Hev).
Qed.

Lemma health_fold_mono s1 s2 l :
  scenario_le s1 s2 = true -> forallb nonneg_event l = true ->
  forall a1 a2,
  wf a1 = true -> wf a2 = true -> leb a1 a2 = true ->
  let h1 := fold_left (fun acc ev => acc + eventSavings s1 ev) l a1 in
  let h2 := fold_left (fun acc ev => acc + eventSavings s2 ev) l a2 in
  isNaN h1 = false -> isNaN h2 = false -> leb h1 h2 = true.
Proof.
  intros Hs. induction l as [|ev l IH]; intros Hl a1 a2 W1 W2 Ha;
    cbn [fold_left]; cbn zeta; trivial.
  intros N1 N2.
  cbn [forallb] in Hl. apply andb_true_iff in Hl. destruct Hl as [Hev Hl].
  destruct (eventSavings_mono s1 s2 ev Hs Hev) as (We1 & We2 & He).
  assert (M1 := fold_not_NaN _ _ _ N1). assert (M2 := fold_not_NaN _ _ _ N2).
  destruct (add_not_NaN _ _ M1) as [_ E1].
  destruct (add_not_NaN _ _ M2) as [_ E2].
  apply IH; trivial; try (now apply add_wf).
  apply add_mono; auto.
Qed.

End Monotone.

Section Savings.
Local Open Scope num_scope.

Lemma round_wf x : wf x = true -> wf (round x) = true.
Proof.
  intros W. destruct x as [s|s| |s m e]; trivial. unfold round.
  destruct (0 <=? e)%Z; trivial.
  apply binary_normalize_spec. rewrite emin_eq. lia.
Qed.

Lemma wf_inputs_inv st :
  wf_inputs st = true ->
  wf (milkingCows st) = true /\ wf (freshPerYear st) = true
  /\ wf (replacementCost st) = true /\ wf (salvageValue st) = true
  /\ wf (milkPrice st) = true /\ wf (lbMilkPerLbDM st) = true
  /\ wf (dmCost st) = true /\ wf (deathEvents st) = true
  /\ wf (soldEvents st) = true
  /\ forallb wf_event (healthEvents st) = true.
Proof.
  unfold wf_inputs. intros H.
  repeat (apply andb_true_iff in H; destruct H as [H ?]).
  now repeat split.
Qed.

Lemma fresh_wf st : wf_inputs st = true -> wf (Body.fresh st) = true.
Proof.
  intros H. destruct (wf_inputs_inv st H) as (Wm & Wf & _).
  unfold Body.fresh. destruct (freshOverride st); trivial.
  apply round_wf. now apply mul_wf.
Qed.

Lemma production_wf st sc :
  wf_inputs st = true -> wf (Body.productionSavingsAnnual st sc) = true.
Proof.
  intros H.
  destruct (wf_inputs_inv st H) as (Wm & _ & _ & _ & Wp & Wl & Wd & _).
  assert (Wg : wf (Body.gainPercent sc) = true)
    by (destruct sc; vm_compute; reflexivity).
  assert (W100 : wf (of_Z 100) = true) by (vm_compute; reflexivity).
  assert (W210 : wf (of_Z 210) = true) by (vm_compute; reflexivity).
  unfold Body.productionSavingsAnnual, Body.netIOFCPerCowDay,
    Body.extraRevenuePerCowDay, Body.extraDMCostPerCowDay,
    Body.extraDMLbPerCowDay, Body.m.
  apply mul_wf; trivial. apply mul_wf; trivial. apply sub_wf.
  - apply div_wf; trivial. now apply mul_wf.
  - apply mul_wf; trivial. now apply div_wf.
Qed.

Lemma savings_mono st s1 s2 :
  wf_inputs st = true -> monotone_inputs st = true ->
  scenario_le s1 s2 = true ->
  leb (Body.productionSavingsAnnual st s1)
      (Body.productionSavingsAnnual st s2) = true ->
  isNaN (Body.totalSavingsAnnual st s1) = false ->
  isNaN (Body.totalSavingsAnnual st s2) = false ->
  leb (Body.totalSavingsAnnual st s1) (Body.totalSavingsAnnual st s2) = true.
Proof.
  intros Hwf Hm Hs Hp N1 N2.
  destruct (wf_inputs_inv st Hwf)
    as (Wm & _ & Wrc & Wsv & _ & _ & _ & Wd & Wso & _).
  assert (Wfr := fresh_wf st Hwf).
  unfold monotone_inputs in Hm.
  repeat (apply andb_true_iff in Hm; destruct Hm as [Hm ?]).
  rename Hm into Pm, H into Hev, H0 into Hrc, H1 into Frc, H2 into Hsv,
    H3 into Hso, H4 into Hd, H5 into Pf.
  apply is_pos_finite_inv in Pm. apply is_pos_finite_inv in Pf.
  destruct (death_complement_facts s1 s2 Hs) as (Wc1 & Wc2 & Hc).
  destruct (sold_complement_facts s1 s2 Hs) as (Wk1 & Wk2 & Hk).
  (* the four terms *)
  destruct (death_chain_mono (deathEvents st) (milkingCows st)
              (salvageValue st) _ _ Hd Wm Pm Hsv Wc1 Wc2
              (death_complement_pos s1) (death_complement_pos s2) Hc)
    as (Wd1 & Wd2 & Md).
  destruct (culling_chain_mono (soldEvents st) (Body.fresh st)
              (replacementCost st) (salvageValue st) _ _
              Hso Wfr Pf Hsv Wrc Frc Hrc Wk1 Wk2 Hk)
    as (Wcu1 & Wcu2 & Mc).
  assert (Wh1 : wf (Body.healthSavings st s1) = true).
  { rewrite healthSavings_eventSavings. now apply health_fold_wf. }
  assert (Wh2 : wf (Body.healthSavings st s2) = true).
  { rewrite healthSavings_eventSavings. now apply health_fold_wf. }
  assert (Mh : isNaN (Body.healthSavings st s1) = false ->
               isNaN (Body.healthSavings st s2) = false ->
               leb (Body.healthSavings st s1) (Body.healthSavings st s2)
               = true).
  { rewrite !healthSavings_eventSavings.
    now apply health_fold_mono. }
  assert (Wp1 := production_wf st s1 Hwf).
  assert (Wp2 := production_wf st s2 Hwf).
  change (wf (Body.deathSavings st s1) = true) in Wd1.
  change (wf (Body.deathSavings st s2) = true) in Wd2.
  change (isNaN (Body.deathSavings st s1) = false ->
          isNaN (Body.deathSavings st s2) = false ->
          leb (Body.deathSavings st s1) (Body.deathSavings st s2) = true)
    in Md.
  change (wf (Body.cullingSavings st s1) = true) in Wcu1.
  change (wf (Body.cullingSavings st s2) = true) in Wcu2.
  change (isNaN (Body.cullingSavings st s1) = false ->
          isNaN (Body.cullingSavings st s2) = false ->
          leb (Body.cullingSavings st s1) (Body.cullingSavings st s2) = true)
    in Mc.
  unfold Body.totalSavingsAnnual in *.
  destruct (add_not_NaN _ _ N1) as [N1a _].
  destruct (add_not_NaN _ _ N2) as [N2a _].
  destruct (add_not_NaN _ _ N1a) as [N1b N1h].
  destruct (add_not_NaN _ _ N2a) as [N2b N2h].
  destruct (add_not_NaN _ _ N1b) as [N1d N1c].
  destruct (add_not_NaN _ _ N2b) as [N2d N2c].
  apply add_mono; trivial; try (repeat apply add_wf; trivial).
  apply add_mono; auto; try (repeat apply add_wf; trivial).
  apply add_mono; auto.
Qed.

End Savings.

(** * More on the order of numbers *)

Section MoreOrder.

Local Open Scope num_scope.

Lemma sub_zero_r x : x - of_Z 0 = x.
Proof. destruct x as [[]|[]| |s m e]; reflexivity. Qed.

Lemma ord_pos_sign x : (0 < ord x)%Z -> sign_bit x = false.
Proof.
  assert (C := cap_pos).
  destruct x as [s|s| |s m e]; cbn [ord sign_bit]; intros H; try lia.
  - destruct s; trivial. unfold cond_Zopp in H. lia.
  - destruct s; trivial. unfold cond_Zopp in H.
    assert (0 <= 2 ^ (e - emin))%Z by apply Z.pow_nonneg, Z.le_refl || lia.
    nia.
Qed.

Lemma ord_pos_finite x :
  wf x = true -> isFinite x = true -> (0 < ord x)%Z -> pos_finite x.
Proof.
  intros W F H. assert (S := ord_pos_sign x H).
  destruct x as [s|s| |s m e]; try discriminate.
  cbn [sign_bit] in S. subst s. unfold pos_finite. eauto.
Qed.

Lemma pos_finite_ord x : wf x = true -> pos_finite x -> (0 < ord x)%Z.
Proof.
  intros W (mx & ex & ->). cbn [ord cond_Zopp].
  apply ord_finite_pos. now apply wf_finite_bounds in W.
Qed.

Lemma gt0_ord x :
  wf x = true -> gtb x (of_Z 0) = true -> isNaN x = false /\ (0 < ord x)%Z.
Proof.
  intros W H. unfold gtb in H. fold (ltb (of_Z 0) x) in H.
  assert (N : isNaN x = false) by (now destruct x).
  split; trivial.
  apply ltb_ord in H; trivial.
Qed.

Lemma ord_gt0 x :
  wf x = true -> isNaN x = false -> (0 < ord x)%Z -> gtb x (of_Z 0) = true.
Proof.
  intros W N H. unfold gtb. fold (ltb (of_Z 0) x).
  apply ltb_ord; trivial.
Qed.

Lemma div_self x : wf x = true -> pos_finite x -> x / x = of_Z 1.
Proof.
  intros W P. assert (Hx := pos_finite_ord x W P).
  destruct P as (mx & ex & E).
  assert (D := div_ord_pos x mx ex W). rewrite <- E in D.
  destruct (D W) as (Wd & Nd & Od); [now rewrite E|]. clear D.
  assert (O1 : ord (x / x) = unit_scale).
  { rewrite Od, Z.mul_comm, <- ord_one. now apply R_exact. }
  apply ord_inj; trivial.
  rewrite (ord_pos_sign (x / x)); trivial.
  rewrite O1. apply unit_scale_pos.
Qed.

Lemma div_inf_pos s c :
  pos_finite c -> S754_infinity s / c = S754_infinity s.
Proof. intros (mc & ec & ->). now destruct s. Qed.

(** Dividing by a number that is at least 1 brings a number nearer to
    zero, on its side of zero. *)
Lemma div_by_ge1 x c :
  wf x = true -> wf c = true -> isNaN x = false -> pos_finite c ->
  (unit_scale <= ord c)%Z ->
  wf (x / c) = true /\ isNaN (x / c) = false
  /\ ((0 <= ord x)%Z ->
      leb (of_Z 0) (x / c) = true /\ leb (x / c) x = true)
  /\ ((ord x <= 0)%Z ->
      leb x (x / c) = true /\ leb (x / c) (of_Z 0) = true).
Proof.
  intros Wx Wc Nx Pc Hc. assert (Oc := pos_finite_ord c Wc Pc).
  assert (U := unit_scale_pos).
  assert (W0 : wf (of_Z 0) = true) by reflexivity.
  destruct (isFinite x) eqn:F.
  - destruct Pc as (mc & ec & E).
    assert (D := div_ord_pos x mc ec Wx). rewrite <- E in D.
    destruct (D Wc F) as (Wd & Nd & Od). clear D.
    assert (Ex := R_exact x (ord c) Wx Oc).
    split; [trivial|split; [trivial|split]]; intros H.
    + assert (0 <= ord (x / c) <= ord x)%Z.
      { rewrite Od. split; [apply R_nonneg; nia|].
        rewrite <- Ex at 2. apply R_mono; nia. }
      split; [apply ord_ge0 | apply leb_ord]; trivial; lia.
    + assert (ord x <= ord (x / c) <= 0)%Z.
      { rewrite Od. split.
        - rewrite <- Ex at 1. apply R_mono; nia.
        - rewrite <- (R_0 (ord c)) by trivial. apply R_mono; nia. }
      split; apply leb_ord; trivial; change (ord (of_Z 0)) with 0%Z; lia.
  - assert (C := cap_pos).
    destruct (not_finite_cases x Nx F) as [-> | ->];
      unfold pInf, nInf; rewrite div_inf_pos by trivial;
      (split; [reflexivity|split; [reflexivity|split]]);
      cbn [ord cond_Zopp]; intros H; try lia; split; reflexivity.
Qed.

Lemma mul_pos_not_NaN x y :
  wf x = true -> wf y = true -> isNaN x = false -> pos_finite y ->
  isNaN (x * y) = false.
Proof.
  intros Wx Wy Nx Py. destruct (isFinite x) eqn:F.
  - apply mul_ord; trivial. now apply pos_finite_facts.
  - destruct Py as (my & ey & ->).
    now destruct (not_finite_cases x Nx F) as [-> | ->].
Qed.

(** A difference that is positive has a larger first term. *)
Lemma sub_pos_le x y :
  wf x = true -> wf y = true -> isFinite y = true ->
  gtb (x - y) (of_Z 0) = true -> leb y x = true.
Proof.
  intros Wx Wy Fy H.
  destruct (gt0_ord (x - y) (sub_wf x y Wx Wy) H) as [N O].
  destruct (sub_not_NaN x y N) as [Nx Ny].
  destruct (isFinite x) eqn:F.
  - destruct (sub_ord x y Wx Wy F Fy) as (_ & _ & Os).
    apply leb_ord; trivial.
    destruct (Z_le_gt_dec (ord y) (ord x)) as [L|G]; trivial.
    exfalso. assert (R (ord x - ord y) 1 <= R 0 1)%Z
      by (apply R_mono; lia).
    rewrite R_0 in * by lia. lia.
  - destruct (not_finite_cases x Nx F) as [-> | ->].
    + now apply leb_pInf.
    + exfalso. unfold nInf in *. rewrite sub_inf_l in O by trivial.
      assert (C := cap_pos). cbn [ord cond_Zopp] in O. lia.
Qed.

Lemma leb_finite_between x a b :
  wf x = true -> wf a = true -> wf b = true ->
  isFinite a = true -> isFinite b = true ->
  leb a x = true -> leb x b = true -> isFinite x = true.
Proof.
  intros Wx Wa Wb Fa Fb Ha Hb.
  destruct (leb_not_NaN _ _ Ha) as [_ Nx].
  destruct (isFinite x) eqn:F; trivial.
  destruct (not_finite_cases x Nx F) as [-> | ->].
  - apply leb_pInf_l in Hb. now subst b.
  - apply leb_nInf_r in Ha. now subst a.
Qed.

End MoreOrder.

(** * The relative error of a rounding *)

Section RelativeError.

(** In the normal range the rounded quotient is within [2 ^ -52] of the
    exact one, in relative terms. *)
Lemma Rpos_rel N D :
  0 < D -> 2 ^ 52 * D <= N -> 2 * N <= D * cap ->
  (2 ^ 52 - 1) * N <= 2 ^ 52 * (D * Rpos N D) <= (2 ^ 52 + 1) * N
  /\ Rpos N D < cap.
Proof.
  intros HD HN Hcap. assert (C := cap_pos).
  assert (Hf : 2 ^ 52 <= N / D) by (apply Z.div_le_lower_bound; lia).
  assert (HfD : D * (N / D) <= N) by (apply Z.mul_div_le; lia).
  unfold Rpos, rshift.
  remember (N / D) as f eqn:Ef.
  destruct (Zdigits2_bounds f) as [B1 B2]; [lia|].
  remember (Zdigits2 f) as d eqn:Ed.
  assert (Hd : 53 <= d).
  { destruct (Z_lt_le_dec d 53) as [L|L]; trivial. exfalso.
    assert (0 <= d) by (subst d; apply Zdigits2_nonneg).
    assert (2 ^ d <= 2 ^ 52) by (apply pow2_le; lia). lia. }
  replace (Z.max 0 (d - prec)) with (d - 53) by (unfold prec; lia).
  remember (d - 53) as s eqn:Es.
  assert (Hs : 0 <= s) by lia.
  assert (P := pow2_pos s Hs).
  assert (E : 2 ^ (d - 1) = 2 ^ s * 2 ^ 52).
  { rewrite <- pow2_split by lia. f_equal. lia. }
  rewrite E in B1.
  remember (2 ^ s) as p eqn:Ep.
  assert (HD' : 0 < D * p) by nia.
  assert (L := rne_lower N (D * p)). assert (U := rne_upper N (D * p)).
  assert (M1 := Z.mul_div_le N (D * p) HD').
  assert (M2 := Z.mul_succ_div_gt N (D * p) HD').
  remember (rne N (D * p)) as r eqn:Er.
  remember (N / (D * p)) as t eqn:Et.
  assert (Hlo : N - D * p <= r * (D * p)) by nia.
  assert (Hhi : r * (D * p) <= N + D * p) by nia.
  assert (HK : 2 ^ 52 * (D * p) <= N) by nia.
  assert (R0 : 2 ^ 52 * (D * (r * p)) <= (2 ^ 52 + 1) * N) by nia.
  assert (R1 : (2 ^ 52 - 1) * N <= 2 ^ 52 * (D * (r * p))) by nia.
  assert (R2 : r * p < cap).
  { destruct (Z_lt_le_dec (r * p) cap) as [H|H]; trivial. exfalso.
    assert (D * cap <= D * (r * p)) by nia. nia. }
  rewrite Z.min_l by lia. repeat split; trivial.
Qed.

Lemma R_rel N D :
  0 < D -> 2 ^ 52 * D <= N -> 2 * N <= D * cap ->
  (2 ^ 52 - 1) * N <= 2 ^ 52 * (D * R N D) <= (2 ^ 52 + 1) * N
  /\ 0 <= R N D < cap.
Proof.
  intros HD HN Hcap.
  assert (0 <= N) by nia.
  destruct (Rpos_rel N D HD HN Hcap) as [H1 H2].
  assert (H3 := Rpos_nonneg N D H HD).
  unfold R. destruct (Z.ltb_spec N 0); [lia|]. repeat split; lia.
Qed.

Lemma ord_lt_cap_finite r :
  isNaN r = false -> - cap < ord r < cap -> isFinite r = true.
Proof.
  destruct r as [s|s| |s m e]; trivial; try discriminate.
  intros _ H. destruct s; cbn [ord cond_Zopp] in H; lia.
Qed.

Lemma mul_rel x y :
  wf x = true -> wf y = true -> isFinite x = true -> isFinite y = true ->
  2 ^ 52 * unit_scale <= ord x * ord y ->
  2 * (ord x * ord y) <= unit_scale * cap ->
  wf (mul x y) = true /\ isFinite (mul x y) = true
  /\ (2 ^ 52 - 1) * (ord x * ord y)
     <= 2 ^ 52 * (unit_scale * ord (mul x y))
     <= (2 ^ 52 + 1) * (ord x * ord y).
Proof.
  intros Wx Wy Fx Fy H1 H2. assert (U := unit_scale_pos).
  destruct (mul_ord x y Wx Wy Fx Fy) as (W & N & _ & O).
  destruct (R_rel _ _ U H1 H2) as [B1 B2]. rewrite <- O in B1, B2.
  split; [trivial|split; [|trivial]].
  apply ord_lt_cap_finite; trivial. lia.
Qed.

Lemma div_rel x y :
  wf x = true -> wf y = true -> isFinite x = true -> pos_finite y ->
  2 ^ 52 * ord y <= ord x * unit_scale ->
  2 * (ord x * unit_scale) <= ord y * cap ->
  wf (div x y) = true /\ isFinite (div x y) = true
  /\ (2 ^ 52 - 1) * (ord x * unit_scale)
     <= 2 ^ 52 * (ord y * ord (div x y))
     <= (2 ^ 52 + 1) * (ord x * unit_scale).
Proof.
  intros Wx Wy Fx Py H1 H2. assert (Oy := pos_finite_ord y Wy Py).
  destruct Py as (my & ey & E).
  assert (D := div_ord_pos x my ey Wx). rewrite <- E in D.
  destruct (D Wy Fx) as (W & N & O). clear D.
  destruct (R_rel _ _ Oy H1 H2) as [B1 B2]. rewrite <- O in B1, B2.
  split; [trivial|split; [|trivial]].
  apply ord_lt_cap_finite; trivial. lia.
Qed.

End RelativeError.

(** * The production term and the scenario *)

Section FeedScale.

Lemma feed_scale_facts :
  0 < ord (two_to (-300))
  /\ ord (two_to (-300)) * ord (two_to 300) = unit_scale * unit_scale
  /\ 2 ^ 52 * 100 <= ord (two_to (-300))
  /\ 16 * ord (two_to 300) <= cap
  /\ 2 ^ 52 * unit_scale <= ord (two_to (-300)) * ord (two_to (-300))
  /\ 32 * (ord (two_to 300) * ord (two_to 300) * ord (two_to 300))
     <= unit_scale * unit_scale * cap
  /\ ord (of_Z 100) = 100 * unit_scale.
Proof.
  repeat split; try (vm_compute; reflexivity); vm_compute; discriminate.
Qed.

Lemma le_cancel_l c a b : 0 < c -> c * a <= c * b -> a <= b.
Proof. intros Hc H. now apply Z.mul_le_mono_pos_l in H. Qed.

End FeedScale.

Section Feed.

Local Open Scope num_scope.

Variables g mp lb dm : number.
Hypothesis Wg : wf g = true.
Hypothesis Wmp : wf mp = true.
Hypothesis Wlb : wf lb = true.
Hypothesis Wdm : wf dm = true.
Hypothesis Fg : isFinite g = true.
Hypothesis Fmp : isFinite mp = true.
Hypothesis Flb : isFinite lb = true.
Hypothesis Fdm : isFinite dm = true.
Hypothesis Gb : (2 * unit_scale <= ord g <= 8 * unit_scale)%Z.
Hypothesis Mb : (ord (two_to (-300)) <= ord mp <= ord (two_to 300))%Z.
Hypothesis Lb : (ord (two_to (-300)) <= ord lb <= ord (two_to 300))%Z.
Hypothesis Db : (ord (two_to (-300)) <= ord dm)%Z.
Hypothesis Mg : (101 * ord dm * unit_scale <= ord mp * ord lb)%Z.

(** The revenue term [(g * mp) / 100]. *)
Lemma revenue_rel :
  wf (g * mp / of_Z 100) = true /\ isFinite (g * mp / of_Z 100) = true
  /\ ((2 ^ 52 - 1) * (2 ^ 52 - 1) * (ord g * ord mp)
      <= 100 * (2 ^ 52 * 2 ^ 52) * (unit_scale * ord (g * mp / of_Z 100))
      <= (2 ^ 52 + 1) * (2 ^ 52 + 1) * (ord g * ord mp))%Z.
Proof.
  clear Wlb Wdm Flb Fdm Lb Db Mg.
  destruct feed_scale_facts as (Plo & Elh & F1 & F2 & F3 & F4 & E100).
  assert (U := unit_scale_pos). assert (C := cap_pos).
  remember (ord (two_to (-300))) as lo eqn:Elo.
  remember (ord (two_to 300)) as hi eqn:Ehi.
  remember unit_scale as u eqn:Eu.
  assert (P1 : (2 * u * lo <= ord g * ord mp)%Z)
    by (apply Z.mul_le_mono_nonneg; lia).
  assert (P2 : (ord g * ord mp <= 8 * u * hi)%Z)
    by (apply Z.mul_le_mono_nonneg; lia).
  destruct (mul_rel g mp Wg Wmp Fg Fmp) as (Wx & Fx & Bx).
  { rewrite <- Eu. nia. }
  { rewrite <- Eu. nia. }
  rewrite <- Eu in Bx.
  remember (ord (g * mp)) as X eqn:EX.
  remember (ord g * ord mp)%Z as GM eqn:EGM.
  assert (X1 : (lo <= X)%Z).
  { apply (le_cancel_l (2 ^ 52 * u)); [lia|]. nia. }
  assert (X2 : (X <= 16 * hi)%Z).
  { apply (le_cancel_l (2 ^ 52 * u)); [lia|]. nia. }
  assert (W100 : wf (of_Z 100) = true) by reflexivity.
  assert (P100 : pos_finite (of_Z 100)) by (vm_compute; eauto).
  destruct (div_rel (g * mp) (of_Z 100) Wx W100 Fx P100) as (Wa & Fa & Ba).
  { rewrite E100, <- EX, <- Eu. nia. }
  { rewrite E100, <- EX, <- Eu. nia. }
  rewrite E100, <- EX, <- Eu in Ba.
  split; [trivial|split; [trivial|]].
  remember (ord (g * mp / of_Z 100)) as a eqn:Ea.
  assert (Ba' : ((2 ^ 52 - 1) * X <= 100 * (2 ^ 52 * a)
                 <= (2 ^ 52 + 1) * X)%Z).
  { split; apply (le_cancel_l u); trivial; nia. }
  clear Ba.
  assert (S1 : (2 ^ 52 * u * (100 * (2 ^ 52 * a))
                <= 2 ^ 52 * u * ((2 ^ 52 + 1) * X))%Z)
    by (apply Z.mul_le_mono_nonneg_l; lia).
  assert (S2 : (2 ^ 52 * u * ((2 ^ 52 - 1) * X)
                <= 2 ^ 52 * u * (100 * (2 ^ 52 * a)))%Z)
    by (apply Z.mul_le_mono_nonneg_l; lia).
  split; lia.
Qed.

(** The gain per pound of dry matter, [g / lb]. *)
Lemma gain_per_lb_rel :
  wf (g / lb) = true /\ isFinite (g / lb) = true
  /\ (ord (two_to (-300)) <= ord (g / lb) <= 16 * ord (two_to 300))%Z
  /\ ((2 ^ 52 - 1) * (ord g * unit_scale)
      <= 2 ^ 52 * (ord lb * ord (g / lb))
      <= (2 ^ 52 + 1) * (ord g * unit_scale))%Z.
Proof.
  clear Wmp Wdm Fmp Fdm Mb Db Mg.
  destruct feed_scale_facts as (Plo & Elh & F1 & F2 & F3 & F4 & E100).
  assert (U := unit_scale_pos). assert (C := cap_pos).
  remember (ord (two_to (-300))) as lo eqn:Elo.
  remember (ord (two_to 300)) as hi eqn:Ehi.
  remember unit_scale as u eqn:Eu.
  assert (Plb : pos_finite lb) by (apply ord_pos_finite; trivial; lia).
  assert (P1 : (2 * (lo * hi) <= ord g * u)%Z) by nia.
  assert (P2 : (ord g * u <= 8 * (lo * hi))%Z) by nia.
  destruct (div_rel g lb Wg Wlb Fg Plb) as (Wq & Fq & Bq).
  { rewrite <- Eu. nia. }
  { rewrite <- Eu. nia. }
  rewrite <- Eu in Bq.
  remember (ord (g / lb)) as Q eqn:EQ.
  remember (ord lb) as L eqn:EL.
  remember (ord g) as G eqn:EG.
  split; [trivial|split; [trivial|split; [split|trivial]]].
  - apply (le_cancel_l (2 ^ 52 * L)); [lia|].
    assert (2 ^ 52 * (L * lo) <= 2 ^ 52 * (hi * lo))%Z by nia. nia.
  - apply (le_cancel_l (2 ^ 52 * L)); [lia|].
    assert (2 ^ 52 * (lo * (16 * hi)) <= 2 ^ 52 * (L * (16 * hi)))%Z by nia.
    nia.
Qed.

(** The feed term [(g / lb) * dm]. *)
Lemma feed_rel :
  wf (g / lb * dm) = true /\ isFinite (g / lb * dm) = true
  /\ ((2 ^ 52 - 1) * (2 ^ 52 - 1) * (ord g * ord dm)
      <= 2 ^ 52 * 2 ^ 52 * (ord lb * ord (g / lb * dm))
      <= (2 ^ 52 + 1) * (2 ^ 52 + 1) * (ord g * ord dm))%Z.
Proof.
  destruct gain_per_lb_rel as (Wq & Fq & [Q1 Q2] & Bq).
  destruct feed_scale_facts as (Plo & Elh & F1 & F2 & F3 & F4 & E100).
  assert (U := unit_scale_pos). assert (C := cap_pos).
  remember (ord (two_to (-300))) as lo eqn:Elo.
  remember (ord (two_to 300)) as hi eqn:Ehi.
  remember unit_scale as u eqn:Eu.
  remember (ord (g / lb)) as Q eqn:EQ.
  remember (ord lb) as L eqn:EL.
  remember (ord g) as G eqn:EG.
  remember (ord dm) as Dm eqn:EDm.
  assert (D0 : (0 <= Dm * u)%Z) by (apply Z.mul_nonneg_nonneg; lia).
  assert (D2 : (Dm * u <= hi * hi)%Z).
  { assert (ord mp * L <= hi * hi)%Z
      by (apply Z.mul_le_mono_nonneg; lia). lia. }
  assert (P3 : (lo * lo <= Q * Dm)%Z)
    by (apply Z.mul_le_mono_nonneg; lia).
  assert (P4 : (Q * Dm * u <= 16 * hi * (hi * hi))%Z).
  { rewrite <- Z.mul_assoc. apply Z.mul_le_mono_nonneg; lia. }
  destruct (mul_rel (g / lb) dm Wq Wdm Fq Fdm) as (Wb & Fb & Bb).
  { rewrite <- Eu, <- EQ, <- EDm. lia. }
  { rewrite <- Eu, <- EQ, <- EDm. apply (le_cancel_l u); trivial. nia. }
  rewrite <- Eu, <- EQ, <- EDm in Bb.
  split; [trivial|split; [trivial|]].
  remember (ord (g / lb * dm)) as b eqn:Eb.
  remember (Q * Dm)%Z as QD eqn:EQD.
  assert (T1 : (2 ^ 52 * (2 ^ 52 * (L * (u * b)))
                <= (2 ^ 52 + 1) * ((2 ^ 52 + 1) * (G * u * Dm)))%Z).
  { assert (2 ^ 52 * (L * QD) <= (2 ^ 52 + 1) * (G * u) * Dm)%Z.
    { subst QD. replace (2 ^ 52 * (L * (Q * Dm)))%Z
        with (2 ^ 52 * (L * Q) * Dm)%Z by ring.
      apply Z.mul_le_mono_nonneg_r; lia. }
    assert (2 ^ 52 * (u * b) * (2 ^ 52 * L)
            <= (2 ^ 52 + 1) * QD * (2 ^ 52 * L))%Z
      by (apply Z.mul_le_mono_nonneg_r; lia).
    nia. }
  assert (T2 : ((2 ^ 52 - 1) * ((2 ^ 52 - 1) * (G * u * Dm))
                <= 2 ^ 52 * (2 ^ 52 * (L * (u * b))))%Z).
  { assert ((2 ^ 52 - 1) * (G * u) * Dm <= 2 ^ 52 * (L * QD))%Z.
    { subst QD. replace (2 ^ 52 * (L * (Q * Dm)))%Z
        with (2 ^ 52 * (L * Q) * Dm)%Z by ring.
      apply Z.mul_le_mono_nonneg_r; lia. }
    assert ((2 ^ 52 - 1) * QD * (2 ^ 52 * L)
            <= 2 ^ 52 * (u * b) * (2 ^ 52 * L))%Z
      by (apply Z.mul_le_mono_nonneg_r; lia).
    nia. }
  split; apply (le_cancel_l u); trivial; nia.
Qed.

End Feed.

Section NetIOFC.

Local Open Scope num_scope.

Variables g1 g2 mp lb dm : number.
Hypothesis Wg1 : wf g1 = true.
Hypothesis Wg2 : wf g2 = true.
Hypothesis Wmp : wf mp = true.
Hypothesis Wlb : wf lb = true.
Hypothesis Wdm : wf dm = true.
Hypothesis Fg1 : isFinite g1 = true.
Hypothesis Fg2 : isFinite g2 = true.
Hypothesis Fmp : isFinite mp = true.
Hypothesis Flb : isFinite lb = true.
Hypothesis Fdm : isFinite dm = true.
Hypothesis Gb1 : (2 * unit_scale <= ord g1 <= 8 * unit_scale)%Z.
Hypothesis Gb2 : (2 * unit_scale <= ord g2 <= 8 * unit_scale)%Z.
Hypothesis Mb : (ord (two_to (-300)) <= ord mp <= ord (two_to 300))%Z.
Hypothesis Lb : (ord (two_to (-300)) <= ord lb <= ord (two_to 300))%Z.
Hypothesis Db : (ord (two_to (-300)) <= ord dm)%Z.
Hypothesis Mg : (101 * ord dm * unit_scale <= ord mp * ord lb)%Z.

(** The gains are far enough apart for the rounding errors. *)
Hypothesis Hc1 :
  (0 <= (2 ^ 52 - 1) * (2 ^ 52 - 1) * ord g2
        - (2 ^ 52 + 1) * (2 ^ 52 + 1) * ord g1)%Z.
Hypothesis Hc2 :
  (100 * ((2 ^ 52 + 1) * (2 ^ 52 + 1) * ord g2
          - (2 ^ 52 - 1) * (2 ^ 52 - 1) * ord g1)
   <= 101 * ((2 ^ 52 - 1) * (2 ^ 52 - 1) * ord g2
             - (2 ^ 52 + 1) * (2 ^ 52 + 1) * ord g1))%Z.

Lemma netIOFC_mono :
  wf (g1 * mp / of_Z 100 - g1 / lb * dm) = true
  /\ wf (g2 * mp / of_Z 100 - g2 / lb * dm) = true
  /\ isNaN (g1 * mp / of_Z 100 - g1 / lb * dm) = false
  /\ isNaN (g2 * mp / of_Z 100 - g2 / lb * dm) = false
  /\ leb (g1 * mp / of_Z 100 - g1 / lb * dm)
         (g2 * mp / of_Z 100 - g2 / lb * dm) = true.
Proof.
  destruct feed_scale_facts as (Plo & _).
  assert (U := unit_scale_pos).
  destruct (revenue_rel g1 mp Wg1 Wmp Fg1 Fmp Gb1 Mb) as (Wa1 & Fa1 & A1).
  destruct (revenue_rel g2 mp Wg2 Wmp Fg2 Fmp Gb2 Mb) as (Wa2 & Fa2 & A2).
  destruct (feed_rel g1 mp lb dm Wg1 Wlb Wdm Fg1 Flb Fdm Gb1 Mb Lb Db Mg)
    as (Wb1 & Fb1 & B1).
  destruct (feed_rel g2 mp lb dm Wg2 Wlb Wdm Fg2 Flb Fdm Gb2 Mb Lb Db Mg)
    as (Wb2 & Fb2 & B2).
  destruct (sub_ord _ _ Wa1 Wb1 Fa1 Fb1) as (W1 & N1 & O1).
  destruct (sub_ord _ _ Wa2 Wb2 Fa2 Fb2) as (W2 & N2 & O2).
  split; [trivial|split; [trivial|split; [trivial|split; [trivial|]]]].
  apply leb_ord; trivial. rewrite O1, O2. apply R_mono; [lia|].
  remember (ord (g1 * mp / of_Z 100)) as a1 eqn:Ea1.
  remember (ord (g2 * mp / of_Z 100)) as a2 eqn:Ea2.
  remember (ord (g1 / lb * dm)) as b1 eqn:Eb1.
  remember (ord (g2 / lb * dm)) as b2 eqn:Eb2.
  remember (ord g1) as G1 eqn:EG1. remember (ord g2) as G2 eqn:EG2.
  remember (ord mp) as M eqn:EM. remember (ord lb) as L eqn:EL.
  remember (ord dm) as Dm eqn:EDm. remember unit_scale as u eqn:Eu.
  remember (ord (two_to (-300))) as lo eqn:Elo.
  assert (HL : (0 < L)%Z) by lia.
  assert (HD : (0 <= Dm)%Z) by lia.
  destruct A1 as [_ A1u]. destruct A2 as [A2l _].
  destruct B1 as [B1l _]. destruct B2 as [_ B2u].
  assert (S1 : (L * ((2 ^ 52 - 1) * (2 ^ 52 - 1) * (G2 * M))
                <= L * (100 * (2 ^ 52 * 2 ^ 52) * (u * a2)))%Z)
    by (apply Z.mul_le_mono_nonneg_l; lia).
  assert (S2 : (L * (100 * (2 ^ 52 * 2 ^ 52) * (u * a1))
                <= L * ((2 ^ 52 + 1) * (2 ^ 52 + 1) * (G1 * M)))%Z)
    by (apply Z.mul_le_mono_nonneg_l; lia).
  assert (S3 : (100 * u * (2 ^ 52 * 2 ^ 52 * (L * b2))
                <= 100 * u * ((2 ^ 52 + 1) * (2 ^ 52 + 1) * (G2 * Dm)))%Z)
    by (apply Z.mul_le_mono_nonneg_l; lia).
  assert (S4 : (100 * u * ((2 ^ 52 - 1) * (2 ^ 52 - 1) * (G1 * Dm))
                <= 100 * u * (2 ^ 52 * 2 ^ 52 * (L * b1)))%Z)
    by (apply Z.mul_le_mono_nonneg_l; lia).
  assert (S5 : (0 <= (M * L - 101 * Dm * u)
                     * ((2 ^ 52 - 1) * (2 ^ 52 - 1) * G2
                        - (2 ^ 52 + 1) * (2 ^ 52 + 1) * G1))%Z)
    by (apply Z.mul_nonneg_nonneg; lia).
  assert (S6 : (0 <= Dm * u
                     * (101 * ((2 ^ 52 - 1) * (2 ^ 52 - 1) * G2
                               - (2 ^ 52 + 1) * (2 ^ 52 + 1) * G1)
                        - 100 * ((2 ^ 52 + 1) * (2 ^ 52 + 1) * G2
                                 - (2 ^ 52 - 1) * (2 ^ 52 - 1) * G1)))%Z).
  { apply Z.mul_nonneg_nonneg; [|lia]. apply Z.mul_nonneg_nonneg; lia. }
  assert (S7 : (0 <= 100 * (2 ^ 52 * 2 ^ 52) * u * L
                     * (a2 - b2 - (a1 - b1)))%Z) by lia.
  assert (HT : (0 < 100 * (2 ^ 52 * 2 ^ 52) * u * L)%Z)
    by (apply Z.mul_pos_pos; [apply Z.mul_pos_pos|]; lia).
  apply (proj1 (Z.mul_nonneg_cancel_l _ _ HT)) in S7. lia.
Qed.

End NetIOFC.

Lemma scenario_eq_dec (s1 s2 : EfficacyScenario) : {s1 = s2} + {s1 <> s2}.
Proof. decide equality. Defined.

Section FreeFeed.

Local Open Scope num_scope.

Lemma sub_zero_not_NaN a z :
  isNaN a = false -> is_zero z = true -> isNaN (a - z) = false.
Proof.
  destruct a as [[]|[]| |[] m e], z as [[]|[]| |[] m' e']; intros Ha Hz;
    try discriminate; reflexivity.
Qed.

Lemma leb_zeros a b : is_zero a = true -> is_zero b = true -> leb a b = true.
Proof. destruct a, b; trivial; discriminate. Qed.

(** Dry matter that costs nothing: the net gain is the revenue. *)
Lemma netIOFC_mono_free g1 g2 mp lb dm :
  wf g1 = true -> wf g2 = true -> wf mp = true -> wf lb = true ->
  wf dm = true ->
  isFinite g1 = true -> isFinite g2 = true -> isFinite lb = true ->
  (2 * unit_scale <= ord g1 <= 8 * unit_scale)%Z ->
  (2 * unit_scale <= ord g2 <= 8 * unit_scale)%Z ->
  leb g1 g2 = true ->
  (ord (two_to (-300)) <= ord lb <= ord (two_to 300))%Z ->
  nonneg_finite mp = true -> is_zero dm = true ->
  wf (g1 * mp / of_Z 100 - g1 / lb * dm) = true
  /\ wf (g2 * mp / of_Z 100 - g2 / lb * dm) = true
  /\ isNaN (g1 * mp / of_Z 100 - g1 / lb * dm) = false
  /\ isNaN (g2 * mp / of_Z 100 - g2 / lb * dm) = false
  /\ leb (g1 * mp / of_Z 100 - g1 / lb * dm)
         (g2 * mp / of_Z 100 - g2 / lb * dm) = true.
Proof.
  intros Wg1 Wg2 Wmp Wlb Wdm Fg1 Fg2 Flb Gb1 Gb2 Lg Lb Hmp Zd.
  destruct (nonneg_finite_inv _ Hmp) as (_ & Fmp & Lmp).
  assert (W100 : wf (of_Z 100) = true) by reflexivity.
  assert (P100 : pos_finite (of_Z 100)) by (vm_compute; eauto).
  destruct (mul_ord g1 mp Wg1 Wmp Fg1 Fmp) as (Wx1 & Nx1 & _).
  destruct (mul_ord g2 mp Wg2 Wmp Fg2 Fmp) as (Wx2 & Nx2 & _).
  assert (Lx : leb (g1 * mp) (g2 * mp) = true) by now apply mul_mono_l.
  assert (La : leb (g1 * mp / of_Z 100) (g2 * mp / of_Z 100) = true)
    by now apply div_mono_l.
  destruct (leb_not_NaN _ _ La) as [Na1 Na2].
  assert (Wa1 : wf (g1 * mp / of_Z 100) = true) by now apply div_wf.
  assert (Wa2 : wf (g2 * mp / of_Z 100) = true) by now apply div_wf.
  destruct (gain_per_lb_rel g1 lb Wg1 Wlb Fg1 Flb Gb1 Lb) as (Wq1 & Fq1 & _).
  destruct (gain_per_lb_rel g2 lb Wg2 Wlb Fg2 Flb Gb2 Lb) as (Wq2 & Fq2 & _).
  assert (Zb1 : is_zero (g1 / lb * dm) = true)
    by now apply zero_mul_finite_l.
  assert (Zb2 : is_zero (g2 / lb * dm) = true)
    by now apply zero_mul_finite_l.
  assert (Wb1 : wf (g1 / lb * dm) = true) by now apply mul_wf.
  assert (Wb2 : wf (g2 / lb * dm) = true) by now apply mul_wf.
  assert (N1 := sub_zero_not_NaN _ _ Na1 Zb1).
  assert (N2 := sub_zero_not_NaN _ _ Na2 Zb2).
  split; [now apply sub_wf|split; [now apply sub_wf|]].
  split; [trivial|split; [trivial|]].
  apply sub_mono; trivial. now apply leb_zeros.
Qed.

End FreeFeed.

Section Production.

Local Open Scope num_scope.

Lemma gainPercent_shape sc :
  wf (Body.gainPercent sc) = true /\ isFinite (Body.gainPercent sc) = true
  /\ (2 * unit_scale <= ord (Body.gainPercent sc) <= 8 * unit_scale)%Z.
Proof.
  destruct sc; (split; [reflexivity|split; [reflexivity|]]);
    split; vm_compute; discriminate.
Qed.

Lemma gainPercent_le s1 s2 :
  scenario_le s1 s2 = true ->
  leb (Body.gainPercent s1) (Body.gainPercent s2) = true.
Proof. destruct s1, s2; intros H; try discriminate; reflexivity. Qed.

Lemma gainPercent_apart s1 s2 :
  scenario_le s1 s2 = true -> s1 <> s2 ->
  (0 <= (2 ^ 52 - 1) * (2 ^ 52 - 1) * ord (Body.gainPercent s2)
        - (2 ^ 52 + 1) * (2 ^ 52 + 1) * ord (Body.gainPercent s1))%Z
  /\ (100 * ((2 ^ 52 + 1) * (2 ^ 52 + 1) * ord (Body.gainPercent s2)
             - (2 ^ 52 - 1) * (2 ^ 52 - 1) * ord (Body.gainPercent s1))
      <= 101 * ((2 ^ 52 - 1) * (2 ^ 52 - 1) * ord (Body.gainPercent s2)
                - (2 ^ 52 + 1) * (2 ^ 52 + 1) * ord (Body.gainPercent s1)))%Z.
Proof.
  destruct s1, s2; intros H N; try discriminate; try congruence;
    split; vm_compute; discriminate.
Qed.

Lemma feed_range x :
  wf x = true ->
  leb (two_to (-300)) x = true -> leb x (two_to 300) = true ->
  isFinite x = true
  /\ (ord (two_to (-300)) <= ord x <= ord (two_to 300))%Z.
Proof.
  intros W H1 H2.
  assert (Wlo : wf (two_to (-300)) = true) by reflexivity.
  assert (Whi : wf (two_to 300) = true) by reflexivity.
  split.
  - apply (leb_finite_between _ (two_to (-300)) (two_to 300)); trivial.
  - assert (N := leb_not_NaN _ _ H1).
    apply leb_ord in H1; try tauto. apply leb_ord in H2; tauto.
Qed.

(** A feed cost within the margin is a finite number. *)
Lemma feed_cost_finite mp lb dm :
  wf dm = true ->
  (ord mp <= ord (two_to 300))%Z -> (0 <= ord mp)%Z ->
  (ord lb <= ord (two_to 300))%Z -> (0 <= ord lb)%Z ->
  leb (two_to (-300)) dm = true ->
  (101 * ord dm * unit_scale <= ord mp * ord lb)%Z ->
  isFinite dm = true /\ (ord (two_to (-300)) <= ord dm)%Z.
Proof.
  intros Wd Hp Hp0 Hl Hl0 L Mg.
  assert (Wlo : wf (two_to (-300)) = true) by reflexivity.
  assert (Nd := leb_not_NaN _ _ L).
  apply leb_ord in L; try tauto. split; trivial.
  apply ord_lt_cap_finite; [tauto|].
  assert (C := cap_pos). assert (U := unit_scale_pos).
  assert (Plo : (0 < ord (two_to (-300)))%Z) by (vm_compute; reflexivity).
  assert (Hh : (ord (two_to 300) * ord (two_to 300)
                < unit_scale * cap)%Z) by (vm_compute; reflexivity).
  split; [lia|].
  destruct (Z_lt_le_dec (ord dm) cap) as [Lt|Ge]; trivial.
  exfalso.
  assert (ord mp * ord lb <= ord (two_to 300) * ord (two_to 300))%Z
    by (apply Z.mul_le_mono_nonneg; lia).
  assert (cap * unit_scale <= ord dm * unit_scale)%Z
    by (apply Z.mul_le_mono_nonneg_r; lia).
  lia.
Qed.

(** With the feed margin the net gain per cow and day follows the
    scenario. *)
Lemma netIOFC_scenarios st s1 s2 :
  wf_inputs st = true -> feed_margin st = true ->
  scenario_le s1 s2 = true ->
  let n sc := Body.gainPercent sc * milkPrice st / of_Z 100
              - Body.gainPercent sc / lbMilkPerLbDM st * dmCost st in
  wf (n s1) = true /\ wf (n s2) = true
  /\ isNaN (n s1) = false /\ isNaN (n s2) = false
  /\ leb (n s1) (n s2) = true.
Proof.
  intros W H Hs n. subst n. cbv beta.
  destruct (wf_inputs_inv st W) as (_ & _ & _ & _ & Wp & Wl & Wd & _).
  unfold feed_margin in H. apply andb_true_iff in H. destruct H as [H Hb].
  apply andb_true_iff in H. destruct H as [L1 L2].
  destruct (feed_range _ Wl L1 L2) as [Fl Lb].
  destruct (gainPercent_shape s1) as (Wg1 & Fg1 & Gb1).
  destruct (gainPercent_shape s2) as (Wg2 & Fg2 & Gb2).
  assert (Plo : (0 < ord (two_to (-300)))%Z) by (vm_compute; reflexivity).
  apply orb_true_iff in Hb. destruct Hb as [Hb|Hb].
  - apply andb_true_iff in Hb. destruct Hb as [Zd Hp].
    apply netIOFC_mono_free; trivial. now apply gainPercent_le.
  - repeat rewrite andb_true_iff in Hb.
    destruct Hb as (((M1 & M2) & D1) & Mg). apply Z.leb_le in Mg.
    destruct (feed_range _ Wp M1 M2) as [Fp Mb].
    destruct (feed_cost_finite _ _ _ Wd (proj2 Mb) ltac:(lia)
                (proj2 Lb) ltac:(lia) D1 Mg) as [Fd Db].
    destruct (scenario_eq_dec s1 s2) as [E|E].
    + subst s2.
      destruct (revenue_rel _ _ Wg1 Wp Fg1 Fp Gb1 Mb) as (Wa & Fa & _).
      destruct (feed_rel _ _ _ _ Wg1 Wl Wd Fg1 Fl Fd Gb1 Mb Lb Db Mg)
        as (Wb & Fb & _).
      destruct (sub_ord _ _ Wa Wb Fa Fb) as (Ws & Ns & _).
      repeat split; trivial. now apply leb_refl.
    + destruct (gainPercent_apart s1 s2 Hs E) as [Hc1 Hc2].
      now apply netIOFC_mono.
Qed.

(** With the feed margin the production term follows the scenario. *)
Lemma production_mono st s1 s2 :
  wf_inputs st = true -> is_pos_finite (milkingCows st) = true ->
  feed_margin st = true -> scenario_le s1 s2 = true ->
  leb (Body.productionSavingsAnnual st s1)
      (Body.productionSavingsAnnual st s2) = true.
Proof.
  intros W Pm Hf Hs.
  destruct (wf_inputs_inv st W) as (Wm & _).
  apply is_pos_finite_inv in Pm.
  destruct (pos_finite_facts _ Pm) as (Fm & Nm & Lm).
  assert (W210 : wf (of_Z 210) = true) by reflexivity.
  assert (P210 : pos_finite (of_Z 210)) by (vm_compute; eauto).
  destruct (netIOFC_scenarios st s1 s2 W Hf Hs)
    as (Wn1 & Wn2 & Nn1 & Nn2 & L12).
  unfold Body.productionSavingsAnnual, Body.netIOFCPerCowDay,
    Body.extraRevenuePerCowDay, Body.extraDMCostPerCowDay,
    Body.extraDMLbPerCowDay, Body.m.
  cbv beta in Wn1, Wn2, Nn1, Nn2, L12.
  set (n1 := Body.gainPercent s1 * milkPrice st / of_Z 100
             - Body.gainPercent s1 / lbMilkPerLbDM st * dmCost st) in *.
  set (n2 := Body.gainPercent s2 * milkPrice st / of_Z 100
             - Body.gainPercent s2 / lbMilkPerLbDM st * dmCost st) in *.
  assert (Np1 : isNaN (n1 * milkingCows st) = false)
    by now apply mul_pos_not_NaN.
  assert (Np2 : isNaN (n2 * milkingCows st) = false)
    by now apply mul_pos_not_NaN.
  assert (Wp1 : wf (n1 * milkingCows st) = true) by now apply mul_wf.
  assert (Wp2 : wf (n2 * milkingCows st) = true) by now apply mul_wf.
  apply mul_mono_l; trivial; try reflexivity.
  - apply mul_mono_l; trivial.
  - now apply mul_pos_not_NaN.
  - now apply mul_pos_not_NaN.
Qed.

End Production.

(** * The claims *)

(** ** C1: a herd without milking cows *)

(** C1, as the code has it: for every input with [milkingCows = 0] and
    every scenario, [investmentAnnual] is the finite 15960 and both
    breakeven fields are null, while [savingsAnnual], [netProfitAnnual],
    [roiRatio] and the three [returnPerCow] fields are NaN: the source
    divides by [milkingCows] without a guard. *)
Theorem C1_no_cows_result st sc :
  is_zero (milkingCows st) = true ->
  let r := computeScenario st sc in
  savingsAnnual r = NaN
  /\ investmentAnnual r = of_Z 15960
  /\ netProfitAnnual r = NaN
  /\ roiRatio r = NaN
  /\ returnPerCowYear r = NaN
  /\ returnPerCowMonth r = NaN
  /\ returnPerCowDay r = NaN
  /\ monthsToBreakeven r = None
  /\ daysToBreakeven r = None.
Proof.
  intros Hm r.
  assert (Ht : Body.totalSavingsAnnual st sc = NaN)
    by now apply total_poisoned_by_death, deathSavings_no_cows.
  assert (Hn := netProfit_poisoned _ _ Ht).
  assert (Hi := investment_no_cows _ Hm).
  destruct (returnPerCow_poisoned _ _ Hn) as (Hy & Hmo & Hd).
  assert (Hb := breakeven_poisoned _ _ Ht).
  subst r; cbn [computeScenario savingsAnnual investmentAnnual
    netProfitAnnual roiRatio returnPerCowYear returnPerCowMonth
    returnPerCowDay monthsToBreakeven daysToBreakeven].
  repeat split; trivial.
  - apply roiRatio_poisoned; trivial. now rewrite Hi.
  - unfold Body.monthsToBreakeven. now rewrite Hb.
  - unfold Body.daysToBreakeven. now rewrite Hb.
Qed.

Lemma C1_no_cows_result_witness :
  let r := computeScenario emptyHerd base in
  savingsAnnual r = NaN
  /\ investmentAnnual r = of_Z 15960
  /\ netProfitAnnual r = NaN
  /\ roiRatio r = NaN
  /\ returnPerCowYear r = NaN
  /\ returnPerCowMonth r = NaN
  /\ returnPerCowDay r = NaN
  /\ monthsToBreakeven r = None
  /\ daysToBreakeven r = None.
Proof. apply (C1_no_cows_result emptyHerd base). reflexivity. Defined.

(** The reference herd with [milkingCows = 0] is a finite input, and under
    the base scenario its result has non-finite fields: [savingsAnnual]
    is NaN. *)
Lemma C1_counterexample :
  finite_inputs emptyHerd = true
  /\ is_zero (milkingCows emptyHerd) = true
  /\ all_fields_finite (computeScenario emptyHerd base) = false
  /\ isNaN (savingsAnnual (computeScenario emptyHerd base)) = true.
Proof. vm_compute. repeat split. Qed.

(** ** C2: a fresh count overridden to zero *)

(** C2, as the code has it: for every input with [freshOverride = true],
    [freshPerYear = 0] and [soldEvents <> 0], and every scenario, the
    culling-savings term is NaN and so is [savingsAnnual]: the source
    divides by [fresh] without a guard. *)
Theorem C2_no_fresh_culling st sc :
  freshOverride st = true ->
  is_zero (freshPerYear st) = true ->
  is_zero (soldEvents st) = false ->
  Body.cullingSavings st sc = NaN
  /\ savingsAnnual (computeScenario st sc) = NaN.
Proof.
  intros Ho Hf _.
  assert (Hc : Body.cullingSavings st sc = NaN).
  { apply cullingSavings_no_fresh. unfold Body.fresh. now rewrite Ho. }
  split; [exact Hc|]. now apply total_poisoned_by_culling.
Qed.

Lemma C2_no_fresh_culling_witness :
  Body.cullingSavings noFresh base = NaN
  /\ savingsAnnual (computeScenario noFresh base) = NaN.
Proof. apply (C2_no_fresh_culling noFresh base); reflexivity. Defined.

(** With the reference inputs, [freshOverride = true] and
    [freshPerYear = 0], [soldEvents] is 3000 and the culling-savings term
    is NaN, not 0; [savingsAnnual] is NaN as well. *)
Lemma C2_counterexample :
  freshOverride noFresh = true
  /\ is_zero (freshPerYear noFresh) = true
  /\ is_zero (soldEvents noFresh) = false
  /\ is_zero (Body.cullingSavings noFresh base) = false
  /\ isNaN (Body.cullingSavings noFresh base) = true
  /\ isNaN (savingsAnnual (computeScenario noFresh base)) = true.
Proof. vm_compute. repeat split. Qed.

(** ** C3: the scenarios compared *)




(** ** C4: no death events *)

(** C4, as the code has it: for every input with [deathEvents = 0], a
    [milkingCows] that is neither zero nor NaN and a finite [salvageValue],
    and for every scenario, the zero-guard branch is taken
    ([newDeathEvents = deathEvents]), the death-savings term is a zero, and
    [savingsAnnual] is the number the three other terms add up to. *)
Theorem C4_no_death_events st sc :
  is_zero (deathEvents st) = true ->
  is_zero (milkingCows st) = false ->
  isNaN (milkingCows st) = false ->
  isFinite (salvageValue st) = true ->
  (Body.deathIncidence st === of_Z 0)%num = true
  /\ Body.newDeathEvents st sc = deathEvents st
  /\ is_zero (Body.deathSavings st sc) = true
  /\ same_number (savingsAnnual (computeScenario st sc))
       (Body.cullingSavings st sc + Body.healthSavings st sc
        + Body.productionSavingsAnnual st sc)%num.
Proof.
  intros Hd Hm Hn Hs.
  assert (Hg := guard_taken _ Hd Hm Hn).
  assert (He : Body.newDeathEvents st sc = deathEvents st)
    by (unfold Body.newDeathEvents; now rewrite Hg).
  assert (Hz : is_zero (Body.deathSavings st sc) = true).
  { unfold Body.deathSavings, Body.deathEventsAvoided.
    rewrite He, zero_sub_self by trivial. now apply zero_mul_finite. }
  repeat split; trivial.
  cbn [computeScenario savingsAnnual]. unfold Body.totalSavingsAnnual.
  now do 2 apply same_number_add_r; apply same_number_zero_add.
Qed.

Lemma C4_no_death_events_witness :
  (Body.deathIncidence noDeath === of_Z 0)%num = true
  /\ Body.newDeathEvents noDeath base = deathEvents noDeath
  /\ is_zero (Body.deathSavings noDeath base) = true
  /\ same_number (savingsAnnual (computeScenario noDeath base))
       (Body.cullingSavings noDeath base + Body.healthSavings noDeath base
        + Body.productionSavingsAnnual noDeath base)%num.
Proof. apply (C4_no_death_events noDeath base); reflexivity. Defined.

(** With no milking cows, [deathEvents = 0] gives the incidence [0/0]:
    the guard [=== 0] fails and the death-savings term is NaN, not 0. *)
Lemma C4_counterexample :
  is_zero (deathEvents emptyHerdNoDeath) = true
  /\ (Body.deathIncidence emptyHerdNoDeath === of_Z 0)%num = false
  /\ is_zero (Body.deathSavings emptyHerdNoDeath base) = false
  /\ isNaN (Body.deathSavings emptyHerdNoDeath base) = true.
Proof. vm_compute. repeat split. Qed.

(** ** C5: the breakeven fields *)

(** C5, as the code has it: for every input and scenario, each breakeven
    field is null if and only if [savingsAnnual <= 0] or
    [investmentAnnual <= 0] or one of the two is NaN; otherwise
    [monthsToBreakeven = (investmentAnnual / savingsAnnual) * 12] and
    [daysToBreakeven = (investmentAnnual / savingsAnnual) * 365]. *)
Theorem C5_breakeven_null_iff st sc :
  let r := computeScenario st sc in
  let s := savingsAnnual r in
  let i := investmentAnnual r in
  let no_breakeven :=
    leb s (of_Z 0) || isNaN s || (leb i (of_Z 0) || isNaN i) in
  (monthsToBreakeven r = None <-> no_breakeven = true)
  /\ (daysToBreakeven r = None <-> no_breakeven = true)
  /\ (no_breakeven = false ->
      monthsToBreakeven r = Some (i / s * of_Z 12)%num
      /\ daysToBreakeven r = Some (i / s * of_Z 365)%num).
Proof.
  intros r s i nb.
  assert (Hb : Body.breakeven st sc = negb nb) by apply breakeven_test.
  subst r; cbn [computeScenario monthsToBreakeven daysToBreakeven].
  unfold Body.monthsToBreakeven, Body.daysToBreakeven. rewrite Hb.
  destruct nb; cbn [negb]; repeat split; intros; try discriminate;
    reflexivity.
Qed.

(** With no milking cows the breakeven fields are null although neither
    [savingsAnnual <= 0] nor [investmentAnnual <= 0] holds:
    [savingsAnnual] is NaN and [investmentAnnual] is 15960. *)
Lemma C5_counterexample :
  let r := computeScenario emptyHerd base in
  monthsToBreakeven r = None
  /\ daysToBreakeven r = None
  /\ leb (savingsAnnual r) (of_Z 0) = false
  /\ leb (investmentAnnual r) (of_Z 0) = false.
Proof. vm_compute. repeat split. Qed.

(** ** C6: the cost side ignores the scenario *)

(** C6: for every input and any two scenarios [s1], [s2],
    [computeScenario] returns the same [investmentAnnual]. *)
Theorem C6_investment_scenario_independent st s1 s2 :
  investmentAnnual (computeScenario st s1)
  = investmentAnnual (computeScenario st s2).
Proof. reflexivity. Qed.

(** ** C7: the reference herd *)

(** C7: for an input with [milkingCows = 10000] and
    [freshOverride = false], the effective fresh count is
    [round (10000 * 1.35) = 13500], and under the base scenario
    [investmentAnnual = 10000*4.5*1 + 40*3 + (660*0.10*20*12) = 60960]. *)
Theorem C7_reference_herd st :
  milkingCows st = of_Z 10000 ->
  freshOverride st = false ->
  Body.fresh st = round (of_Z 10000 * lit 135 100)%num
  /\ Body.fresh st = of_Z 13500
  /\ investmentAnnual (computeScenario st base)
     = (of_Z 10000 * lit 45 10 * of_Z 1 + of_Z 40 * of_Z 3
        + of_Z 660 * lit 10 100 * of_Z 20 * of_Z 12)%num
  /\ investmentAnnual (computeScenario st base) = of_Z 60960.
Proof.
  intros Hm Ho.
  cbn [computeScenario investmentAnnual].
  unfold Body.fresh, Body.investmentAnnual, Body.productCostAnnual, Body.m.
  rewrite Hm, Ho. vm_compute. repeat split.
Qed.

Lemma C7_reference_herd_witness :
  Body.fresh defaultState = round (of_Z 10000 * lit 135 100)%num
  /\ Body.fresh defaultState = of_Z 13500
  /\ investmentAnnual (computeScenario defaultState base)
     = (of_Z 10000 * lit 45 10 * of_Z 1 + of_Z 40 * of_Z 3
        + of_Z 660 * lit 10 100 * of_Z 20 * of_Z 12)%num
  /\ investmentAnnual (computeScenario defaultState base) = of_Z 60960.
Proof. apply (C7_reference_herd defaultState); reflexivity. Defined.

(** ** C8: the order of the health events *)

(** C8, as the code has it: for every input and scenario, exchanging the
    first two health events leaves the health-savings sum, and with it
    every field of the result, unchanged: the sum is a left-to-right
    floating-point sum, whose additions commute but do not associate. *)
Theorem C8_swap_first_two st sc e1 e2 rest :
  healthEvents st = e1 :: e2 :: rest ->
  Body.healthSavings (set_healthEvents st (e2 :: e1 :: rest)) sc
  = Body.healthSavings st sc
  /\ computeScenario (set_healthEvents st (e2 :: e1 :: rest)) sc
     = computeScenario st sc.
Proof.
  intros He.
  assert (H : Body.healthSavings (set_healthEvents st (e2 :: e1 :: rest)) sc
              = Body.healthSavings st sc).
  { rewrite !healthSavings_fold, He. cbn [set_healthEvents healthEvents fold_left].
    now rewrite add_first_two. }
  split; [exact H|]. now apply computeScenario_healthEvents.
Qed.

Lemma C8_swap_first_two_witness :
  Body.healthSavings (set_healthEvents defaultState mastitisFirst)
    conservative
  = Body.healthSavings defaultState conservative
  /\ computeScenario (set_healthEvents defaultState mastitisFirst)
       conservative
     = computeScenario defaultState conservative.
Proof.
  apply (C8_swap_first_two defaultState conservative
           (nth 0 defaultHealthEvents idleEvent)
           (nth 1 defaultHealthEvents idleEvent)
           (skipn 2 defaultHealthEvents)).
  reflexivity.
Defined.

(** Reversing the nine reference health events is a permutation, and under
    the conservative scenario it changes the health-savings sum in its last
    bit; on a herd whose only savings are the health savings, it changes
    [savingsAnnual] too. *)
Lemma C8_counterexample :
  Permutation (healthEvents reversedEvents) (healthEvents defaultState)
  /\ (Body.healthSavings reversedEvents conservative
      === Body.healthSavings defaultState conservative)%num = false
  /\ (savingsAnnual
        (computeScenario
           (set_healthEvents healthOnly (rev defaultHealthEvents))
           conservative)
      === savingsAnnual (computeScenario healthOnly conservative))%num
     = false.
Proof.
  split; [|vm_compute; split; reflexivity].
  apply Permutation_sym, Permutation_rev.
Qed.

(** ** C9: the investment is positive *)

(** C9, as the code has it: for every input with a well-formed
    [milkingCows] and every scenario,
    [investmentAnnual = 4.5 * milkingCows + 120 + 15840]; whenever
    [milkingCows >= 0], [investmentAnnual >= 15960 > 0], so that
    [roiRatio = savingsAnnual / investmentAnnual] (the branch
    [roiRatio = 0] is not taken), and each breakeven field is null exactly
    when [savingsAnnual <= 0] or [savingsAnnual] is NaN. *)
Theorem C9_investment st sc :
  wf (milkingCows st) = true ->
  let r := computeScenario st sc in
  investmentAnnual r
  = (lit 45 10 * milkingCows st + of_Z 120 + of_Z 15840)%num
  /\ (geb (milkingCows st) (of_Z 0) = true ->
      geb (investmentAnnual r) (of_Z 15960) = true
      /\ gtb (investmentAnnual r) (of_Z 0) = true
      /\ roiRatio r = (savingsAnnual r / investmentAnnual r)%num
      /\ (monthsToBreakeven r = None
          <-> leb (savingsAnnual r) (of_Z 0) || isNaN (savingsAnnual r)
              = true)
      /\ (daysToBreakeven r = None
          <-> leb (savingsAnnual r) (of_Z 0) || isNaN (savingsAnnual r)
              = true)).
Proof.
  intros Wm r. subst r.
  cbn [computeScenario investmentAnnual roiRatio savingsAnnual
       monthsToBreakeven daysToBreakeven].
  split; [now apply investment_formula|]. intros Hm.
  assert (Hpos := investment_positive st Wm Hm).
  split; [now apply investment_lower_bound|].
  split; [exact Hpos|].
  split; [unfold Body.roiRatio; now rewrite Hpos|].
  unfold Body.monthsToBreakeven, Body.daysToBreakeven, Body.breakeven.
  rewrite Hpos, andb_true_r.
  destruct (gtb (Body.totalSavingsAnnual st sc) (of_Z 0)) eqn:Hs.
  - assert (leb (Body.totalSavingsAnnual st sc) (of_Z 0)
            || isNaN (Body.totalSavingsAnnual st sc) = false).
    { destruct (_ || _) eqn:E; trivial.
      apply gtb_zero_false in E. congruence. }
    rewrite H. split; split; intros; discriminate.
  - apply gtb_zero_false in Hs. rewrite Hs. now split; split.
Qed.

Lemma C9_investment_witness :
  let r := computeScenario defaultState base in
  investmentAnnual r
  = (lit 45 10 * milkingCows defaultState + of_Z 120 + of_Z 15840)%num
  /\ geb (investmentAnnual r) (of_Z 15960) = true
  /\ gtb (investmentAnnual r) (of_Z 0) = true
  /\ roiRatio r = (savingsAnnual r / investmentAnnual r)%num
  /\ (monthsToBreakeven r = None
      <-> leb (savingsAnnual r) (of_Z 0) || isNaN (savingsAnnual r) = true)
  /\ (daysToBreakeven r = None
      <-> leb (savingsAnnual r) (of_Z 0) || isNaN (savingsAnnual r) = true).
Proof.
  destruct (C9_investment defaultState base) as [H1 H2]; [reflexivity|].
  split; [exact H1|]. apply H2. reflexivity.
Defined.

(** With no milking cows, [milkingCows >= 0] holds and the breakeven
    fields are null, yet [savingsAnnual <= 0] does not hold:
    [savingsAnnual] is NaN. *)
Lemma C9_counterexample :
  let r := computeScenario emptyHerd base in
  geb (milkingCows emptyHerd) (of_Z 0) = true
  /\ monthsToBreakeven r = None
  /\ daysToBreakeven r = None
  /\ leb (savingsAnnual r) (of_Z 0) = false.
Proof. vm_compute. repeat split. Qed.

(** ** C10: events that save nothing *)

(** C10: for every input whose health events are well-formed doubles,
    every scenario and every event [z] whose count is 0 or whose
    costPerEvent is 0 (the other field being a finite number), appending
    [z] to [healthEvents], or removing it from any position, leaves every
    field of the result of [computeScenario] unchanged. *)
Theorem C10_neutral_event st sc z :
  forallb wf_event (healthEvents st) = true ->
  wf_event z = true -> neutral_event z = true ->
  computeScenario (set_healthEvents st (healthEvents st ++ [z])) sc
  = computeScenario st sc
  /\ (forall l1 l2, healthEvents st = l1 ++ z :: l2 ->
      computeScenario (set_healthEvents st (l1 ++ l2)) sc
      = computeScenario st sc).
Proof.
  intros Hl Wz Nz. split.
  - apply computeScenario_healthEvents.
    rewrite !healthSavings_eventSavings. cbn [set_healthEvents healthEvents].
    rewrite healthSavings_insert_neutral; trivial.
    now rewrite app_nil_r.
  - intros l1 l2 E. apply computeScenario_healthEvents.
    rewrite !healthSavings_eventSavings. cbn [set_healthEvents healthEvents].
    rewrite E. symmetry. apply healthSavings_insert_neutral; trivial.
    rewrite E, forallb_app in Hl. apply andb_true_iff in Hl. now destruct Hl.
Qed.

Lemma C10_neutral_event_witness :
  computeScenario
    (set_healthEvents defaultState (healthEvents defaultState ++ [idleEvent]))
    base
  = computeScenario defaultState base
  /\ computeScenario
       (set_healthEvents withIdleEvent (defaultHealthEvents ++ [])) base
     = computeScenario withIdleEvent base.
Proof.
  destruct (C10_neutral_event defaultState base idleEvent) as [H1 _];
    try reflexivity.
  destruct (C10_neutral_event withIdleEvent base idleEvent) as [_ H2];
    try reflexivity.
  split; [exact H1|]. now apply H2.
Defined.
(** * The page: input handlers *)

Section InputValue.

Variable Number : string -> number.

Lemma inputValue_finite raw : isFinite (inputValue Number raw) = true.
Proof.
  unfold inputValue. destruct (String.eqb raw EmptyString).
  - reflexivity.
  - destruct (isFinite (Number raw)) eqn:E; trivial.
Qed.

Lemma inputValue_wf raw :
  (forall s, wf (Number s) = true) -> wf (inputValue Number raw) = true.
Proof.
  intros W. unfold inputValue. destruct (String.eqb raw EmptyString).
  - reflexivity.
  - destruct (isFinite (Number raw)); trivial.
Qed.

Lemma handleNumberChange_set field raw st :
  handleNumberChange Number field raw st
  = set_field st field (inputValue Number raw).
Proof. reflexivity. Qed.

Lemma handleFreshChange_set raw st :
  handleFreshChange Number raw st = set_fresh st (inputValue Number raw).
Proof. reflexivity. Qed.

Lemma handleHealthChange_events k raw st :
  healthEvents (handleHealthChange Number k raw st)
  = map (fun ev =>
           if String.eqb (key ev) k
           then {| name := name ev; key := key ev;
                   count := inputValue Number raw;
                   costPerEvent := costPerEvent ev |}
           else ev)
        (healthEvents st).
Proof. reflexivity. Qed.

End InputValue.

Section Catalog.

Variable Number : string -> number.

Lemma dispatch_catalog a st :
  map catalogEntry (healthEvents (dispatch Number a st))
  = map catalogEntry (healthEvents st).
Proof.
  destruct a as [field raw|raw|k raw|]; trivial.
  cbn [dispatch]. rewrite handleHealthChange_events, map_map.
  apply map_ext. intros ev. now destruct (String.eqb (key ev) k).
Qed.

End Catalog.

(** X1: no sequence of input events adds, removes, reorders, renames or
    re-prices a health event: the names, keys and costs per event stay
    those of the state the page started from. *)
Theorem handlers_keep_catalog Number acts st :
  map catalogEntry (healthEvents (run Number acts st))
  = map catalogEntry (healthEvents st).
Proof.
  revert st. induction acts as [|a acts IH]; intros st; trivial.
  cbn [run fold_left]. fold (run Number acts (dispatch Number a st)).
  rewrite IH. apply dispatch_catalog.
Qed.

Section HealthChange.

Variable Number : string -> number.

Lemma map_key_miss (k : string) (f : HealthEventInput -> HealthEventInput)
    (l : list HealthEventInput) :
  ~ In k (map key l) ->
  map (fun ev => if String.eqb (key ev) k then f ev else ev) l = l.
Proof.
  induction l as [|a l IH]; intros H; trivial.
  cbn [map] in *. destruct (String.eqb_spec (key a) k) as [E|E].
  - exfalso. apply H. now left.
  - rewrite IH; trivial. intros Hin. apply H. now right.
Qed.

Lemma eventCount_written k v l :
  In k (map key l) ->
  eventCount k
    (map (fun ev =>
            if String.eqb (key ev) k
            then {| name := name ev; key := key ev; count := v;
                    costPerEvent := costPerEvent ev |}
            else ev) l)
  = Some v.
Proof.
  unfold eventCount.
  induction l as [|a l IH]; intros H; [contradiction|].
  cbn [map find]. destruct (String.eqb (key a) k) eqn:E.
  - cbn [key]. now rewrite E.
  - rewrite E. apply IH. destruct H as [H|H]; trivial.
    apply String.eqb_neq in E. contradiction.
Qed.

Lemma eventCount_other k k' v l :
  k' <> k ->
  eventCount k'
    (map (fun ev =>
            if String.eqb (key ev) k
            then {| name := name ev; key := key ev; count := v;
                    costPerEvent := costPerEvent ev |}
            else ev) l)
  = eventCount k' l.
Proof.
  intros Hk. unfold eventCount.
  induction l as [|a l IH]; trivial.
  cbn [map find]. destruct (String.eqb_spec (key a) k) as [E|E].
  - cbn [key]. destruct (String.eqb_spec (key a) k') as [E'|E'].
    + congruence.
    + apply IH.
  - destruct (String.eqb (key a) k'); trivial.
Qed.

End HealthChange.

(** X2: after [handleHealthChange key raw], the event of that key holds
    the entered number (0 for an empty or non-numeric text), and the
    count found under every other key is what it was. *)
Theorem handleHealthChange_lookup Number k raw st :
  In k (map key (healthEvents st)) ->
  let st' := handleHealthChange Number k raw st in
  eventCount k (healthEvents st') = Some (inputValue Number raw)
  /\ forall k', k' <> k ->
       eventCount k' (healthEvents st') = eventCount k' (healthEvents st).
Proof.
  intros H st'. subst st'. rewrite handleHealthChange_events. split.
  - now apply eventCount_written.
  - intros k' Hk. now apply eventCount_other.
Qed.

Lemma handleHealthChange_lookup_witness :
  eventCount "mastitis"
    (healthEvents
       (handleHealthChange (fun _ => of_Z 7) "mastitis" "7" defaultState))
  = Some (of_Z 7).
Proof.
  apply (handleHealthChange_lookup (fun _ => of_Z 7) "mastitis" "7"
           defaultState).
  vm_compute. tauto.
Defined.

(** X3: [handleHealthChange] with a key that no event has leaves the state
    as it is. *)
Theorem handleHealthChange_missing_key Number k raw st :
  ~ In k (map key (healthEvents st)) ->
  handleHealthChange Number k raw st = st.
Proof.
  intros H. destruct st as [m f o rc sv mp lb dm de se he].
  unfold handleHealthChange.
  cbn [healthEvents milkingCows freshPerYear freshOverride replacementCost
       salvageValue milkPrice lbMilkPerLbDM dmCost deathEvents soldEvents]
    in *.
  f_equal. now apply map_key_miss.
Qed.

Lemma handleHealthChange_missing_key_witness :
  handleHealthChange (fun _ => of_Z 7) "bloat" "7" defaultState
  = defaultState.
Proof.
  apply (handleHealthChange_missing_key (fun _ => of_Z 7) "bloat" "7"
           defaultState).
  vm_compute. intuition discriminate.
Defined.

(** X4: of two changes of the same health event the later one wins, and
    changes of two different events can be made in either order. *)
Theorem handleHealthChange_compose Number k1 k2 r1 r2 st :
  k1 <> k2 ->
  handleHealthChange Number k1 r2 (handleHealthChange Number k1 r1 st)
  = handleHealthChange Number k1 r2 st
  /\ handleHealthChange Number k1 r1 (handleHealthChange Number k2 r2 st)
     = handleHealthChange Number k2 r2 (handleHealthChange Number k1 r1 st).
Proof.
  intros Hk. unfold handleHealthChange.
  cbn [healthEvents milkingCows freshPerYear freshOverride replacementCost
       salvageValue milkPrice lbMilkPerLbDM dmCost deathEvents soldEvents].
  split; f_equal; rewrite !map_map; apply map_ext; intros ev.
  - destruct (String.eqb (key ev) k1) eqn:E; cbn [key]; rewrite E; trivial.
  - destruct (String.eqb (key ev) k1) eqn:E1;
      destruct (String.eqb (key ev) k2) eqn:E2;
      cbn [key]; rewrite ?E1, ?E2; trivial.
    apply String.eqb_eq in E1. apply String.eqb_eq in E2. congruence.
Qed.

Lemma handleHealthChange_compose_witness :
  let N := fun s => if String.eqb s "7" then of_Z 7 else of_Z 9 in
  handleHealthChange N "mastitis" "7"
    (handleHealthChange N "ketosis" "9" defaultState)
  = handleHealthChange N "ketosis" "9"
      (handleHealthChange N "mastitis" "7" defaultState).
Proof.
  intros N.
  apply (handleHealthChange_compose N "mastitis" "ketosis" "7" "9"
           defaultState).
  discriminate.
Defined.

(** ** The fresh count: override and reset *)

Lemma HomePage_fresh st : HomePage.fresh st = Body.fresh st.
Proof. reflexivity. Qed.

Section FreshFlag.

Variable Number : string -> number.

Lemma dispatch_leaves_fresh a st :
  leaves_fresh a = true ->
  freshOverride (dispatch Number a st) = freshOverride st
  /\ freshPerYear (dispatch Number a st) = freshPerYear st.
Proof.
  destruct a as [[] raw|raw|k raw|]; try discriminate; intros _;
    split; reflexivity.
Qed.

Lemma run_leaves_fresh acts : forall st,
  forallb leaves_fresh acts = true ->
  freshOverride (run Number acts st) = freshOverride st
  /\ freshPerYear (run Number acts st) = freshPerYear st.
Proof.
  induction acts as [|a acts IH]; intros st H; [now split|].
  cbn [forallb] in H. apply andb_true_iff in H. destruct H as [Ha H].
  cbn [run fold_left]. fold (run Number acts (dispatch Number a st)).
  destruct (IH (dispatch Number a st) H) as [E1 E2].
  destruct (dispatch_leaves_fresh a st Ha) as [E3 E4].
  split; congruence.
Qed.

End FreshFlag.

(** X5: once the fresh count has been entered by hand, it is the count the
    calculator uses, and it stays so through every later change of the
    other inputs, the herd size included, until the fresh count is
    entered again or reset. *)
Theorem fresh_override_sticks Number raw acts st :
  forallb leaves_fresh acts = true ->
  let st' := run Number acts (handleFreshChange Number raw st) in
  Body.fresh st' = inputValue Number raw
  /\ HomePage.fresh st' = inputValue Number raw.
Proof.
  intros H st'.
  destruct (run_leaves_fresh Number acts
              (handleFreshChange Number raw st) H) as [E1 E2].
  fold st' in E1, E2. unfold HomePage.fresh, Body.fresh.
  rewrite E1, E2. split; reflexivity.
Qed.

Lemma fresh_override_sticks_witness :
  Body.fresh
    (run (fun _ => of_Z 500)
       [NumberChange F_milkingCows "500"; HealthChange "mastitis" "500"]
       (handleFreshChange (fun _ => of_Z 500) "500" defaultState))
  = of_Z 500.
Proof.
  apply (fresh_override_sticks (fun _ => of_Z 500) "500"
           [NumberChange F_milkingCows "500"; HealthChange "mastitis" "500"]
           defaultState).
  reflexivity.
Defined.

(** X6: while the fresh count is not overridden, its stored value is never
    read: neither a result nor the fresh count the page shows depends on
    it, and the reset button changes neither. *)
Theorem stored_fresh_unread st v sc :
  freshOverride st = false ->
  computeScenario (set_field st F_freshPerYear v) sc = computeScenario st sc
  /\ HomePage.fresh (set_field st F_freshPerYear v) = HomePage.fresh st
  /\ computeScenario (resetFresh st) sc = computeScenario st sc
  /\ HomePage.fresh (resetFresh st) = HomePage.fresh st.
Proof.
  intros H. destruct st as [m f o rc sv mp lb dm de se he].
  cbn [freshOverride] in H. subst o.
  unfold HomePage.fresh, computeScenario,
    Body.roiRatio, Body.returnPerCowDay, Body.returnPerCowMonth,
    Body.returnPerCowYear, Body.netProfitAnnual, Body.monthsToBreakeven, Body.daysToBreakeven,
    Body.breakeven, Body.totalSavingsAnnual, Body.investmentAnnual,
    Body.productCostAnnual, Body.deathSavings, Body.deathEventsAvoided,
    Body.newDeathEvents, Body.newDeathIncidence, Body.deathIncidence,
    Body.cullingSavings, Body.cullingVoluntaryDeltaRate, Body.newSoldRate,
    Body.soldRate, Body.healthSavings, Body.productionSavingsAnnual,
    Body.netIOFCPerCowDay, Body.extraRevenuePerCowDay,
    Body.extraDMCostPerCowDay, Body.extraDMLbPerCowDay, Body.m, Body.fresh,
    set_field, resetFresh.
  cbn [milkingCows freshPerYear freshOverride replacementCost salvageValue
       milkPrice lbMilkPerLbDM dmCost deathEvents soldEvents healthEvents].
  repeat split.
Qed.

Lemma stored_fresh_unread_witness :
  computeScenario (resetFresh defaultState) base
  = computeScenario defaultState base.
Proof.
  apply (stored_fresh_unread defaultState (of_Z 0) base). reflexivity.
Defined.

Section AutoFresh.

Variable Number : string -> number.

Lemma dispatch_not_fresh_entry a st :
  not_fresh_entry a = true -> freshOverride st = false ->
  freshOverride (dispatch Number a st) = false.
Proof.
  destruct a as [field raw|raw|k raw|]; try discriminate; intros _ H;
    trivial.
Qed.

Lemma run_not_fresh_entry acts : forall st,
  forallb not_fresh_entry acts = true -> freshOverride st = false ->
  freshOverride (run Number acts st) = false.
Proof.
  induction acts as [|a acts IH]; intros st H Ho; trivial.
  cbn [forallb] in H. apply andb_true_iff in H. destruct H as [Ha H].
  cbn [run fold_left]. fold (run Number acts (dispatch Number a st)).
  apply IH; trivial. now apply dispatch_not_fresh_entry.
Qed.

End AutoFresh.

(** X7: after the reset button the fresh count follows the herd size
    again, also when it had been overridden: through every later
    sequence of events without an entry of the fresh count, further
    resets included, it is 1.35 times the current herd size, rounded. *)
Theorem resetFresh_follows_herd Number acts st :
  forallb not_fresh_entry acts = true ->
  let st' := run Number acts (resetFresh st) in
  Body.fresh st' = round (milkingCows st' * lit 135 100)%num
  /\ HomePage.fresh st' = round (milkingCows st' * lit 135 100)%num.
Proof.
  intros H st'.
  assert (E : freshOverride st' = false)
    by now apply run_not_fresh_entry.
  unfold HomePage.fresh, Body.fresh. rewrite E. split; reflexivity.
Qed.

Lemma resetFresh_follows_herd_witness :
  Body.fresh
    (run (fun _ => of_Z 500)
       [ResetFresh; NumberChange F_milkingCows "500";
        HealthChange "mastitis" "500"; ResetFresh]
       (resetFresh (handleFreshChange (fun _ => of_Z 500) "500"
                      defaultState)))
  = of_Z 675.
Proof.
  apply (resetFresh_follows_herd (fun _ => of_Z 500)
           [ResetFresh; NumberChange F_milkingCows "500";
            HealthChange "mastitis" "500"; ResetFresh]
           (handleFreshChange (fun _ => of_Z 500) "500" defaultState)).
  reflexivity.
Defined.

(** ** Inputs the handlers produce *)

Section SaneInputs.

Variable Number : string -> number.
Hypothesis Number_wf : forall s, wf (Number s) = true.

Lemma sane_inputs_inv st :
  sane_inputs st = true ->
  isFinite (milkingCows st) = true /\ isNaN (freshPerYear st) = false
  /\ (freshOverride st = true -> isFinite (freshPerYear st) = true)
  /\ isFinite (replacementCost st) = true
  /\ isFinite (salvageValue st) = true
  /\ isFinite (milkPrice st) = true /\ isFinite (lbMilkPerLbDM st) = true
  /\ isFinite (dmCost st) = true /\ isFinite (deathEvents st) = true
  /\ isFinite (soldEvents st) = true
  /\ forallb finite_event (healthEvents st) = true.
Proof.
  unfold sane_inputs. intros H.
  repeat rewrite andb_true_iff in H. rewrite negb_true_iff in H.
  destruct H as ((((((((((H1 & H2) & H3) & H4) & H5) & H6) & H7) & H8)
                    & H9) & H10) & H11).
  repeat split; trivial.
  intros Ho. now rewrite Ho in H3.
Qed.

Lemma sane_inputs_intro st :
  isFinite (milkingCows st) = true -> isNaN (freshPerYear st) = false ->
  (freshOverride st = true -> isFinite (freshPerYear st) = true) ->
  isFinite (replacementCost st) = true ->
  isFinite (salvageValue st) = true ->
  isFinite (milkPrice st) = true -> isFinite (lbMilkPerLbDM st) = true ->
  isFinite (dmCost st) = true -> isFinite (deathEvents st) = true ->
  isFinite (soldEvents st) = true ->
  forallb finite_event (healthEvents st) = true ->
  sane_inputs st = true.
Proof.
  intros H1 H2 H3 H4 H5 H6 H7 H8 H9 H10 H11. unfold sane_inputs.
  rewrite H1, H2, H4, H5, H6, H7, H8, H9, H10, H11.
  destruct (freshOverride st); trivial. now rewrite H3.
Qed.

Lemma wf_inputs_intro st :
  wf (milkingCows st) = true -> wf (freshPerYear st) = true ->
  wf (replacementCost st) = true -> wf (salvageValue st) = true ->
  wf (milkPrice st) = true -> wf (lbMilkPerLbDM st) = true ->
  wf (dmCost st) = true -> wf (deathEvents st) = true ->
  wf (soldEvents st) = true ->
  forallb wf_event (healthEvents st) = true ->
  wf_inputs st = true.
Proof.
  intros H1 H2 H3 H4 H5 H6 H7 H8 H9 H10. unfold wf_inputs.
  now rewrite H1, H2, H3, H4, H5, H6, H7, H8, H9, H10.
Qed.

Lemma finite_not_NaN x : isFinite x = true -> isNaN x = false.
Proof. now destruct x. Qed.

Lemma round_not_NaN x : isNaN x = false -> isNaN (round x) = false.
Proof.
  intros H. destruct x as [s|s| |s m e]; trivial. unfold round.
  destruct (0 <=? e)%Z; trivial.
  apply binary_normalize_spec. rewrite emin_eq. lia.
Qed.

Lemma auto_fresh_shape x :
  wf x = true -> isFinite x = true ->
  wf (round (x * lit 135 100)%num) = true
  /\ isNaN (round (x * lit 135 100)%num) = false.
Proof.
  intros W F.
  assert (W1 : wf (lit 135 100) = true) by (vm_compute; reflexivity).
  destruct (mul_ord x (lit 135 100) W W1 F eq_refl) as (Wp & Np & _).
  split; [now apply round_wf | now apply round_not_NaN].
Qed.

Lemma dispatch_sane a st :
  wf_inputs st = true -> sane_inputs st = true ->
  wf_inputs (dispatch Number a st) = true
  /\ sane_inputs (dispatch Number a st) = true.
Proof.
  intros W S.
  destruct (wf_inputs_inv st W)
    as (W1 & W2 & W3 & W4 & W5 & W6 & W7 & W8 & W9 & W10).
  destruct (sane_inputs_inv st S)
    as (S1 & S2 & S3 & S4 & S5 & S6 & S7 & S8 & S9 & S10 & S11).
  destruct a as [field raw|raw|k raw|]; cbn [dispatch].
  - rewrite handleNumberChange_set.
    assert (Fv := inputValue_finite Number raw).
    assert (Wv := inputValue_wf Number raw Number_wf).
    assert (Nv := finite_not_NaN _ Fv).
    destruct field;
      (split; [apply wf_inputs_intro | apply sane_inputs_intro]); trivial.
  - rewrite handleFreshChange_set.
    assert (Fv := inputValue_finite Number raw).
    assert (Wv := inputValue_wf Number raw Number_wf).
    assert (Nv := finite_not_NaN _ Fv).
    split; [apply wf_inputs_intro | apply sane_inputs_intro]; trivial.
  - assert (Fv := inputValue_finite Number raw).
    assert (Wv := inputValue_wf Number raw Number_wf).
    split; [apply wf_inputs_intro | apply sane_inputs_intro]; trivial;
      rewrite handleHealthChange_events;
      apply forallb_forall; intros ev' Hin;
      apply in_map_iff in Hin; destruct Hin as (ev & Hev & Hin);
      subst ev'.
    + assert (He : wf_event ev = true)
        by (now apply (proj1 (forallb_forall _ _) W10)).
      destruct (String.eqb (key ev) k); trivial.
      unfold wf_event in *. cbn [count costPerEvent].
      apply andb_true_iff in He. destruct He as [_ He].
      now rewrite Wv, He.
    + assert (He : finite_event ev = true)
        by (now apply (proj1 (forallb_forall _ _) S11)).
      destruct (String.eqb (key ev) k); trivial.
      unfold finite_event in *. cbn [count costPerEvent].
      apply andb_true_iff in He. destruct He as [_ He].
      now rewrite Fv, He.
  - destruct (auto_fresh_shape (milkingCows st) W1 S1) as [Wr Nr].
    split; [apply wf_inputs_intro | apply sane_inputs_intro]; trivial.
    cbn [resetFresh freshOverride]. discriminate.
Qed.

Lemma sane_fresh st :
  wf_inputs st = true -> sane_inputs st = true ->
  isNaN (Body.fresh st) = false.
Proof.
  intros W S.
  destruct (wf_inputs_inv st W) as (W1 & _).
  destruct (sane_inputs_inv st S) as (S1 & S2 & S3 & _).
  unfold Body.fresh. destruct (freshOverride st).
  - trivial.
  - now apply auto_fresh_shape.
Qed.

End SaneInputs.

(** X8: whatever is typed into the inputs and however often the reset
    button is used, the state stays within bounds: from a state whose
    numbers are finite, every sequence of input events leads to a state
    whose numbers are finite doubles, the stored fresh count apart while
    it is not in use, and whose effective fresh count is not NaN. *)
Theorem handlers_keep_inputs_sane Number acts st :
  (forall s, wf (Number s) = true) ->
  wf_inputs st = true -> sane_inputs st = true ->
  let st' := run Number acts st in
  wf_inputs st' = true /\ sane_inputs st' = true
  /\ isNaN (Body.fresh st') = false.
Proof.
  intros HN. revert st.
  induction acts as [|a acts IH]; intros st W S.
  - cbn [run fold_left]. repeat split; trivial. now apply sane_fresh.
  - destruct (dispatch_sane Number HN a st W S) as [W' S'].
    apply (IH _ W' S').
Qed.

Lemma handlers_keep_inputs_sane_witness :
  let N := fun s => if String.eqb s "1e400" then pInf else of_Z 250 in
  let st' := run N [NumberChange F_milkingCows "250"; FreshChange "1e400";
                    HealthChange "mastitis" EmptyString; ResetFresh]
               defaultState in
  wf_inputs st' = true /\ sane_inputs st' = true
  /\ isNaN (Body.fresh st') = false.
Proof.
  intros N.
  apply (handlers_keep_inputs_sane N
           [NumberChange F_milkingCows "250"; FreshChange "1e400";
            HealthChange "mastitis" EmptyString; ResetFresh] defaultState).
  - intros s. subst N. cbv beta. destruct (String.eqb s "1e400"); reflexivity.
  - reflexivity.
  - reflexivity.
Defined.

(** * The page: what is shown *)

(** X9: the scenario the summary shows is always found among the three
    computed ones, and it is the result of [computeScenario] for the
    selected scenario. *)
Theorem activeScenario_found st selectedScenario :
  HomePage.activeScenario st selectedScenario
  = Some (computeScenario st selectedScenario).
Proof. now destruct selectedScenario. Qed.

(** X10: the range input and the scenario determine each other: the
    position shown for a scenario selects that scenario again. *)
Theorem slider_round_trip selectedScenario :
  HomePage.sliderChange (HomePage.sliderValue selectedScenario)
  = selectedScenario.
Proof. now destruct selectedScenario. Qed.

(** X11: when the text entered for the herd size is empty, is not a
    number or is zero, every figure of the summary is a dash, in every
    scenario: net profit, ROI ("- : 1"), return per cow and year, return
    per cow and day, months and days to breakeven. *)
Theorem cleared_herd_summary Number toLocaleString raw st sc :
  is_zero (inputValue Number raw) = true ->
  map snd
    (summaryMetrics toLocaleString
       (computeScenario (handleNumberChange Number F_milkingCows raw st) sc))
  = ["-"; "- : 1"; "-"; "-"; "-"; "-"]%string.
Proof.
  intros Hm. rewrite handleNumberChange_set.
  set (st' := set_field st F_milkingCows (inputValue Number raw)).
  change (is_zero (milkingCows st') = true) in Hm.
  assert (Hd := deathSavings_no_cows st' sc Hm).
  assert (Ht := total_poisoned_by_death st' sc Hd).
  assert (Hn := netProfit_poisoned st' sc Ht).
  assert (Hi := investment_no_cows st' Hm).
  assert (Hr : Body.roiRatio st' sc = NaN).
  { apply roiRatio_poisoned; trivial. now rewrite Hi. }
  destruct (returnPerCow_poisoned st' sc Hn) as (Hy & _ & Hday).
  assert (Hb := breakeven_poisoned st' sc Ht).
  unfold summaryMetrics, computeScenario.
  cbn [netProfitAnnual roiRatio returnPerCowYear returnPerCowDay
       monthsToBreakeven daysToBreakeven].
  unfold Body.monthsToBreakeven, Body.daysToBreakeven.
  rewrite Hn, Hr, Hy, Hday, Hb. reflexivity.
Qed.

Lemma cleared_herd_summary_witness :
  map snd
    (summaryMetrics (fun _ _ => "1"%string)
       (computeScenario
          (handleNumberChange (fun _ => NaN) F_milkingCows EmptyString
             defaultState) base))
  = ["-"; "- : 1"; "-"; "-"; "-"; "-"]%string.
Proof.
  apply (cleared_herd_summary (fun _ => NaN) (fun _ _ => "1"%string)
           EmptyString defaultState base).
  reflexivity.
Defined.

(** * The figures of a result, one against the other *)

Section ResultShape.

Local Open Scope num_scope.

Lemma div_pos_sign x c :
  wf x = true -> wf c = true -> isNaN x = false -> pos_finite c ->
  wf (x / c) = true /\ isNaN (x / c) = false
  /\ ((0 <= ord x)%Z -> leb (of_Z 0) (x / c) = true)
  /\ ((ord x <= 0)%Z -> leb (x / c) (of_Z 0) = true).
Proof.
  intros Wx Wc Nx Pc. assert (Oc := pos_finite_ord c Wc Pc).
  assert (U := unit_scale_pos).
  destruct (isFinite x) eqn:F.
  - destruct Pc as (mc & ec & E).
    assert (D := div_ord_pos x mc ec Wx). rewrite <- E in D.
    destruct (D Wc F) as (Wd & Nd & Od). clear D.
    split; [trivial|split; [trivial|split]]; intros H.
    + apply ord_ge0; trivial. rewrite Od. apply R_nonneg; nia.
    + apply leb_ord; trivial. change (ord (of_Z 0)) with 0%Z.
      rewrite Od, <- (R_0 (ord c)) by trivial. apply R_mono; nia.
  - assert (C := cap_pos).
    destruct (not_finite_cases x Nx F) as [-> | ->];
      unfold pInf, nInf; rewrite div_inf_pos by trivial;
      (split; [reflexivity|split; [reflexivity|split]]);
      cbn [ord cond_Zopp]; intros H; try lia; reflexivity.
Qed.

Lemma deathSavings_wf st sc :
  wf_inputs st = true -> wf (Body.deathSavings st sc) = true.
Proof.
  intros H.
  destruct (wf_inputs_inv st H) as (Wm & _ & _ & Wsv & _ & _ & _ & Wd & _).
  assert (Wc : wf (of_Z 1 - Body.deathReduction sc) = true)
    by (destruct sc; vm_compute; reflexivity).
  unfold Body.deathSavings, Body.deathEventsAvoided, Body.newDeathEvents,
    Body.newDeathIncidence, Body.deathIncidence, Body.m.
  apply mul_wf; trivial. apply sub_wf; trivial.
  assert (Wi : wf (deathEvents st / milkingCows st) = true)
    by now apply div_wf.
  destruct (deathEvents st / milkingCows st === of_Z 0); trivial.
  apply div_wf; trivial. apply mul_wf; trivial. now apply mul_wf.
Qed.

Lemma cullingSavings_wf st sc :
  wf_inputs st = true -> wf (Body.cullingSavings st sc) = true.
Proof.
  intros H. assert (Wf := fresh_wf st H).
  destruct (wf_inputs_inv st H)
    as (_ & _ & Wrc & Wsv & _ & _ & _ & _ & Wse & _).
  assert (Wc : wf (of_Z 1 - Body.soldReduction sc) = true)
    by (destruct sc; vm_compute; reflexivity).
  unfold Body.cullingSavings, Body.cullingVoluntaryDeltaRate,
    Body.newSoldRate, Body.soldRate.
  assert (Wr : wf (soldEvents st / Body.fresh st) = true)
    by now apply div_wf.
  apply mul_wf; [apply mul_wf; trivial|now apply sub_wf].
  apply sub_wf; trivial. now apply mul_wf.
Qed.

Lemma healthSavings_wf st sc :
  wf_inputs st = true -> wf (Body.healthSavings st sc) = true.
Proof.
  intros H. destruct (wf_inputs_inv st H) as (_ & _ & _ & _ & _ & _ & _ & _ & _ & We).
  rewrite healthSavings_eventSavings.
  apply fold_never_neg_zero; trivial. discriminate.
Qed.

Lemma investment_wf st :
  wf_inputs st = true -> wf (Body.investmentAnnual st) = true.
Proof.
  intros H. destruct (wf_inputs_inv st H) as (Wm & _).
  unfold Body.investmentAnnual, Body.productCostAnnual, Body.m.
  assert (Wa : wf Body.applicatorInvestment = true) by reflexivity.
  assert (Wl : wf Body.laborCostAnnual = true) by reflexivity.
  assert (Wc : wf Body.costPerDose = true) by reflexivity.
  assert (Wy : wf Body.applicationsPerYear = true) by reflexivity.
  apply add_wf; trivial. apply add_wf; trivial.
  apply mul_wf; trivial. now apply mul_wf.
Qed.

Lemma result_wf st sc :
  wf_inputs st = true ->
  wf (Body.totalSavingsAnnual st sc) = true
  /\ wf (Body.investmentAnnual st) = true
  /\ wf (Body.netProfitAnnual st sc) = true
  /\ wf (Body.roiRatio st sc) = true.
Proof.
  intros H.
  assert (Ws : wf (Body.totalSavingsAnnual st sc) = true).
  { unfold Body.totalSavingsAnnual.
    apply add_wf; [apply add_wf; [apply add_wf|]|].
    - now apply deathSavings_wf.
    - now apply cullingSavings_wf.
    - now apply healthSavings_wf.
    - now apply production_wf. }
  assert (Wi := investment_wf st H).
  split; [trivial|split; [trivial|split]].
  - now apply sub_wf.
  - unfold Body.roiRatio.
    destruct (gtb (Body.investmentAnnual st) (of_Z 0)); [|reflexivity].
    now apply div_wf.
Qed.

(** The ratio of the investment to positive savings. *)
Lemma breakeven_ratio i s :
  wf i = true -> wf s = true -> isFinite i = true ->
  gtb i (of_Z 0) = true -> gtb s (of_Z 0) = true ->
  wf (i / s) = true /\ isNaN (i / s) = false
  /\ leb (of_Z 0) (i / s) = true
  /\ (leb i s = true -> leb (i / s) (of_Z 1) = true).
Proof.
  intros Wi Ws Fi Hi Hs.
  destruct (gt0_ord i Wi Hi) as [Ni Oi].
  destruct (gt0_ord s Ws Hs) as [Ns Os].
  assert (Pi := ord_pos_finite i Wi Fi Oi).
  destruct (isFinite s) eqn:Fs.
  - assert (Ps := ord_pos_finite s Ws Fs Os).
    destruct (div_pos_sign i s Wi Ws Ni Ps) as (Wq & Nq & Hq & _).
    repeat split; trivial.
    + apply Hq. lia.
    + intros L. rewrite <- (div_self s Ws Ps). now apply div_mono_l.
  - destruct (not_finite_cases s Ns Fs) as [-> | ->].
    + destruct Pi as (mi & ei & ->). repeat split.
    + discriminate.
Qed.

End ResultShape.

Section Consistency.

Local Open Scope num_scope.

Variable st : CalculatorState.
Variable sc : EfficacyScenario.
Hypothesis Wst : wf_inputs st = true.

Lemma profit_investment_finite :
  geb (milkingCows st) (of_Z 0) = true ->
  gtb (Body.netProfitAnnual st sc) (of_Z 0) = true ->
  isFinite (Body.investmentAnnual st) = true.
Proof.
  intros Hm Hp.
  destruct (result_wf st sc Wst) as (Ws & Wi & Wn & _).
  destruct (wf_inputs_inv st Wst) as (Wm & _).
  destruct (gt0_ord _ Wn Hp) as [Nn On].
  destruct (sub_not_NaN _ _ Nn) as [Ns Ni].
  destruct (gt0_ord _ Wi (investment_positive st Wm Hm)) as [_ Oi].
  destruct (isFinite (Body.investmentAnnual st)) eqn:F; trivial.
  exfalso. assert (C := cap_pos). unfold Body.netProfitAnnual in *.
  destruct (not_finite_cases _ Ni F) as [E|E]; rewrite E in *.
  - unfold pInf in *. rewrite sub_inf_r in On by trivial.
    cbn [ord cond_Zopp negb] in On. lia.
  - cbn [ord nInf cond_Zopp] in Oi. lia.
Qed.

End Consistency.

(** X12: a positive annual net profit goes with a benefit-cost ratio of at
    least 1 and with a breakeven within the year: at most 12 months and
    at most 365 days. *)
Theorem positive_profit_consistent st sc :
  wf_inputs st = true ->
  geb (milkingCows st) (of_Z 0) = true ->
  let r := computeScenario st sc in
  gtb (netProfitAnnual r) (of_Z 0) = true ->
  geb (roiRatio r) (of_Z 1) = true
  /\ exists mo da,
       monthsToBreakeven r = Some mo /\ daysToBreakeven r = Some da
       /\ leb mo (of_Z 12) = true /\ leb da (of_Z 365) = true.
Proof.
  intros W Hm r Hp. subst r.
  cbn [netProfitAnnual roiRatio monthsToBreakeven daysToBreakeven
       computeScenario] in *.
  destruct (result_wf st sc W) as (Ws & Wi & Wn & _).
  destruct (wf_inputs_inv st W) as (Wm & _).
  assert (Fi := profit_investment_finite st sc W Hm Hp).
  assert (Gi := investment_positive st Wm Hm).
  destruct (gt0_ord _ Wi Gi) as [Ni Oi].
  assert (Pi := ord_pos_finite _ Wi Fi Oi).
  assert (L : leb (Body.investmentAnnual st) (Body.totalSavingsAnnual st sc)
              = true) by now apply sub_pos_le.
  destruct (leb_not_NaN _ _ L) as [_ Ns].
  assert (Gs : gtb (Body.totalSavingsAnnual st sc) (of_Z 0) = true).
  { apply ord_gt0; trivial. apply leb_ord in L; trivial. lia. }
  split.
  - unfold Body.roiRatio. rewrite Gi. unfold geb.
    fold (leb (of_Z 1)
            (Body.totalSavingsAnnual st sc / Body.investmentAnnual st)%num).
    rewrite <- (div_self _ Wi Pi). now apply div_mono_l.
  - unfold Body.monthsToBreakeven, Body.daysToBreakeven, Body.breakeven.
    rewrite Gs, Gi. cbn [andb].
    destruct (breakeven_ratio _ _ Wi Ws Fi Gi Gs) as (Wq & Nq & Q0 & Q1).
    specialize (Q1 L).
    set (q := (Body.investmentAnnual st / Body.totalSavingsAnnual st sc)%num)
      in *.
    assert (Fq : isFinite q = true)
      by (apply (leb_finite_between q (of_Z 0) (of_Z 1)); trivial).
    exists (q * of_Z 12)%num, (q * of_Z 365)%num.
    split; [trivial|split; [trivial|split]].
    + assert (E : (of_Z 1 * of_Z 12)%num = of_Z 12)
        by (vm_compute; reflexivity).
      rewrite <- E. apply mul_mono_l; trivial; try reflexivity.
      now apply mul_ord.
    + assert (E : (of_Z 1 * of_Z 365)%num = of_Z 365)
        by (vm_compute; reflexivity).
      rewrite <- E. apply mul_mono_l; trivial; try reflexivity.
      now apply mul_ord.
Qed.

Lemma positive_profit_consistent_witness :
  geb (roiRatio (computeScenario defaultState base)) (of_Z 1) = true.
Proof.
  apply (positive_profit_consistent defaultState base);
    vm_compute; reflexivity.
Defined.

(** X13: the two breakeven figures are null together, for every input;
    when they are given, for a finite investment, neither is negative or
    NaN and the months are at most the days. *)
Theorem breakeven_months_days st sc :
  let r := computeScenario st sc in
  (monthsToBreakeven r = None <-> daysToBreakeven r = None)
  /\ (wf_inputs st = true -> isFinite (investmentAnnual r) = true ->
      match monthsToBreakeven r, daysToBreakeven r with
      | Some mo, Some da => leb (of_Z 0) mo = true /\ leb mo da = true
      | _, _ => True
      end).
Proof.
  intros r. subst r.
  cbn [investmentAnnual monthsToBreakeven daysToBreakeven computeScenario].
  unfold Body.monthsToBreakeven, Body.daysToBreakeven.
  destruct (Body.breakeven st sc) eqn:B.
  2: { split; [tauto|trivial]. }
  split; [split; discriminate|].
  intros W Fi. destruct (result_wf st sc W) as (Ws & Wi & _).
  unfold Body.breakeven in B. apply andb_true_iff in B.
  destruct B as [Gs Gi].
  destruct (breakeven_ratio _ _ Wi Ws Fi Gi Gs) as (Wq & Nq & Q0 & _).
  set (q := (Body.investmentAnnual st / Body.totalSavingsAnnual st sc)%num)
    in *.
  assert (P12 : pos_finite (of_Z 12)) by (vm_compute; eauto).
  assert (P365 : pos_finite (of_Z 365)) by (vm_compute; eauto).
  split.
  - apply mul_ge0; trivial.
  - apply mul_mono_r; trivial; try reflexivity;
      now apply mul_pos_not_NaN.
Qed.

Lemma breakeven_months_days_witness :
  match monthsToBreakeven (computeScenario defaultState base),
        daysToBreakeven (computeScenario defaultState base) with
  | Some mo, Some da => leb (of_Z 0) mo = true /\ leb mo da = true
  | _, _ => True
  end.
Proof.
  apply (proj2 (breakeven_months_days defaultState base));
    vm_compute; reflexivity.
Defined.

(** X14: for a positive herd size the returns per cow have the sign of the
    annual net profit and shrink from year to month to day: with a net
    profit that is not negative, 0 <= day <= month <= year, and with one
    that is not positive, year <= month <= day <= 0. *)
Theorem returnPerCow_order st sc :
  wf_inputs st = true ->
  is_pos_finite (milkingCows st) = true ->
  let r := computeScenario st sc in
  (leb (of_Z 0) (netProfitAnnual r) = true ->
   leb (of_Z 0) (returnPerCowDay r) = true
   /\ leb (returnPerCowDay r) (returnPerCowMonth r) = true
   /\ leb (returnPerCowMonth r) (returnPerCowYear r) = true)
  /\ (leb (netProfitAnnual r) (of_Z 0) = true ->
      leb (returnPerCowYear r) (returnPerCowMonth r) = true
      /\ leb (returnPerCowMonth r) (returnPerCowDay r) = true
      /\ leb (returnPerCowDay r) (of_Z 0) = true).
Proof.
  intros W Pm r. subst r.
  cbn [netProfitAnnual returnPerCowYear returnPerCowMonth returnPerCowDay
       computeScenario].
  destruct (result_wf st sc W) as (_ & _ & Wn & _).
  destruct (wf_inputs_inv st W) as (Wm & _).
  apply is_pos_finite_inv in Pm.
  unfold Body.returnPerCowDay, Body.returnPerCowMonth, Body.returnPerCowYear,
    Body.m.
  set (np := Body.netProfitAnnual st sc) in *.
  assert (W0 : wf (of_Z 0) = true) by reflexivity.
  assert (W12 : wf (of_Z 12) = true) by reflexivity.
  assert (W30 : wf (of_Z 30) = true) by reflexivity.
  assert (P12 : pos_finite (of_Z 12)) by (vm_compute; eauto).
  assert (P30 : pos_finite (of_Z 30)) by (vm_compute; eauto).
  assert (U12 : (unit_scale <= ord (of_Z 12))%Z)
    by (vm_compute; discriminate).
  assert (U30 : (unit_scale <= ord (of_Z 30))%Z)
    by (vm_compute; discriminate).
  split; intros H.
  - destruct (leb_not_NaN _ _ H) as [_ Nn].
    assert (On := ge0_ord _ Wn H).
    destruct (div_pos_sign np _ Wn Wm Nn Pm) as (Wy & Ny & Hy & _).
    specialize (Hy On). assert (Oy := ge0_ord _ Wy Hy).
    destruct (div_by_ge1 _ _ Wy W12 Ny P12 U12) as (Wmo & Nmo & Hmo & _).
    destruct (Hmo Oy) as [M0 M1]. assert (Omo := ge0_ord _ Wmo M0).
    destruct (div_by_ge1 _ _ Wmo W30 Nmo P30 U30) as (Wd & Nd & Hd & _).
    destruct (Hd Omo) as [D0 D1].
    repeat split; trivial.
  - destruct (leb_not_NaN _ _ H) as [Nn _].
    assert (On : (ord np <= 0)%Z).
    { apply leb_ord in H; trivial. }
    destruct (div_pos_sign np _ Wn Wm Nn Pm) as (Wy & Ny & _ & Hy).
    specialize (Hy On).
    assert (Oy : (ord (np / milkingCows st)%num <= 0)%Z).
    { apply leb_ord in Hy; trivial. }
    destruct (div_by_ge1 _ _ Wy W12 Ny P12 U12) as (Wmo & Nmo & _ & Hmo).
    destruct (Hmo Oy) as [M0 M1].
    assert (Omo : (ord (np / milkingCows st / of_Z 12)%num <= 0)%Z).
    { apply leb_ord in M1; trivial. }
    destruct (div_by_ge1 _ _ Wmo W30 Nmo P30 U30) as (Wd & Nd & _ & Hd).
    destruct (Hd Omo) as [D0 D1].
    repeat split; trivial.
Qed.

Lemma returnPerCow_order_witness :
  let r := computeScenario defaultState base in
  leb (of_Z 0) (returnPerCowDay r) = true
  /\ leb (returnPerCowDay r) (returnPerCowMonth r) = true
  /\ leb (returnPerCowMonth r) (returnPerCowYear r) = true.
Proof.
  intros r.
  apply (returnPerCow_order defaultState base); vm_compute; reflexivity.
Defined.

(** X15: for a herd size that is not negative the annual net profit is at
    most the annual savings. *)
Theorem netProfit_le_savings st sc :
  wf_inputs st = true ->
  geb (milkingCows st) (of_Z 0) = true ->
  let r := computeScenario st sc in
  isNaN (netProfitAnnual r) = false ->
  leb (netProfitAnnual r) (savingsAnnual r) = true.
Proof.
  intros W Hm r N. subst r.
  cbn [netProfitAnnual savingsAnnual computeScenario] in *.
  destruct (result_wf st sc W) as (Ws & Wi & _).
  destruct (wf_inputs_inv st W) as (Wm & _).
  unfold Body.netProfitAnnual in *.
  destruct (sub_not_NaN _ _ N) as [Ns Ni].
  destruct (gt0_ord _ Wi (investment_positive st Wm Hm)) as [_ Oi].
  rewrite <- (sub_zero_r (Body.totalSavingsAnnual st sc)) at 2.
  apply sub_mono; trivial.
  - now apply leb_refl.
  - apply ord_ge0; trivial. lia.
  - now rewrite sub_zero_r.
Qed.

Lemma netProfit_le_savings_witness :
  let r := computeScenario defaultState base in
  leb (netProfitAnnual r) (savingsAnnual r) = true.
Proof.
  intros r.
  apply (netProfit_le_savings defaultState base); vm_compute; reflexivity.
Defined.

(** * The health table and the comparison bars *)

(** X16: the incidence shown for a health event with a finite count is
    never NaN: it is 0 whenever the fresh count is not positive, zero
    and NaN included, and it is not negative for a count that is not
    negative. *)
Theorem incidence_guarded st ev :
  wf_inputs st = true ->
  wf (count ev) = true -> isFinite (count ev) = true ->
  isNaN (HomePage.incidence st ev) = false
  /\ (gtb (HomePage.fresh st) (of_Z 0) = false ->
      HomePage.incidence st ev = of_Z 0)
  /\ (leb (of_Z 0) (count ev) = true ->
      leb (of_Z 0) (HomePage.incidence st ev) = true).
Proof.
  intros W Wc Fc. assert (Wf := fresh_wf st W).
  unfold HomePage.incidence. change (HomePage.fresh st) with (Body.fresh st).
  destruct (gtb (Body.fresh st) (of_Z 0)) eqn:G.
  2: { repeat split. }
  destruct (gt0_ord _ Wf G) as [Nf Of].
  assert (Nc := finite_not_NaN _ Fc).
  assert (W100 : wf (of_Z 100) = true) by reflexivity.
  assert (P100 : pos_finite (of_Z 100)) by (vm_compute; eauto).
  destruct (isFinite (Body.fresh st)) eqn:Ff.
  - assert (Pf := ord_pos_finite _ Wf Ff Of).
    destruct (div_pos_sign _ _ Wc Wf Nc Pf) as (Wq & Nq & Hq & _).
    split; [now apply mul_pos_not_NaN|split; [discriminate|]].
    intros H. apply mul_ge0; trivial. apply Hq. now apply ge0_ord.
  - destruct (not_finite_cases _ Nf Ff) as [E|E]; rewrite E in *.
    + destruct (count ev) as [[]|[]| |[] m e]; try discriminate;
        repeat split; intros; discriminate.
    + discriminate.
Qed.

Lemma incidence_guarded_witness :
  HomePage.incidence noFresh idleEvent = of_Z 0.
Proof.
  apply (incidence_guarded noFresh idleEvent); reflexivity.
Defined.

Section MathMax.

Lemma max2_NaN_r x : Math_max2 x NaN = NaN.
Proof. unfold Math_max2. cbn [isNaN NaN]. now rewrite orb_true_r. Qed.

Lemma max2_spec x y :
  wf x = true -> wf y = true -> isNaN x = false -> isNaN y = false ->
  (Math_max2 x y = x \/ Math_max2 x y = y)
  /\ leb x (Math_max2 x y) = true /\ leb y (Math_max2 x y) = true.
Proof.
  intros Wx Wy Nx Ny. unfold Math_max2. rewrite Nx, Ny. cbn [orb].
  destruct (ltb x y) eqn:L1.
  { apply ltb_ord in L1; trivial.
    split; [now right|split; [apply leb_ord; trivial; lia|now apply leb_refl]]. }
  destruct (ltb y x) eqn:L2.
  { apply ltb_ord in L2; trivial.
    split; [now left|split; [now apply leb_refl|apply leb_ord; trivial; lia]]. }
  assert (E : ord x = ord y).
  { destruct (Z.lt_total (ord x) (ord y)) as [H|[H|H]]; trivial.
    - apply ltb_ord in H; trivial. congruence.
    - apply ltb_ord in H; trivial. congruence. }
  destruct (is_zero x && sign_bit x).
  - split; [now right|split; [apply leb_ord; trivial; lia|now apply leb_refl]].
  - split; [now left|split; [now apply leb_refl|apply leb_ord; trivial; lia]].
Qed.

Lemma fold_max_NaN l : fold_left Math_max2 l NaN = NaN.
Proof. induction l; trivial. Qed.

Lemma fold_max_has_NaN l : forall acc,
  In NaN l -> fold_left Math_max2 l acc = NaN.
Proof.
  induction l as [|a l IH]; intros acc H; [contradiction|].
  cbn [fold_left]. destruct H as [->|H].
  - rewrite max2_NaN_r. apply fold_max_NaN.
  - now apply IH.
Qed.

Lemma fold_max_spec l : forall acc,
  wf acc = true -> isNaN acc = false ->
  (forall x, In x l -> wf x = true /\ isNaN x = false) ->
  let r := fold_left Math_max2 l acc in
  wf r = true /\ isNaN r = false /\ leb acc r = true
  /\ (forall x, In x l -> leb x r = true)
  /\ (r = acc \/ In r l).
Proof.
  induction l as [|a l IH]; intros acc Wa Na Hl r; subst r.
  - cbn [fold_left]. repeat split; trivial.
    + now apply leb_refl.
    + contradiction.
    + now left.
  - cbn [fold_left].
    destruct (Hl a (or_introl eq_refl)) as [Wx Nx].
    destruct (max2_spec acc a Wa Wx Na Nx) as (Hc & L1 & L2).
    assert (Wm : wf (Math_max2 acc a) = true)
      by (destruct Hc as [-> | ->]; trivial).
    assert (Nm : isNaN (Math_max2 acc a) = false)
      by (destruct Hc as [-> | ->]; trivial).
    destruct (IH (Math_max2 acc a) Wm Nm) as (Wr & Nr & Lr & Hr & Hi).
    { intros x Hx. apply Hl. now right. }
    split; [trivial|split; [trivial|split; [|split]]].
    + now apply (leb_trans _ (Math_max2 acc a)).
    + intros x [<-|Hx].
      * now apply (leb_trans _ (Math_max2 acc a)).
      * now apply Hr.
    + destruct Hi as [Hi|Hi].
      * rewrite Hi. destruct Hc as [-> | ->]; [now left|right; now left].
      * right. now right.
Qed.

End MathMax.

Section Bars.

Local Open Scope num_scope.

Variable f : ScenarioResult -> number.
Variable scs : list ScenarioResult.
Hypothesis Hf : forall r, In r scs ->
  wf (f r) = true /\ not_infinite (f r) = true.

Lemma clipped_shape v :
  wf v = true -> isFinite v = true ->
  wf (Math_max2 (of_Z 0) v) = true
  /\ isFinite (Math_max2 (of_Z 0) v) = true
  /\ leb (of_Z 0) (Math_max2 (of_Z 0) v) = true.
Proof.
  intros W F. assert (N := finite_not_NaN _ F).
  destruct (max2_spec (of_Z 0) v eq_refl W eq_refl N) as (Hc & L & _).
  repeat split; trivial; destruct Hc as [-> | ->]; trivial.
Qed.

Lemma bar_top_NaN r :
  In r scs -> isNaN (f r) = true ->
  Math_max (map (fun x => Math_max2 (of_Z 0) (f x)) scs) = NaN.
Proof.
  intros Hr N. apply fold_max_has_NaN.
  apply in_map_iff. exists r. split; trivial.
  apply isNaN_eq in N. rewrite N. reflexivity.
Qed.

Lemma bar_top_finite :
  (forall r, In r scs -> isNaN (f r) = false) ->
  let top := Math_max (map (fun x => Math_max2 (of_Z 0) (f x)) scs) in
  wf top = true /\ isNaN top = false
  /\ (forall r, In r scs -> leb (Math_max2 (of_Z 0) (f r)) top = true)
  /\ (top = nInf \/ exists r, In r scs /\ top = Math_max2 (of_Z 0) (f r)).
Proof.
  intros HN top.
  assert (Hl : forall x,
             In x (map (fun x => Math_max2 (of_Z 0) (f x)) scs) ->
             wf x = true /\ isNaN x = false).
  { intros x Hx. apply in_map_iff in Hx. destruct Hx as (r & <- & Hr).
    destruct (Hf r Hr) as [W I]. specialize (HN r Hr).
    assert (F : isFinite (f r) = true) by (now destruct (f r)).
    destruct (clipped_shape _ W F) as (Wc & Fc & _).
    split; trivial. now apply finite_not_NaN. }
  destruct (fold_max_spec _ nInf eq_refl eq_refl Hl)
    as (Wt & Nt & _ & Ht & Hi).
  fold (Math_max (map (fun x => Math_max2 (of_Z 0) (f x)) scs)) in *.
  fold top in Wt, Nt, Ht, Hi.
  split; [trivial|split; [trivial|split]].
  - intros r Hr. apply Ht. apply in_map_iff. now exists r.
  - destruct Hi as [Hi|Hi]; [now left|right].
    apply in_map_iff in Hi. destruct Hi as (r & E & Hr). now exists r.
Qed.

Lemma bar_top_pos :
  let top := Math_max (map (fun x => Math_max2 (of_Z 0) (f x)) scs) in
  gtb top (of_Z 0) = true ->
  wf top = true /\ pos_finite top
  /\ (forall r, In r scs ->
        wf (Math_max2 (of_Z 0) (f r)) = true
        /\ isFinite (Math_max2 (of_Z 0) (f r)) = true
        /\ leb (of_Z 0) (Math_max2 (of_Z 0) (f r)) = true
        /\ leb (Math_max2 (of_Z 0) (f r)) top = true)
  /\ exists r, In r scs /\ top = Math_max2 (of_Z 0) (f r).
Proof.
  intros top G.
  assert (HN : forall r, In r scs -> isNaN (f r) = false).
  { intros r Hr. destruct (isNaN (f r)) eqn:N; trivial.
    exfalso. unfold top in G. now rewrite (bar_top_NaN r Hr N) in G. }
  assert (HF : forall r, In r scs -> isFinite (f r) = true).
  { intros r Hr. destruct (Hf r Hr) as [_ I]. specialize (HN r Hr).
    now destruct (f r). }
  destruct (bar_top_finite HN) as (Wt & Nt & Ht & Hi). fold top in Wt, Nt, Ht, Hi.
  destruct Hi as [Hi|(r0 & Hr0 & E0)].
  { exfalso. now rewrite Hi in G. }
  destruct (gt0_ord _ Wt G) as [_ Ot].
  assert (Ft : isFinite top = true).
  { rewrite E0. destruct (Hf r0 Hr0) as [W _].
    now apply clipped_shape, HF. }
  split; [trivial|split; [now apply ord_pos_finite|split]].
  - intros r Hr. destruct (Hf r Hr) as [W _].
    destruct (clipped_shape _ W (HF r Hr)) as (Wc & Fc & Lc).
    repeat split; trivial. now apply Ht.
  - now exists r0.
Qed.

Lemma hundred_percent x :
  wf x = true -> pos_finite x -> x / x * of_Z 100 = of_Z 100.
Proof. intros W P. now rewrite div_self. Qed.

Lemma bar_bounds s :
  In s scs ->
  let top := Math_max (map (fun x => Math_max2 (of_Z 0) (f x)) scs) in
  let w := if gtb top (of_Z 0)
           then Math_max2 (of_Z 0) (f s) / top * of_Z 100
           else of_Z 0 in
  leb (of_Z 0) w = true /\ leb w (of_Z 100) = true.
Proof.
  intros Hs top w. subst w.
  destruct (gtb top (of_Z 0)) eqn:G; [|split; reflexivity].
  destruct (bar_top_pos G) as (Wt & Pt & Hr & _). fold top in Wt, Pt, Hr.
  destruct (Hr s Hs) as (Wc & Fc & Lc & Lt).
  set (a := Math_max2 (of_Z 0) (f s)) in *.
  assert (P100 : pos_finite (of_Z 100)) by (vm_compute; eauto).
  destruct (div_ge0 a top Wc Wt Fc Lc Pt) as [Wq Q0].
  assert (Q1 : leb (a / top) (of_Z 1) = true).
  { rewrite <- (div_self top Wt Pt). now apply div_mono_l. }
  assert (Fq : isFinite (a / top) = true)
    by (apply (leb_finite_between _ (of_Z 0) (of_Z 1)); trivial).
  split.
  - apply mul_ge0; trivial.
  - assert (E : of_Z 1 * of_Z 100 = of_Z 100) by (vm_compute; reflexivity).
    rewrite <- E. apply mul_mono_l; trivial; try reflexivity.
    now apply mul_ord.
Qed.

Lemma bar_full :
  let top := Math_max (map (fun x => Math_max2 (of_Z 0) (f x)) scs) in
  gtb top (of_Z 0) = true ->
  exists s, In s scs
            /\ Math_max2 (of_Z 0) (f s) / top * of_Z 100 = of_Z 100.
Proof.
  intros top G.
  destruct (bar_top_pos G) as (Wt & Pt & _ & (r & Hr & E)).
  fold top in Wt, Pt, E.
  exists r. split; trivial. rewrite <- E. now apply hundred_percent.
Qed.

End Bars.

Lemma scenarios_shape st (f : ScenarioResult -> number) :
  wf_inputs st = true ->
  (forall sc, wf (f (computeScenario st sc)) = true) ->
  forallb (fun r => not_infinite (f r)) (HomePage.scenarios st) = true ->
  forall r, In r (HomePage.scenarios st) ->
  wf (f r) = true /\ not_infinite (f r) = true.
Proof.
  intros W Wf H r Hr. split.
  - destruct Hr as [<-|[<-|[<-|[]]]]; apply Wf.
  - now apply (proj1 (forallb_forall _ _) H).
Qed.

Lemma maxNet_eq scs :
  HomePage.maxNet scs
  = Math_max (map (fun x => Math_max2 (of_Z 0) (netProfitAnnual x)) scs).
Proof. reflexivity. Qed.

Lemma maxRoi_eq scs :
  HomePage.maxRoi scs
  = Math_max (map (fun x => Math_max2 (of_Z 0) (roiRatio x)) scs).
Proof. reflexivity. Qed.

Lemma netWidth_eq scs :
  HomePage.netWidth scs
  = fun s =>
      if gtb (Math_max
                (map (fun x => Math_max2 (of_Z 0) (netProfitAnnual x)) scs))
             (of_Z 0)
      then (Math_max2 (of_Z 0) (netProfitAnnual s)
            / Math_max
                (map (fun x => Math_max2 (of_Z 0) (netProfitAnnual x)) scs)
            * of_Z 100)%num
      else of_Z 0.
Proof. reflexivity. Qed.

Lemma roiWidth_eq scs :
  HomePage.roiWidth scs
  = fun s =>
      if gtb (Math_max
                (map (fun x => Math_max2 (of_Z 0) (roiRatio x)) scs))
             (of_Z 0)
      then (Math_max2 (of_Z 0) (roiRatio s)
            / Math_max
                (map (fun x => Math_max2 (of_Z 0) (roiRatio x)) scs)
            * of_Z 100)%num
      else of_Z 0.
Proof. reflexivity. Qed.

Lemma scenarios_inv st r :
  In r (HomePage.scenarios st) -> exists sc, r = computeScenario st sc.
Proof. intros [<-|[<-|[<-|[]]]]; eexists; reflexivity. Qed.

Lemma scenarios_In st sc : In (computeScenario st sc) (HomePage.scenarios st).
Proof. destruct sc; cbn; tauto. Qed.

(** X17: the bars of the scenario comparison stay within their track: when
    no net profit and no ROI of the three scenarios is infinite, every
    net-profit bar and every ROI bar has a width between 0 and 100
    percent, whatever the sign of the figures and also when some of them
    are NaN. *)
Theorem bar_widths_bounded st sc :
  wf_inputs st = true ->
  forallb (fun r => not_infinite (netProfitAnnual r))
          (HomePage.scenarios st) = true ->
  forallb (fun r => not_infinite (roiRatio r))
          (HomePage.scenarios st) = true ->
  let scs := HomePage.scenarios st in
  let s := computeScenario st sc in
  leb (of_Z 0) (HomePage.netWidth scs s) = true
  /\ leb (HomePage.netWidth scs s) (of_Z 100) = true
  /\ leb (of_Z 0) (HomePage.roiWidth scs s) = true
  /\ leb (HomePage.roiWidth scs s) (of_Z 100) = true.
Proof.
  intros W Hn Hr scs s.
  assert (Wn : forall sc', wf (netProfitAnnual (computeScenario st sc')) = true)
    by (intros sc'; now apply result_wf).
  assert (Wr : forall sc', wf (roiRatio (computeScenario st sc')) = true)
    by (intros sc'; now apply result_wf).
  destruct (bar_bounds netProfitAnnual scs
              (scenarios_shape st _ W Wn Hn) s (scenarios_In st sc)) as [A B].
  destruct (bar_bounds roiRatio scs
              (scenarios_shape st _ W Wr Hr) s (scenarios_In st sc)) as [C D].
  repeat split; trivial.
Qed.

Lemma bar_widths_bounded_witness :
  leb (HomePage.netWidth (HomePage.scenarios defaultState)
         (computeScenario defaultState conservative)) (of_Z 100) = true.
Proof.
  apply (bar_widths_bounded defaultState conservative); vm_compute;
    reflexivity.
Defined.

(** X18: when the largest net profit of the three scenarios is positive and
    none is infinite, the net-profit bar of some scenario is exactly 100
    percent wide; likewise for the ROI bars. *)
Theorem bar_full_width st :
  wf_inputs st = true ->
  forallb (fun r => not_infinite (netProfitAnnual r))
          (HomePage.scenarios st) = true ->
  forallb (fun r => not_infinite (roiRatio r))
          (HomePage.scenarios st) = true ->
  let scs := HomePage.scenarios st in
  (gtb (HomePage.maxNet scs) (of_Z 0) = true ->
   exists sc, HomePage.netWidth scs (computeScenario st sc) = of_Z 100)
  /\ (gtb (HomePage.maxRoi scs) (of_Z 0) = true ->
      exists sc, HomePage.roiWidth scs (computeScenario st sc) = of_Z 100).
Proof.
  intros W Hn Hr scs.
  assert (Wn : forall sc', wf (netProfitAnnual (computeScenario st sc')) = true)
    by (intros sc'; now apply result_wf).
  assert (Wr : forall sc', wf (roiRatio (computeScenario st sc')) = true)
    by (intros sc'; now apply result_wf).
  subst scs. split; intros G.
  - rewrite netWidth_eq. rewrite maxNet_eq in G. rewrite G.
    destruct (bar_full netProfitAnnual _
                (scenarios_shape st _ W Wn Hn) G) as (s & Hs & E).
    destruct (scenarios_inv st s Hs) as [sc ->]. now exists sc.
  - rewrite roiWidth_eq. rewrite maxRoi_eq in G. rewrite G.
    destruct (bar_full roiRatio _
                (scenarios_shape st _ W Wr Hr) G) as (s & Hs & E).
    destruct (scenarios_inv st s Hs) as [sc ->]. now exists sc.
Qed.

Lemma bar_full_width_witness :
  exists sc,
    HomePage.netWidth (HomePage.scenarios defaultState)
      (computeScenario defaultState sc) = of_Z 100.
Proof.
  apply (bar_full_width defaultState); vm_compute; reflexivity.
Defined.

Section EmptyBars.

Local Open Scope num_scope.

Lemma clipped_loss v :
  leb v (of_Z 0) = true -> Math_max2 (of_Z 0) v = of_Z 0.
Proof.
  destruct v as [[]|[]| |[] m e]; intros H; try discriminate; reflexivity.
Qed.

Lemma zero_bar top :
  gtb top (of_Z 0) = true -> of_Z 0 / top * of_Z 100 = of_Z 0.
Proof.
  destruct top as [[]|[]| |[] m e]; intros H; try discriminate; reflexivity.
Qed.

End EmptyBars.

(** X19: a scenario whose net profit is negative or zero gets a net-profit
    bar of width 0, whatever the other scenarios are; likewise for its
    ROI bar. *)
Theorem loss_has_empty_bar scs s :
  (leb (netProfitAnnual s) (of_Z 0) = true ->
   HomePage.netWidth scs s = of_Z 0)
  /\ (leb (roiRatio s) (of_Z 0) = true ->
      HomePage.roiWidth scs s = of_Z 0).
Proof.
  split; intros H.
  - rewrite netWidth_eq, (clipped_loss _ H).
    destruct (gtb _ _) eqn:G; trivial. now apply zero_bar.
  - rewrite roiWidth_eq, (clipped_loss _ H).
    destruct (gtb _ _) eqn:G; trivial. now apply zero_bar.
Qed.

Lemma loss_has_empty_bar_witness :
  HomePage.netWidth (HomePage.scenarios costlyFeed)
    (computeScenario costlyFeed base) = of_Z 0.
Proof.
  apply (loss_has_empty_bar (HomePage.scenarios costlyFeed)
           (computeScenario costlyFeed base)).
  vm_compute. reflexivity.
Defined.

(** X20: when the net profit of one scenario is NaN, the net-profit bars
    of all scenarios have width 0; likewise for the ROI bars. *)
Theorem bars_vanish_on_NaN scs r s :
  In r scs ->
  (isNaN (netProfitAnnual r) = true -> HomePage.netWidth scs s = of_Z 0)
  /\ (isNaN (roiRatio r) = true -> HomePage.roiWidth scs s = of_Z 0).
Proof.
  intros Hr. split; intros N.
  - rewrite netWidth_eq.
    now rewrite (bar_top_NaN netProfitAnnual scs r Hr N).
  - rewrite roiWidth_eq.
    now rewrite (bar_top_NaN roiRatio scs r Hr N).
Qed.

Lemma bars_vanish_on_NaN_witness :
  HomePage.netWidth (HomePage.scenarios emptyHerd)
    (computeScenario emptyHerd optimistic) = of_Z 0.
Proof.
  apply (bars_vanish_on_NaN (HomePage.scenarios emptyHerd)
           (computeScenario emptyHerd base)
           (computeScenario emptyHerd optimistic)).
  - right. left. reflexivity.
  - vm_compute. reflexivity.
Defined.

Section HealthFrame.

Local Open Scope num_scope.

Lemma fold_counts_costs sc l : forall l' acc,
  map (fun ev => (count ev, costPerEvent ev)) l
  = map (fun ev => (count ev, costPerEvent ev)) l' ->
  fold_left (fun acc ev => acc + eventSavings sc ev) l acc
  = fold_left (fun acc ev => acc + eventSavings sc ev) l' acc.
Proof.
  induction l as [|a l IH]; intros [|a' l'] acc H; try discriminate; trivial.
  cbn [map] in H. injection H as Hc Hp Hl.
  cbn [fold_left]. unfold eventSavings at 2 4. rewrite Hc, Hp.
  now apply IH.
Qed.

End HealthFrame.

(** X21: the names and keys of the health events play no part in the
    result: two lists of events with the same counts and costs, in the
    same order, give the same result. *)
Theorem health_names_unread st l l' sc :
  map (fun ev => (count ev, costPerEvent ev)) l
  = map (fun ev => (count ev, costPerEvent ev)) l' ->
  computeScenario (set_healthEvents st l) sc
  = computeScenario (set_healthEvents st l') sc.
Proof.
  intros H.
  change (set_healthEvents st l)
    with (set_healthEvents (set_healthEvents st l') l).
  apply computeScenario_healthEvents.
  rewrite !healthSavings_eventSavings.
  now apply fold_counts_costs.
Qed.

Lemma health_names_unread_witness :
  computeScenario (set_healthEvents defaultState [idleEvent]) base
  = computeScenario
      (set_healthEvents defaultState
         [{| name := "Bloat"; key := "bloat";
             count := of_Z 0; costPerEvent := of_Z 0 |}]) base.
Proof.
  apply (health_names_unread defaultState [idleEvent]
           [{| name := "Bloat"; key := "bloat";
               count := of_Z 0; costPerEvent := of_Z 0 |}] base).
  reflexivity.
Defined.

(** * Investment and health savings against the inputs *)

(** X22: a larger herd never lowers the annual investment: for herd
    sizes [m <= m'] the investment for [m] is at most the investment for
    [m'], whatever the other inputs and the scenarios. *)
Theorem investment_monotone st st' sc sc' :
  wf (milkingCows st) = true -> wf (milkingCows st') = true ->
  leb (milkingCows st) (milkingCows st') = true ->
  leb (investmentAnnual (computeScenario st sc))
      (investmentAnnual (computeScenario st' sc')) = true.
Proof.
  intros W W' L. cbn [investmentAnnual computeScenario].
  rewrite !investment_formula by trivial.
  rewrite !(mul_comm (lit 45 10)).
  destruct (leb_not_NaN _ _ L) as [N N'].
  assert (Wc : wf (lit 45 10) = true) by reflexivity.
  assert (Pc : pos_finite (lit 45 10)) by (vm_compute; eauto).
  assert (W1 : wf (of_Z 120) = true) by reflexivity.
  assert (W2 : wf (of_Z 15840) = true) by reflexivity.
  set (p := (milkingCows st * lit 45 10)%num).
  set (p' := (milkingCows st' * lit 45 10)%num).
  assert (Np : isNaN p = false) by now apply mul_pos_not_NaN.
  assert (Np' : isNaN p' = false) by now apply mul_pos_not_NaN.
  assert (Wp : wf p = true) by now apply mul_wf.
  assert (Wp' : wf p' = true) by now apply mul_wf.
  assert (Lp : leb p p' = true)
    by (apply mul_mono_l; trivial; reflexivity).
  assert (Nq : isNaN (p + of_Z 120)%num = false)
    by now apply add_finite_not_NaN.
  assert (Nq' : isNaN (p' + of_Z 120)%num = false)
    by now apply add_finite_not_NaN.
  assert (Lq : leb (p + of_Z 120)%num (p' + of_Z 120)%num = true)
    by (apply add_mono; trivial; reflexivity).
  apply add_mono; trivial; try reflexivity; try now apply add_wf.
  - apply add_finite_not_NaN; trivial. now apply add_wf.
  - apply add_finite_not_NaN; trivial. now apply add_wf.
Qed.

Lemma investment_monotone_witness :
  leb (investmentAnnual (computeScenario defaultState conservative))
      (investmentAnnual
         (computeScenario
            (handleNumberChange (fun _ => of_Z 20000) F_milkingCows "20000"
               defaultState) optimistic)) = true.
Proof.
  apply (investment_monotone defaultState
           (handleNumberChange (fun _ => of_Z 20000) F_milkingCows "20000"
              defaultState) conservative optimistic);
    reflexivity.
Defined.

Section HealthSign.

Local Open Scope num_scope.

Lemma add_ge0 x y :
  wf x = true -> wf y = true ->
  leb (of_Z 0) x = true -> leb (of_Z 0) y = true ->
  leb (of_Z 0) (x + y) = true.
Proof.
  intros Wx Wy Hx Hy.
  destruct (leb_not_NaN _ _ Hx) as [_ Nx].
  destruct (leb_not_NaN _ _ Hy) as [_ Ny].
  assert (N : isNaN (x + y) = false).
  { destruct (isFinite y) eqn:Fy; [now apply add_finite_not_NaN|].
    destruct (not_finite_cases y Ny Fy) as [-> | ->]; [|discriminate].
    destruct x as [[]|[]| |[] m e]; try discriminate; reflexivity. }
  change (of_Z 0) with (of_Z 0 + of_Z 0). apply add_mono; trivial.
Qed.

Lemma eventSavings_ge0 sc ev :
  nonneg_event ev = true -> leb (of_Z 0) (eventSavings sc ev) = true.
Proof.
  intros H. unfold nonneg_event in H. apply andb_true_iff in H.
  destruct H as [Hc Hp].
  destruct (nonneg_finite_inv _ Hc) as (Wc & Fc & Lc).
  destruct (nonneg_finite_inv _ Hp) as (Wp & Fp & Lp).
  destruct (health_reduction_shape sc) as (Wr & Pr & Or).
  destruct (pos_finite_facts _ Pr) as (Fr & _).
  unfold eventSavings.
  set (red := HEALTH_EVENT_REDUCTION_BASE * Body.mult sc) in *.
  assert (Fa : isFinite (count ev * red) = true)
    by now apply mul_shrink_finite.
  assert (La : leb (of_Z 0) (count ev * red) = true)
    by now apply mul_ge0.
  assert (Wa : wf (count ev * red) = true) by now apply mul_wf.
  destruct (mul_ord _ _ Wa Wp Fa Fp) as (Wm & Nm & _ & Om).
  apply ord_ge0; trivial. rewrite Om.
  apply R_nonneg; [|apply unit_scale_pos].
  apply Z.mul_nonneg_nonneg; now apply ge0_ord.
Qed.

Lemma health_fold_ge0 sc l : forall acc,
  wf acc = true -> leb (of_Z 0) acc = true ->
  forallb nonneg_event l = true ->
  leb (of_Z 0)
      (fold_left (fun acc ev => acc + eventSavings sc ev) l acc) = true.
Proof.
  induction l as [|a l IH]; intros acc Wa La H; trivial.
  cbn [forallb] in H. apply andb_true_iff in H. destruct H as [Ha H].
  cbn [fold_left].
  assert (We : wf (eventSavings sc a) = true).
  { apply eventSavings_wf. unfold nonneg_event in Ha.
    apply andb_true_iff in Ha. destruct Ha as [Hc Hp].
    destruct (nonneg_finite_inv _ Hc) as (Wc & _).
    destruct (nonneg_finite_inv _ Hp) as (Wp & _).
    unfold wf_event. now rewrite Wc, Wp. }
  apply IH; trivial.
  - now apply add_wf.
  - apply add_ge0; trivial. now apply eventSavings_ge0.
Qed.

End HealthSign.

(** X23: when the counts and the costs of the health events are finite
    and not negative, the health-savings term of [computeScenario] is
    neither negative nor NaN, in every scenario. *)
Theorem healthSavings_nonneg st sc :
  forallb nonneg_event (healthEvents st) = true ->
  leb (of_Z 0) (Body.healthSavings st sc) = true
  /\ isNaN (Body.healthSavings st sc) = false.
Proof.
  intros H.
  assert (L : leb (of_Z 0) (Body.healthSavings st sc) = true).
  { rewrite healthSavings_eventSavings.
    now apply health_fold_ge0. }
  split; trivial. now apply leb_not_NaN in L.
Qed.

Lemma healthSavings_nonneg_witness :
  leb (of_Z 0) (Body.healthSavings defaultState base) = true
  /\ isNaN (Body.healthSavings defaultState base) = false.
Proof.
  apply (healthSavings_nonneg defaultState base). reflexivity.
Defined.
